(** * Presidential election analysis: aggregation and query engine

    A shallow embedding of [src/presidentialElection.cpp] and the
    properties of its five queries.

    Conventions of the embedding:
    - [int] is a 32-bit two's-complement integer, carried as a [Z] in
      [INT_MIN .. INT_MAX]; [+=] is [int_add], which wraps around (what the
      usual targets do on signed overflow; the C++ standard leaves it
      undefined).
    - [std::string] is [string]; [::toupper] is the "C" locale mapping of
      ['a'..'z'] to ['A'..'Z'].
    - [std::vector] is [list]; a range-for loop is a [fold_left] or a
      structural recursion over the list.
    - [double] is IEEE-754 binary64, carried as a [spec_float] with
      precision 53 and maximal exponent 1024, rounding to nearest even.
    - [std::sort] is a library routine: the queries are parameterised by a
      [sort] function that meets its contract ([std_sort_contract]); where
      a run depends on more than the contract, [std_sort] is the routine of
      GCC's libstdc++.
    - An exception that leaves a function is an outcome of its model. *)

From Stdlib Require Import ZArith List String Ascii Bool Lia.
From Stdlib Require Import Permutation Sorted.
From Stdlib Require Import SpecFloat.
Import ListNotations.

Local Open Scope string_scope.
Local Open Scope list_scope.
Local Open Scope Z_scope.

(* ================================================================== *)
(** ** 32-bit signed integers *)

Module Int32.

Definition INT_MIN : Z := -2147483648.
Definition INT_MAX : Z := 2147483647.
Definition modulus : Z := 4294967296.

Definition in_range (z : Z) : Prop := INT_MIN <= z <= INT_MAX.

(** Reduction of a mathematical integer to its 32-bit representative. *)
Definition wrap (z : Z) : Z := (z - INT_MIN) mod modulus + INT_MIN.

(** [a + b] on [int]. *)
Definition int_add (a b : Z) : Z := wrap (a + b).

(** Sum of a list the way a loop [t = 0; for (x : l) t += x;] computes it. *)
Definition int_sum (l : list Z) : Z := fold_left int_add l 0.

(** Mathematical sum. *)
Definition Zsum (l : list Z) : Z := fold_right Z.add 0 l.

End Int32.
Export Int32.

(* ================================================================== *)
(** ** Strings: [toUpper] and [std::string::find] *)

(** [::toupper] in the "C" locale. *)
Definition toupper (c : ascii) : ascii :=
  let n := nat_of_ascii c in
  if andb (Nat.leb 97 n) (Nat.leb n 122) then ascii_of_nat (n - 32) else c.

(** [toUpper], lines 149-152: [transform] with [::toupper] over the string. *)
Fixpoint toUpper (str : string) : string :=
  match str with
  | EmptyString => EmptyString
  | String c rest => String (toupper c) (toUpper rest)
  end.

(** [s.find(t)]: index of the first occurrence of [t] in [s], [None] for
    [npos].  The empty string is found at index 0 of every string. *)
Fixpoint string_find (s t : string) : option nat :=
  if prefix t s then Some 0%nat
  else match s with
       | EmptyString => None
       | String _ s' => option_map S (string_find s' t)
       end.

(** [s.find(t) != string::npos] *)
Definition contains (s t : string) : bool :=
  match string_find s t with Some _ => true | None => false end.

(* ================================================================== *)
(** ** Data model *)

(** [class Votes] *)
Record Votes := mkVotes {
  getState : string;
  getCounty : string;
  getCandidate : string;
  getParty : string;
  getVoteCount : Z
}.

(** [class CandidateSummary] *)
Record CandidateSummary := mkSummary {
  name : string;
  party : string;
  totalVotes : Z
}.

(** [CandidateSummary::operator<], lines 66-68. *)
Definition summary_lt (a other : CandidateSummary) : bool :=
  totalVotes other <? totalVotes a.

(** The records a loaded file can hold: every count is an [int]. *)
Definition votes_wf (votes : list Votes) : Prop :=
  Forall (fun v => in_range (getVoteCount v)) votes.

(** [STATES], lines 18-30. *)
Definition STATES : list string :=
  [ "ALABAMA"; "ALASKA"; "ARIZONA"; "ARKANSAS"; "CALIFORNIA";
    "COLORADO"; "CONNECTICUT"; "DELAWARE"; "FLORIDA"; "GEORGIA";
    "HAWAII"; "IDAHO"; "ILLINOIS"; "INDIANA"; "IOWA";
    "KANSAS"; "KENTUCKY"; "LOUISIANA"; "MAINE"; "MARYLAND";
    "MASSACHUSETTS"; "MICHIGAN"; "MINNESOTA"; "MISSISSIPPI"; "MISSOURI";
    "MONTANA"; "NEBRASKA"; "NEVADA"; "NEW HAMPSHIRE"; "NEW JERSEY";
    "NEW MEXICO"; "NEW YORK"; "NORTH CAROLINA"; "NORTH DAKOTA"; "OHIO";
    "OKLAHOMA"; "OREGON"; "PENNSYLVANIA"; "RHODE ISLAND"; "SOUTH CAROLINA";
    "SOUTH DAKOTA"; "TENNESSEE"; "TEXAS"; "UTAH"; "VERMONT";
    "VIRGINIA"; "WASHINGTON"; "WASHINGTON DC"; "WEST VIRGINIA"; "WISCONSIN";
    "WYOMING" ].

Definition NUM_STATES : nat := 51.

Arguments STATES : simpl never.

(* ================================================================== *)
(** ** Aggregation: the grouping loop *)

(** Inner loop of lines 160-166 (and 209-215): add the vote to the first
    summary with the vote's candidate name; [None] when [found] stays
    false. *)
Fixpoint addToSummary (summaries : list CandidateSummary) (vote : Votes)
  : option (list CandidateSummary) :=
  match summaries with
  | [] => None
  | summary :: rest =>
      if String.eqb (name summary) (getCandidate vote)
      then Some (mkSummary (name summary) (party summary)
                   (int_add (totalVotes summary) (getVoteCount vote)) :: rest)
      else option_map (cons summary) (addToSummary rest vote)
  end.

(** Body of the outer loop, lines 159-170. *)
Definition tallyVote (summaries : list CandidateSummary) (vote : Votes)
  : list CandidateSummary :=
  match addToSummary summaries vote with
  | Some summaries' => summaries'
  | None =>
      summaries ++ [mkSummary (getCandidate vote) (getParty vote) (getVoteCount vote)]
  end.

(** Lines 156-171: the summaries before they are sorted. *)
Definition groupByCandidate (votes : list Votes) : list CandidateSummary :=
  fold_left tallyVote votes [].

(** The contract of [std::sort(first, last)] on a vector of summaries: the
    result is a rearrangement of the input in which no later element is
    [operator<] an earlier one. *)
Definition std_sort_contract
  (sort : list CandidateSummary -> list CandidateSummary) : Prop :=
  (forall l, Permutation l (sort l)) /\
  (forall l, StronglySorted (fun a b => summary_lt b a = false) (sort l)).

(** [getCandidateSummaries], lines 155-174. *)
Definition getCandidateSummaries
  (sort : list CandidateSummary -> list CandidateSummary)
  (votes : list Votes) : list CandidateSummary :=
  sort (groupByCandidate votes).

(** [showDataOverview], lines 177-185: the two numbers it prints. *)
Definition showDataOverview (votes : list Votes) : nat * Z :=
  (List.length votes, fold_left (fun totalVotes vote => int_add totalVotes (getVoteCount vote)) votes 0).

(** [showNationalResults], lines 188-196: the rows it prints. *)
Definition showNationalResults
  (sort : list CandidateSummary -> list CandidateSummary)
  (votes : list Votes) : list (string * string * Z) :=
  map (fun summary => (name summary, party summary, totalVotes summary))
      (getCandidateSummaries sort votes).

(* ================================================================== *)
(** ** [double] *)

Module Double.

Definition prec : Z := 53.
Definition emax : Z := 1024.

Definition double : Type := spec_float.

(** Conversion [int -> double]; exact, an [int] has at most 32 bits. *)
Definition of_int (z : Z) : double := binary_normalize prec emax z 0 false.

Definition zero : double := S754_zero false.
Definition mul : double -> double -> double := SFmul prec emax.
Definition div : double -> double -> double := SFdiv prec emax.

(** [a > b] *)
Definition gt (a b : double) : bool := SFltb b a.
(** [a >= b] *)
Definition ge (a b : double) : bool := SFleb b a.

(** [round] of <cmath>: the nearest integral value, halfway cases away
    from zero, as a [double]. *)
Definition round (x : double) : double :=
  match x with
  | S754_finite s m e =>
      if 0 <=? e then x
      else binary_normalize prec emax
             (cond_Zopp s ((Zpos m + 2 ^ (- e - 1)) / 2 ^ (- e))) 0 s
  | _ => x
  end.

(** Conversion [double -> int]: truncation toward zero.  Where the value
    does not fit (or is not a number) the conversion is undefined; the
    model returns [INT_MIN], as the x86 conversion instruction does. *)
Definition to_int (x : double) : Z :=
  match x with
  | S754_zero _ => 0
  | S754_finite s m e =>
      let t := cond_Zopp s (if 0 <=? e then Zpos m * 2 ^ e
                            else Zpos m / 2 ^ (- e)) in
      if andb (INT_MIN <=? t) (t <=? INT_MAX) then t else INT_MIN
  | _ => INT_MIN
  end.

End Double.

(* ================================================================== *)
(** ** State results *)

(** Lines 205-221: the grouping loop of [showStateResults]; [state] is the
    upper-cased input. *)
Definition groupByCandidateInState (votes : list Votes) (state : string)
  : list CandidateSummary :=
  fold_left
    (fun stateSummaries vote =>
       if String.eqb (getState vote) state
       then tallyVote stateSummaries vote
       else stateSummaries)
    votes [].

(** Line 226: [int bars = round(summary.totalVotes / 150000.0)]; the
    literal [150000.0] is the conversion of [150000], which is exact. *)
Definition bars (totalVotes : Z) : Z :=
  Double.to_int
    (Double.round (Double.div (Double.of_int totalVotes) (Double.of_int 150000))).

(** Lines 205-222: [stateSummaries] once sorted. *)
Definition stateSummaries
  (sort : list CandidateSummary -> list CandidateSummary)
  (votes : list Votes) (state : string) : list CandidateSummary :=
  sort (groupByCandidateInState votes state).

(** Lines 224-228, the printing loop: the rows printed in full (a summary
    and the number of ['|'] after its name), and the summary at which the
    loop is left by an exception, if any.  [string(bars, '|')] takes its
    length as a [size_t]: a negative [bars] becomes a value above
    [max_size()] and the constructor throws [std::length_error].  The name
    of that summary is already printed, its bar and the rows after it are
    not; nothing catches the exception. *)
Fixpoint printChart (summaries : list CandidateSummary)
  : list (CandidateSummary * Z) * option CandidateSummary :=
  match summaries with
  | [] => ([], None)
  | summary :: rest =>
      let bars := bars (totalVotes summary) in
      if bars <? 0 then ([], Some summary)
      else let '(rows, thrown) := printChart rest in
           ((summary, bars) :: rows, thrown)
  end.

(** What [showStateResults] does: [sortedSummaries] is the vector
    [stateSummaries] after line 222, [printedRows] the rows of the chart
    that are printed, [lengthError] the summary whose bar could not be
    built ([None] when the function returns). *)
Record StateResults := mkStateResults {
  sortedSummaries : list CandidateSummary;
  printedRows : list (CandidateSummary * Z);
  lengthError : option CandidateSummary
}.

(** [showStateResults], lines 199-229. *)
Definition showStateResults
  (sort : list CandidateSummary -> list CandidateSummary)
  (votes : list Votes) (stateInput : string) : StateResults :=
  let state := toUpper stateInput in
  let stateSummaries := stateSummaries sort votes state in
  mkStateResults stateSummaries
    (fst (printChart stateSummaries)) (snd (printChart stateSummaries)).

(* ================================================================== *)
(** ** Candidate results *)

(** Lines 238-244: the first record whose upper-cased candidate name
    contains [candidateSearch]; the empty string when there is none. *)
Fixpoint findCandidate (votes : list Votes) (candidateSearch : string) : string :=
  match votes with
  | [] => ""
  | vote :: rest =>
      if contains (toUpper (getCandidate vote)) candidateSearch
      then getCandidate vote
      else findCandidate rest candidateSearch
  end.

(** A row of [stateResults]: state, (candidate votes, total votes). *)
Definition StateResult : Type := string * (Z * Z).

(** Lines 246-251. *)
Definition initStateResults : list StateResult :=
  map (fun state => (state, (0, 0))) (firstn NUM_STATES STATES).

(** Lines 254-262: the inner loop over [i], walking [STATES] and
    [stateResults] together up to the first matching state. *)
Fixpoint addToState (states : list string) (stateResults : list StateResult)
  (vote : Votes) (candidateName : string) : list StateResult :=
  match states, stateResults with
  | state :: states', result :: stateResults' =>
      if String.eqb (getState vote) state
      then (fst result,
            ((if String.eqb (getCandidate vote) candidateName
              then int_add (fst (snd result)) (getVoteCount vote)
              else fst (snd result)),
             int_add (snd (snd result)) (getVoteCount vote)))
           :: stateResults'
      else result :: addToState states' stateResults' vote candidateName
  | _, _ => stateResults
  end.

(** Lines 246-263. *)
Definition buildStateResults (votes : list Votes) (candidateName : string)
  : list StateResult :=
  fold_left
    (fun stateResults vote =>
       addToState (firstn NUM_STATES STATES) stateResults vote candidateName)
    votes initStateResults.

(** Lines 273-275 and 280: the percentage printed for a row. *)
Definition percentageOf (result : StateResult) : Double.double :=
  if 0 <? snd (snd result)
  then Double.div (Double.mul (Double.of_int 100) (Double.of_int (fst (snd result))))
                  (Double.of_int (snd (snd result)))
  else Double.zero.

(** Lines 274-280: one iteration's effect on [(bestPercentage, bestState)]. *)
Definition bestStep (best : Double.double * string) (result : StateResult)
  : Double.double * string :=
  if 0 <? snd (snd result)
  then if Double.gt (percentageOf result) (fst best)
       then (percentageOf result, fst result)
       else best
  else best.

(** Lines 265-283: [(bestPercentage, bestState)] after the loop. *)
Definition bestOf (stateResults : list StateResult) : Double.double * string :=
  fold_left bestStep stateResults (Double.zero, "").

(** What [showCandidateResults] prints. *)
Record CandidateResults := mkCandidateResults {
  candidateName : string;
  rows : list (StateResult * Double.double);
  bestState : string;
  bestPercentage : Double.double
}.

(** [showCandidateResults], lines 232-286. *)
Definition showCandidateResults (votes : list Votes) (candidateInput : string)
  : CandidateResults :=
  let candidateSearch := toUpper candidateInput in
  let candidateName := findCandidate votes candidateSearch in
  let stateResults := buildStateResults votes candidateName in
  let best := bestOf stateResults in
  mkCandidateResults candidateName
    (map (fun result => (result, percentageOf result)) stateResults)
    (snd best) (fst best).

(* ================================================================== *)
(** ** County search *)

(** [showCountySearch], lines 289-302: the records it prints, in input
    order. *)
Definition showCountySearch (votes : list Votes) (countyInput : string)
  : list Votes :=
  let countySearch := toUpper countyInput in
  filter (fun vote => contains (toUpper (getCounty vote)) countySearch) votes.

(* ================================================================== *)
(** ** Reading the file *)

(** An input stream: the characters not read yet and the two state bits
    that the loader tests or that decide whether a read is attempted. *)
Record istream := mkStream {
  buffer : string;
  eofbit : bool;
  failbit : bool
}.

(** [ifstream file(filename)]; [None] is a file that cannot be opened, which
    leaves the stream with [failbit] set. *)
Definition open (content : option string) : istream :=
  match content with
  | Some text => mkStream text false false
  | None => mkStream "" false true
  end.

(** The characters of [s] before the first [delim] and, when there is one,
    the characters after it. *)
Fixpoint split_at (delim : ascii) (s : string) : string * option string :=
  match s with
  | EmptyString => ("", None)
  | String c rest =>
      if Ascii.eqb c delim then ("", Some rest)
      else let (field, after) := split_at delim rest in (String c field, after)
  end.

(** [getline(is, str, delim)].  On a stream that is not good the read is
    not attempted: [failbit] is set and [str] keeps its value.  Otherwise
    [str] receives the characters up to the delimiter, which is consumed;
    reaching the end of the input sets [eofbit], and also [failbit] when no
    character was extracted. *)
Definition getline (input : istream) (str : string) (delim : ascii)
  : istream * string :=
  if orb (eofbit input) (failbit input)
  then (mkStream (buffer input) (eofbit input) true, str)
  else match split_at delim (buffer input) with
       | (field, Some rest) => (mkStream rest false false, field)
       | (field, None) =>
           (mkStream "" true (match field with EmptyString => true | _ => false end),
            field)
       end.

(** The exceptions of [stoi]. *)
Inductive exception := invalid_argument | out_of_range.

(** [isspace] in the "C" locale. *)
Definition isspace (c : ascii) : bool :=
  let n := nat_of_ascii c in
  orb (Nat.eqb n 32) (andb (Nat.leb 9 n) (Nat.leb n 13)).

Definition digit_of (c : ascii) : option Z :=
  let n := nat_of_ascii c in
  if andb (Nat.leb 48 n) (Nat.leb n 57) then Some (Z.of_nat (n - 48)) else None.

Fixpoint skip_spaces (s : string) : string :=
  match s with
  | String c rest => if isspace c then skip_spaces rest else s
  | EmptyString => s
  end.

(** The value of the leading decimal digits of [s], continuing [acc];
    [None] when there is no digit ([any] tells whether one was read). *)
Fixpoint read_digits (s : string) (acc : Z) (any : bool) : option Z :=
  match s with
  | String c rest =>
      match digit_of c with
      | Some d => read_digits rest (10 * acc + d) true
      | None => if any then Some acc else None
      end
  | EmptyString => if any then Some acc else None
  end.

(** [stoi(str)]: leading white space is skipped, a sign is optional, the
    digits that follow are the value and what comes after them is ignored;
    [invalid_argument] without a digit, [out_of_range] when the value is no
    [int]. *)
Definition stoi (str : string) : Z + exception :=
  let s := skip_spaces str in
  let '(negative, digits) :=
    match s with
    | String "-" rest => (true, rest)
    | String "+" rest => (false, rest)
    | _ => (false, s)
    end in
  match read_digits digits 0 false with
  | None => inr invalid_argument
  | Some n =>
      let value := if negative then - n else n in
      if andb (INT_MIN <=? value) (value <=? INT_MAX)
      then inl value else inr out_of_range
  end.

(** The strings declared before the loop of [readVotesFromFile], line 131;
    they keep their values from one iteration to the next. *)
Record fields := mkFields {
  f_state : string;
  f_county : string;
  f_candidate : string;
  f_party : string;
  f_votesStr : string
}.

(** How a call of [readVotesFromFile] ends: it returns the records, or an
    exception of [stoi] leaves it; [Unfinished] is the loop cut off after
    the given number of iterations. *)
Inductive loaded :=
  | Loaded (votes : list Votes)
  | Thrown (e : exception)
  | Unfinished.

(** The loop of lines 133-144, for at most [fuel] iterations. *)
Fixpoint readLoop (fuel : nat) (file : istream) (vars : fields)
  (votes : list Votes) : loaded :=
  match fuel with
  | O => Unfinished
  | S fuel' =>
      if eofbit file then Loaded votes
      else
        let '(file, state) := getline file (f_state vars) "," in
        if eofbit file then Loaded votes
        else
          let '(file, county) := getline file (f_county vars) "," in
          let '(file, candidate) := getline file (f_candidate vars) "," in
          let '(file, party) := getline file (f_party vars) "," in
          let '(file, votesStr) := getline file (f_votesStr vars) "010" in
          match stoi votesStr with
          | inr e => Thrown e
          | inl voteCount =>
              readLoop fuel' file
                (mkFields state county candidate party votesStr)
                (votes ++ [mkVotes state county candidate party voteCount])
          end
  end.

(** [readVotesFromFile], lines 128-146; the argument is the content of the
    named file, [None] when it cannot be opened.  An iteration that goes on
    consumes a character, so one more iteration than there are characters
    is enough (proved below). *)
Definition readVotesFromFile (content : option string) : loaded :=
  readLoop
    (S (match content with Some text => String.length text | None => O end))
    (open content) (mkFields "" "" "" "" "") [].

(* ================================================================== *)
(** ** A sorting routine that meets the contract of [std::sort] *)

(** Insertion below the elements that are not [operator<] the new one. *)
Fixpoint insert_summary (x : CandidateSummary) (l : list CandidateSummary)
  : list CandidateSummary :=
  match l with
  | [] => [x]
  | y :: l' => if summary_lt y x then y :: insert_summary x l' else x :: y :: l'
  end.

(** Insertion sort; it keeps equal elements in their input order. *)
Definition insertion_sort (l : list CandidateSummary) : list CandidateSummary :=
  fold_right insert_summary [] l.

(* ================================================================== *)
(** ** [std::sort] as GCC's libstdc++ implements it

    The routine that line 172 and line 222 call when the program is built
    with GCC: [std::sort] of [bits/stl_algo.h] with the heap operations of
    [bits/stl_heap.h] (GCC 12).  A range [[first, last)] of the vector is a
    pair of positions in the list; an assignment through an iterator is
    [set_nth].  The loops of the library that have no counter take a fuel
    that bounds their number of iterations. *)

Section Libstdcxx.

Variable T : Type.
(** [operator<] of the element type. *)
Variable comp : T -> T -> bool.
(** Never read: every position the routines use lies inside the vector. *)
Variable default : T.

(** [*(first + i)] *)
Definition get (l : list T) (i : nat) : T := nth i l default.

(** [*(first + i) = x] *)
Fixpoint set_nth (l : list T) (i : nat) (x : T) : list T :=
  match l, i with
  | [], _ => []
  | _ :: t, O => x :: t
  | h :: t, S i' => h :: set_nth t i' x
  end.

(** [std::iter_swap(i, j)] *)
Definition iter_swap (l : list T) (i j : nat) : list T :=
  set_nth (set_nth l i (get l j)) j (get l i).

(** [__move_median_to_first], stl_algo.h lines 82-100. *)
Definition __move_median_to_first (l : list T) (result a b c : nat) : list T :=
  if comp (get l a) (get l b) then
    if comp (get l b) (get l c) then iter_swap l result b
    else if comp (get l a) (get l c) then iter_swap l result c
    else iter_swap l result a
  else if comp (get l a) (get l c) then iter_swap l result a
  else if comp (get l b) (get l c) then iter_swap l result c
  else iter_swap l result b.

(** [while (comp(first, pivot)) ++first;] *)
Fixpoint scan_up (fuel : nat) (l : list T) (pivot first : nat) : nat :=
  match fuel with
  | O => first
  | S fuel' =>
      if comp (get l first) (get l pivot)
      then scan_up fuel' l pivot (S first) else first
  end.

(** [while (comp(pivot, last)) --last;] *)
Fixpoint scan_down (l : list T) (pivot last : nat) : nat :=
  match last with
  | O => O
  | S last' =>
      if comp (get l pivot) (get l last) then scan_down l pivot last' else last
  end.

(** [__unguarded_partition], stl_algo.h lines 1861-1877. *)
Fixpoint __unguarded_partition (fuel : nat) (l : list T) (first last pivot : nat)
  : list T * nat :=
  match fuel with
  | O => (l, first)
  | S fuel' =>
      let first := scan_up (List.length l) l pivot first in
      let last := scan_down l pivot (last - 1) in
      if (first <? last)%nat
      then __unguarded_partition fuel' (iter_swap l first last) (S first) last pivot
      else (l, first)
  end.

(** [__unguarded_partition_pivot], stl_algo.h lines 1883-1890. *)
Definition __unguarded_partition_pivot (l : list T) (first last : nat)
  : list T * nat :=
  let mid := (first + (last - first) / 2)%nat in
  let l := __move_median_to_first l first (first + 1) mid (last - 1) in
  __unguarded_partition (List.length l) l (first + 1) last first.

(** The loop of [__unguarded_linear_insert]; [last] is one above [next]. *)
Fixpoint linear_insert_loop (l : list T) (val : T) (last : nat) : list T :=
  match last with
  | O => set_nth l O val
  | S next =>
      if comp val (get l next)
      then linear_insert_loop (set_nth l last (get l next)) val next
      else set_nth l last val
  end.

(** [__unguarded_linear_insert], stl_algo.h lines 1782-1796. *)
Definition __unguarded_linear_insert (l : list T) (last : nat) : list T :=
  linear_insert_loop l (get l last) last.

(** [std::move_backward(first, first + count, first + count + 1)] *)
Fixpoint move_backward (l : list T) (first count : nat) : list T :=
  match count with
  | O => l
  | S c => move_backward (set_nth l (first + c + 1) (get l (first + c))) first c
  end.

(** The loop of [__insertion_sort]: [n] iterations from position [i]. *)
Fixpoint insertion_loop (n : nat) (l : list T) (first i : nat) : list T :=
  match n with
  | O => l
  | S n' =>
      let l' := if comp (get l i) (get l first)
                then set_nth (move_backward l first (i - first)) first (get l i)
                else __unguarded_linear_insert l i in
      insertion_loop n' l' first (S i)
  end.

(** [__insertion_sort], stl_algo.h lines 1802-1820. *)
Definition __insertion_sort (l : list T) (first last : nat) : list T :=
  if (first =? last)%nat then l
  else insertion_loop (last - (first + 1)) l first (first + 1).

Fixpoint unguarded_insertion_loop (n : nat) (l : list T) (i : nat) : list T :=
  match n with
  | O => l
  | S n' => unguarded_insertion_loop n' (__unguarded_linear_insert l i) (S i)
  end.

(** [__unguarded_insertion_sort], stl_algo.h lines 1826-1832. *)
Definition __unguarded_insertion_sort (l : list T) (first last : nat) : list T :=
  unguarded_insertion_loop (last - first) l first.

(** stl_algo.h line 1838. *)
Definition _S_threshold : nat := 16.

(** [__final_insertion_sort], stl_algo.h lines 1844-1855. *)
Definition __final_insertion_sort (l : list T) (first last : nat) : list T :=
  if (_S_threshold <? last - first)%nat
  then __unguarded_insertion_sort
         (__insertion_sort l first (first + _S_threshold))
         (first + _S_threshold) last
  else __insertion_sort l first last.

(** [__push_heap], stl_heap.h lines 135-147. *)
Fixpoint __push_heap (fuel : nat) (l : list T) (first holeIndex topIndex : nat)
  (value : T) : list T :=
  match fuel with
  | O => set_nth l (first + holeIndex) value
  | S fuel' =>
      let parent := ((holeIndex - 1) / 2)%nat in
      if (topIndex <? holeIndex)%nat && comp (get l (first + parent)) value
      then __push_heap fuel'
             (set_nth l (first + holeIndex) (get l (first + parent)))
             first parent topIndex value
      else set_nth l (first + holeIndex) value
  end.

(** The first loop of [__adjust_heap]. *)
Fixpoint adjust_heap_loop (fuel : nat) (l : list T)
  (first holeIndex secondChild len : nat) : list T * nat * nat :=
  match fuel with
  | O => (l, holeIndex, secondChild)
  | S fuel' =>
      if (secondChild <? (len - 1) / 2)%nat then
        let secondChild := (2 * (secondChild + 1))%nat in
        let secondChild :=
          if comp (get l (first + secondChild)) (get l (first + (secondChild - 1)))
          then (secondChild - 1)%nat else secondChild in
        adjust_heap_loop fuel'
          (set_nth l (first + holeIndex) (get l (first + secondChild)))
          first secondChild secondChild len
      else (l, holeIndex, secondChild)
  end.

(** [__adjust_heap], stl_heap.h lines 224-250. *)
Definition __adjust_heap (l : list T) (first holeIndex len : nat) (value : T)
  : list T :=
  let topIndex := holeIndex in
  let '(l, holeIndex, secondChild) :=
    adjust_heap_loop len l first holeIndex holeIndex len in
  let '(l, holeIndex) :=
    if Nat.even len && (secondChild =? (len - 2) / 2)%nat
    then let secondChild := (2 * (secondChild + 1))%nat in
         (set_nth l (first + holeIndex) (get l (first + (secondChild - 1))),
          (secondChild - 1)%nat)
    else (l, holeIndex) in
  __push_heap (S holeIndex) l first holeIndex topIndex value.

(** [__pop_heap], stl_heap.h lines 254-267. *)
Definition __pop_heap (l : list T) (first last result : nat) : list T :=
  let value := get l result in
  let l := set_nth l result (get l first) in
  __adjust_heap l first 0 (last - first) value.

(** The loop of [__make_heap], from [parent] down to 0. *)
Fixpoint make_heap_loop (l : list T) (first len parent : nat) : list T :=
  let l' := __adjust_heap l first parent len (get l (first + parent)) in
  match parent with
  | O => l'
  | S parent' => make_heap_loop l' first len parent'
  end.

(** [__make_heap], stl_heap.h lines 340-361. *)
Definition __make_heap (l : list T) (first last : nat) : list T :=
  if (last - first <? 2)%nat then l
  else make_heap_loop l first (last - first) ((last - first - 2) / 2).

Fixpoint heap_select_loop (n : nat) (l : list T) (first middle i : nat) : list T :=
  match n with
  | O => l
  | S n' =>
      let l' := if comp (get l i) (get l first)
                then __pop_heap l first middle i else l in
      heap_select_loop n' l' first middle (S i)
  end.

(** [__heap_select], stl_algo.h lines 1625-1633. *)
Definition __heap_select (l : list T) (first middle last : nat) : list T :=
  heap_select_loop (last - middle) (__make_heap l first middle) first middle middle.

(** [__sort_heap], stl_heap.h lines 419-428. *)
Fixpoint __sort_heap (fuel : nat) (l : list T) (first last : nat) : list T :=
  match fuel with
  | O => l
  | S fuel' =>
      if (1 <? last - first)%nat
      then __sort_heap fuel' (__pop_heap l first (last - 1) (last - 1))
             first (last - 1)
      else l
  end.

(** [__partial_sort], stl_algo.h lines 1895-1902. *)
Definition __partial_sort (l : list T) (first middle last : nat) : list T :=
  __sort_heap (middle - first) (__heap_select l first middle last) first middle.

(** [__introsort_loop], stl_algo.h lines 1908-1926: the recursive call
    sorts the upper part, the next iteration of the [while] takes the lower
    part with the same decremented [depth_limit]. *)
Fixpoint __introsort_loop (depth_limit : nat) (l : list T) (first last : nat)
  : list T :=
  if (_S_threshold <? last - first)%nat
  then match depth_limit with
       | O => __partial_sort l first last last
       | S depth_limit' =>
           let '(l, cut) := __unguarded_partition_pivot l first last in
           let l := __introsort_loop depth_limit' l cut last in
           __introsort_loop depth_limit' l first cut
       end
  else l.

(** [std::sort(first, last)] over the whole vector, stl_algo.h lines
    4810-4821 and 1932-1942 ([__sort]); [std::__lg] is the binary
    logarithm rounded down. *)
Definition std_sort (l : list T) : list T :=
  match l with
  | [] => l
  | _ =>
      __final_insertion_sort
        (__introsort_loop (Nat.log2 (List.length l) * 2) l 0 (List.length l))
        0 (List.length l)
  end.

End Libstdcxx.

(** [std::sort] on a [vector<CandidateSummary>]. *)
Definition sort_summaries : list CandidateSummary -> list CandidateSummary :=
  std_sort CandidateSummary summary_lt (mkSummary "" "" 0).

(** What [__unguarded_linear_insert] does to the sorted part before the
    inserted [val], read from its upper end ([reversed]): [val] goes down
    past the summaries it is [operator<]. *)
Fixpoint insert_down (val : CandidateSummary) (reversed : list CandidateSummary)
  : list CandidateSummary :=
  match reversed with
  | [] => [val]
  | next :: below =>
      if summary_lt val next then next :: insert_down val below
      else val :: next :: below
  end.

(** What one iteration of the loop of [__insertion_sort] makes of the
    sorted part [sorted] and the summary [val] that follows it. *)
Definition insertion_step (sorted : list CandidateSummary) (val : CandidateSummary)
  : list CandidateSummary :=
  match sorted with
  | [] => [val]
  | first :: _ =>
      if summary_lt val first then val :: sorted
      else rev (insert_down val (rev sorted))
  end.

(* ================================================================== *)
(** ** Vocabulary of the properties *)

(** Index of the first element that satisfies [p]. *)
Fixpoint index_of {A : Type} (p : A -> bool) (l : list A) : option nat :=
  match l with
  | [] => None
  | x :: l' => if p x then Some 0%nat else option_map S (index_of p l')
  end.

(** Position in the input of the first record of a candidate. *)
Definition firstRecord (votes : list Votes) (candidate : string) : option nat :=
  index_of (fun vote => String.eqb (getCandidate vote) candidate) votes.

(** Position of a candidate in a list of summaries. *)
Definition rank (results : list CandidateSummary) (candidate : string) : option nat :=
  index_of (fun summary => String.eqb (name summary) candidate) results.

(** Non-increasing by [totalVotes]. *)
Definition sorted_desc (results : list CandidateSummary) : Prop :=
  StronglySorted (fun a b => totalVotes b <= totalVotes a) results.

(** Among equal totals, the candidate first met in the input comes first. *)
Definition ties_first_seen (votes : list Votes) (results : list CandidateSummary)
  : Prop :=
  forall a b i j p q,
    In a results -> In b results -> totalVotes a = totalVotes b ->
    firstRecord votes (name a) = Some i -> firstRecord votes (name b) = Some j ->
    (i < j)%nat ->
    rank results (name a) = Some p -> rank results (name b) = Some q ->
    (p < q)%nat.

(** Whether both positions exist and the first is the smaller. *)
Definition comes_before (x y : option nat) : bool :=
  match x, y with
  | Some i, Some j => Nat.ltb i j
  | _, _ => false
  end.

(** The candidates of a list of names in the order they are first met. *)
Definition firstSeen (candidates : list string) : list string :=
  fold_left
    (fun seen c => if in_dec string_dec c seen then seen else seen ++ [c])
    candidates [].

(** A sort routine that keeps elements of equal [totalVotes] in their input
    order (what [std::stable_sort] promises and [std::sort] does not). *)
Definition stable (sort : list CandidateSummary -> list CandidateSummary) : Prop :=
  forall l k,
    filter (fun s => totalVotes s =? k) (sort l) =
    filter (fun s => totalVotes s =? k) l.

(** The sub-list of the records whose jurisdiction is [J]. *)
Definition recordsOf (J : string) (votes : list Votes) : list Votes :=
  filter (fun vote => String.eqb (getState vote) J) votes.

(** The sub-list of the records whose jurisdiction equals [J] when letter
    case is ignored on both sides. *)
Definition recordsOfAnyCase (J : string) (votes : list Votes) : list Votes :=
  filter (fun vote => String.eqb (toUpper (getState vote)) (toUpper J)) votes.

(** The counts of the records of [votes] stored under [state]. *)
Definition stateCounts (state : string) (votes : list Votes) : list Z :=
  map getVoteCount (filter (fun vote => String.eqb (getState vote) state) votes).

(** The counts of the records of [votes] stored under [state] for the
    candidate [candidate]. *)
Definition candidateCounts (state candidate : string) (votes : list Votes) : list Z :=
  map getVoteCount
    (filter (fun vote => andb (String.eqb (getState vote) state)
                              (String.eqb (getCandidate vote) candidate)) votes).

(** The row of [state] once the records [votes] are tallied. *)
Definition tallyOf (votes : list Votes) (candidate state : string) : StateResult :=
  (state, (int_sum (candidateCounts state candidate votes),
           int_sum (stateCounts state votes))).

(** The counts of the records of [votes] that the loop adds to the summary
    named [candidate]. *)
Definition countsFor (candidate : string) (votes : list Votes) : list Z :=
  map getVoteCount (filter (fun vote => String.eqb candidate (getCandidate vote)) votes).

(** What holds of the summaries once the records [seen] are processed. *)
Record grouped (seen : list Votes) (summaries : list CandidateSummary) : Prop := {
  grouped_nodup : NoDup (map name summaries);
  grouped_total : forall s, In s summaries ->
                    totalVotes s = int_sum (countsFor (name s) seen);
  grouped_named : forall s, In s summaries ->
                    exists vote, In vote seen /\ getCandidate vote = name s;
  grouped_all : forall vote, In vote seen -> In (getCandidate vote) (map name summaries)
}.

(** Round-half-away-from-zero of [num / den], for [den > 0]. *)
Definition round_half_away (num den : Z) : Z :=
  if 0 <=? num then (2 * num + den) / (2 * den)
  else - ((2 * (- num) + den) / (2 * den)).

(** The last step of [binary_round_aux]: what the second call of
    [shr_fexp] and the final [match] make of a rounded mantissa. *)
Definition finish (s : bool) (p : shr_record * Z) : spec_float :=
  let '(mrs, e) := p in
  match shr_m mrs with
  | Z0 => S754_zero s
  | Zpos m => if e <=? 1024 - 53 then S754_finite s m e else S754_infinity s
  | Zneg _ => S754_nan
  end.

(** What a rounding location says of the remainder [r] of a division by
    [m2]. *)
Definition loc_fact (l : location) (r m2 : Z) : Prop :=
  match l with
  | loc_Exact => r = 0
  | loc_Inexact Lt => 0 < 2 * r < m2
  | loc_Inexact Eq => 2 * r = m2
  | loc_Inexact Gt => m2 < 2 * r
  end.

(** The record's state is an entry of the enumeration. *)
Definition recognised (vote : Votes) : bool :=
  existsb (String.eqb (getState vote)) STATES.

(** A character of [s] is [c]. *)
Fixpoint has_char (c : ascii) (s : string) : bool :=
  match s with
  | EmptyString => false
  | String d rest => orb (Ascii.eqb d c) (has_char c rest)
  end.

(** A line of the file: the four text fields of [vote] and [count] as the
    text of the fifth, separated by commas and ended by a newline. *)
Definition render (vote : Votes) (count : string) : string :=
  (getState vote ++ "," ++ getCounty vote ++ "," ++ getCandidate vote ++ ","
   ++ getParty vote ++ "," ++ count ++ String "010" "")%string.

(** The lines of a list of records with the texts of their counts. *)
Fixpoint render_all (lines : list (Votes * string)) : string :=
  match lines with
  | [] => ""
  | (vote, count) :: rest => (render vote count ++ render_all rest)%string
  end.

(** The record can be written as a line: no text field holds a comma. *)
Definition comma_free (vote : Votes) : Prop :=
  has_char "," (getState vote) = false
  /\ has_char "," (getCounty vote) = false
  /\ has_char "," (getCandidate vote) = false
  /\ has_char "," (getParty vote) = false.

(** The decimal digits of [n], most significant first, before [tail]; at
    most [fuel] digits. *)
Fixpoint show_digits (fuel : nat) (n : Z) (tail : string) : string :=
  match fuel with
  | O => tail
  | S fuel' =>
      let tail' := String (ascii_of_nat (48 + Z.to_nat (n mod 10))) tail in
      if n <? 10 then tail' else show_digits fuel' (n / 10) tail'
  end.

(** An [int] in decimal. *)
Definition show_int (z : Z) : string :=
  if z <? 0 then String "-" (show_digits 10 (- z) "") else show_digits 10 z "".

(** The file that holds the records [votes], one per line. *)
Definition encode (votes : list Votes) : string :=
  render_all (map (fun vote => (vote, show_int (getVoteCount vote))) votes).

(** A stream that is good, or at its end: what [getline] keeps once the
    file was opened. *)
Definition settled (file : istream) : Prop :=
  eofbit file = true \/ failbit file = false.

(** The record that an iteration appends for a line. *)
Definition with_count (vote : Votes) (voteCount : Z) : Votes :=
  mkVotes (getState vote) (getCounty vote) (getCandidate vote) (getParty vote)
    voteCount.

Definition fields_of (vote : Votes) (count : string) : fields :=
  mkFields (getState vote) (getCounty vote) (getCandidate vote) (getParty vote)
    count.

(** The lines whose counts [stoi] reads, with the records they give. *)
Inductive reads_as : list (Votes * string) -> list Votes -> Prop :=
  | reads_nil : reads_as [] []
  | reads_cons vote count voteCount lines votes :
      comma_free vote -> has_char "010" count = false ->
      stoi count = inl voteCount ->
      reads_as lines votes ->
      reads_as ((vote, count) :: lines) (with_count vote voteCount :: votes).

(** The strings the loop holds after the lines. *)
Definition last_fields (vars : fields) (lines : list (Votes * string)) : fields :=
  match rev lines with
  | [] => vars
  | (vote, count) :: _ => fields_of vote count
  end.

(** The line that lacks its final newline. *)
Definition unterminated (vote : Votes) (count : string) : string :=
  (getState vote ++ "," ++ getCounty vote ++ "," ++ getCandidate vote ++ ","
   ++ getParty vote ++ "," ++ count)%string.

(* ================================================================== *)
(** ** Sample inputs *)

Definition sample_votes : list Votes :=
  [ mkVotes "OHIO" "Cuyahoga" "A" "PartyX" 100;
    mkVotes "OHIO" "Franklin" "A" "PartyX" 50;
    mkVotes "OHIO" "Cuyahoga" "B" "PartyY" 30 ].

(** Two candidates with equal totals. *)
Definition tied_votes : list Votes :=
  [ mkVotes "OHIO" "Cuyahoga" "A" "PartyX" 10;
    mkVotes "OHIO" "Cuyahoga" "B" "PartyY" 10 ].

(** Seventeen candidates with equal totals, named in the order they are
    first met. *)
Definition seventeen_tied : list Votes :=
  map (fun candidate => mkVotes "OHIO" "Cuyahoga" candidate "PartyX" 10)
    [ "C01"; "C02"; "C03"; "C04"; "C05"; "C06"; "C07"; "C08"; "C09";
      "C10"; "C11"; "C12"; "C13"; "C14"; "C15"; "C16"; "C17" ].

(** A candidate whose counts add up to [INT_MAX + 1], and another. *)
Definition wrapped_votes : list Votes :=
  [ mkVotes "OHIO" "Cuyahoga" "A" "PartyX" 2147483647;
    mkVotes "OHIO" "Franklin" "A" "PartyX" 1;
    mkVotes "OHIO" "Cuyahoga" "B" "PartyY" 7 ].

(** A candidate whose total in the state is negative, between two others. *)
Definition negative_votes : list Votes :=
  [ mkVotes "OHIO" "Cuyahoga" "A" "PartyX" 300000;
    mkVotes "OHIO" "Cuyahoga" "B" "PartyY" (-75000);
    mkVotes "OHIO" "Cuyahoga" "C" "PartyZ" (-80000) ].

(** Two records of one state whose counts add up to [INT_MAX + 1]. *)
Definition overflow_votes : list Votes :=
  [ mkVotes "OHIO" "Cuyahoga" "A" "PartyX" 2147483647;
    mkVotes "OHIO" "Cuyahoga" "B" "PartyY" 1 ].

(** Totals just at and just below half a bar. *)
Definition half_bar_votes : list Votes :=
  [ mkVotes "OHIO" "Cuyahoga" "A" "PartyX" 75000;
    mkVotes "OHIO" "Cuyahoga" "B" "PartyY" 74999 ].


(** A record whose jurisdiction is stored in mixed case. *)
Definition mixed_case_votes : list Votes :=
  [ mkVotes "Ohio" "Cuyahoga" "A" "PartyX" 100 ].

(* ================================================================== *)
(** ** Facts about 32-bit arithmetic *)

Lemma wrap_in_range (z : Z) : in_range (wrap z).
Proof.
  unfold in_range, wrap, INT_MIN, INT_MAX, modulus.
  pose proof (Z.mod_pos_bound (z - -2147483648) 4294967296 eq_refl). lia.
Qed.

Lemma wrap_id (z : Z) : in_range z -> wrap z = z.
Proof.
  unfold in_range, wrap, INT_MIN, INT_MAX, modulus. intros H.
  rewrite Z.mod_small; lia.
Qed.

Lemma wrap_add_l (a b : Z) : wrap (wrap a + b) = wrap (a + b).
Proof.
  unfold wrap. f_equal.
  replace ((a - INT_MIN) mod modulus + INT_MIN + b - INT_MIN)
    with ((a - INT_MIN) mod modulus + b) by ring.
  rewrite Z.add_mod_idemp_l by (unfold modulus; lia).
  f_equal. ring.
Qed.

Lemma wrap_add_r (a b : Z) : wrap (a + wrap b) = wrap (a + b).
Proof. rewrite (Z.add_comm a), wrap_add_l. f_equal. ring. Qed.

Lemma wrap_wrap (z : Z) : wrap (wrap z) = wrap z.
Proof. apply wrap_id, wrap_in_range. Qed.

Lemma int_add_in_range (a b : Z) : in_range (int_add a b).
Proof. apply wrap_in_range. Qed.

Lemma int_add_exact (a b : Z) : in_range (a + b) -> int_add a b = a + b.
Proof. apply wrap_id. Qed.

Lemma fold_int_add (l : list Z) (a : Z) :
  wrap (fold_left int_add l a) = wrap (a + Zsum l).
Proof.
  revert a. induction l as [|x l IH]; intros a; simpl.
  - f_equal. lia.
  - rewrite IH. unfold int_add. rewrite wrap_add_l. f_equal. lia.
Qed.

Lemma int_sum_wrap (l : list Z) : int_sum l = wrap (Zsum l).
Proof.
  unfold int_sum.
  assert (H : in_range (fold_left int_add l 0)).
  { destruct l as [|x l] using rev_ind.
    - simpl. unfold in_range, INT_MIN, INT_MAX. lia.
    - rewrite fold_left_app. simpl. apply int_add_in_range. }
  rewrite <- (wrap_id _ H). now rewrite fold_int_add.
Qed.

Lemma Zsum_app (l1 l2 : list Z) : Zsum (l1 ++ l2) = Zsum l1 + Zsum l2.
Proof. induction l1 as [|x l1 IH]; simpl; [reflexivity | rewrite IH; ring]. Qed.

Lemma Zsum_Permutation (l1 l2 : list Z) : Permutation l1 l2 -> Zsum l1 = Zsum l2.
Proof. induction 1; simpl; lia. Qed.

Lemma Zsum_nonneg (l : list Z) : Forall (fun x => 0 <= x) l -> 0 <= Zsum l.
Proof. induction 1; simpl; lia. Qed.

(** Without overflow the loop sum is the mathematical sum. *)
Lemma int_sum_exact (l : list Z) :
  Forall (fun x => 0 <= x) l -> Zsum l <= INT_MAX -> int_sum l = Zsum l.
Proof.
  intros Hpos Hmax. rewrite int_sum_wrap. apply wrap_id.
  pose proof (Zsum_nonneg l Hpos). unfold in_range, INT_MIN. lia.
Qed.

(* ================================================================== *)
(** ** The grouping loop *)

Lemma countsFor_app c l1 l2 : countsFor c (l1 ++ l2) = countsFor c l1 ++ countsFor c l2.
Proof. unfold countsFor. now rewrite filter_app, map_app. Qed.

Lemma addToSummary_None summaries vote :
  addToSummary summaries vote = None <->
  ~ In (getCandidate vote) (map name summaries).
Proof.
  induction summaries as [|s rest IH]; simpl.
  - split; [intros _ [] | reflexivity].
  - destruct (String.eqb_spec (name s) (getCandidate vote)) as [E|E].
    + split; [discriminate | intros H; exfalso; apply H; now left].
    + destruct (addToSummary rest vote); simpl.
      * split; [discriminate|]. intros H. exfalso.
        assert (H' : ~ In (getCandidate vote) (map name rest)) by tauto.
        apply IH in H'. discriminate.
      * split; [|reflexivity]. intros _ [H|H]; [contradiction|].
        now apply (proj1 IH).
Qed.

(** When the candidate is already listed, exactly the first summary of that
    name changes, by the vote's count. *)
Lemma addToSummary_Some summaries vote summaries' :
  addToSummary summaries vote = Some summaries' ->
  exists pre s post,
    summaries = pre ++ s :: post /\
    name s = getCandidate vote /\
    ~ In (getCandidate vote) (map name pre) /\
    summaries' = pre ++ mkSummary (name s) (party s)
                          (int_add (totalVotes s) (getVoteCount vote)) :: post.
Proof.
  revert summaries'. induction summaries as [|s rest IH]; simpl; intros summaries' H.
  - discriminate.
  - destruct (String.eqb_spec (name s) (getCandidate vote)) as [E|E].
    + inversion H; subst. exists [], s, rest. simpl. tauto.
    + destruct (addToSummary rest vote) as [r|] eqn:Er; [|discriminate].
      simpl in H. inversion H; subst.
      destruct (IH r eq_refl) as (pre & s0 & post & -> & Hn & Hpre & ->).
      exists (s :: pre), s0, post. simpl. repeat split; auto.
      intros [F|F]; [congruence | contradiction].
Qed.

Lemma tallyVote_names summaries vote :
  map name (tallyVote summaries vote) =
  if in_dec string_dec (getCandidate vote) (map name summaries)
  then map name summaries
  else map name summaries ++ [getCandidate vote].
Proof.
  unfold tallyVote. destruct (addToSummary summaries vote) as [r|] eqn:E.
  - destruct (addToSummary_Some _ _ _ E) as (pre & s & post & -> & Hn & Hpre & ->).
    destruct (in_dec _ _ _) as [i|n].
    + rewrite !map_app. reflexivity.
    + exfalso. apply n. rewrite map_app. apply in_or_app. right. now left.
  - apply addToSummary_None in E. destruct (in_dec _ _ _) as [i|n]; [contradiction|].
    rewrite map_app. reflexivity.
Qed.

Lemma grouped_nil : grouped [] [].
Proof. split; simpl; try tauto. constructor. Qed.

Lemma int_sum_snoc l x : int_sum (l ++ [x]) = int_add (int_sum l) x.
Proof. unfold int_sum. now rewrite fold_left_app. Qed.

Lemma countsFor_other c vote seen :
  c <> getCandidate vote -> countsFor c (seen ++ [vote]) = countsFor c seen.
Proof.
  intros H. rewrite countsFor_app. unfold countsFor at 2. simpl.
  destruct (String.eqb_spec c (getCandidate vote)); [contradiction|].
  simpl. apply app_nil_r.
Qed.

Lemma countsFor_same vote seen :
  countsFor (getCandidate vote) (seen ++ [vote]) =
  countsFor (getCandidate vote) seen ++ [getVoteCount vote].
Proof.
  rewrite countsFor_app. unfold countsFor at 2. simpl.
  now rewrite String.eqb_refl.
Qed.

Lemma countsFor_unseen c seen :
  ~ In c (map getCandidate seen) -> countsFor c seen = [].
Proof.
  induction seen as [|v seen IH]; simpl; intros H; [reflexivity|].
  unfold countsFor. simpl.
  destruct (String.eqb_spec c (getCandidate v)) as [E|E].
  - exfalso. apply H. left. now symmetry.
  - apply IH. tauto.
Qed.

Lemma grouped_step seen summaries vote :
  in_range (getVoteCount vote) ->
  grouped seen summaries ->
  grouped (seen ++ [vote]) (tallyVote summaries vote).
Proof.
  intros Hr [Hnd Htot Hnam Hall].
  assert (Hnames := tallyVote_names summaries vote).
  unfold tallyVote in *. destruct (addToSummary summaries vote) as [r|] eqn:E.
  - destruct (addToSummary_Some _ _ _ E) as (pre & s & post & -> & Hn & Hpre & ->).
    destruct (in_dec _ _ _) as [i|n];
      [|exfalso; apply n; rewrite map_app; apply in_or_app; right; now left].
    split.
    + now rewrite Hnames.
    + intros s' Hs'. apply in_app_or in Hs'. simpl in Hs'.
      assert (Hother : forall t, In t (pre ++ s :: post) -> name t <> getCandidate vote ->
                totalVotes t = int_sum (countsFor (name t) (seen ++ [vote]))).
      { intros t Ht Hne. rewrite countsFor_other by assumption. now apply Htot. }
      destruct Hs' as [Hs'|[Hs'|Hs']].
      * apply Hother; [apply in_or_app; now left|].
        intros F. apply Hpre. rewrite <- F. now apply in_map.
      * subst s'. simpl. rewrite Hn, countsFor_same, int_sum_snoc. f_equal.
        rewrite <- Hn. apply Htot. apply in_or_app. right. now left.
      * apply Hother; [apply in_or_app; right; now right|].
        intros F. rewrite map_app in Hnd. simpl in Hnd.
        apply NoDup_remove_2 in Hnd. apply Hnd. rewrite Hn, <- F.
        apply in_or_app. right. now apply in_map.
    + intros s' Hs'.
      assert (Hin : In (name s') (map name (pre ++ s :: post))).
      { rewrite <- Hnames. now apply in_map. }
      apply in_map_iff in Hin. destruct Hin as (t & Ht & Hin).
      destruct (Hnam t Hin) as (v & Hv & Hc).
      exists v. split; [apply in_or_app; now left | congruence].
    + intros v Hv. rewrite Hnames. apply in_app_or in Hv. destruct Hv as [Hv|[<-|[]]].
      * now apply Hall.
      * assumption.
  - assert (Hnew := proj1 (addToSummary_None _ _) E).
    destruct (in_dec _ _ _) as [i|n]; [contradiction|].
    split.
    + rewrite Hnames. apply NoDup_app_remove_l with (l := []). simpl.
      apply Permutation_NoDup with (l := getCandidate vote :: map name summaries).
      * apply Permutation_cons_append.
      * now constructor.
    + intros s Hs. apply in_app_or in Hs. destruct Hs as [Hs|[<-|[]]].
      * rewrite countsFor_other; [now apply Htot|].
        intros F. apply Hnew. rewrite <- F. now apply in_map.
      * simpl. rewrite countsFor_same, int_sum_snoc.
        rewrite countsFor_unseen.
        -- unfold int_sum. simpl. unfold int_add. simpl. symmetry. now apply wrap_id.
        -- intros F. apply in_map_iff in F. destruct F as (v & Hv & Hin).
           apply Hnew. rewrite <- Hv. now apply Hall.
    + intros s Hs. apply in_app_or in Hs. destruct Hs as [Hs|[<-|[]]].
      * destruct (Hnam s Hs) as (v & Hv & Hc).
        exists v. split; [apply in_or_app; now left | assumption].
      * exists vote. split; [apply in_or_app; right; now left | reflexivity].
    + intros v Hv. rewrite Hnames. apply in_or_app.
      apply in_app_or in Hv. destruct Hv as [Hv|[<-|[]]].
      * left. now apply Hall.
      * right. now left.
Qed.

Lemma grouped_fold rest : forall seen summaries,
  votes_wf rest ->
  grouped seen summaries ->
  grouped (seen ++ rest) (fold_left tallyVote rest summaries).
Proof.
  induction rest as [|vote rest IH]; intros seen summaries Hwf Hg; simpl.
  - now rewrite app_nil_r.
  - inversion Hwf; subst.
    replace (seen ++ vote :: rest) with ((seen ++ [vote]) ++ rest)
      by (rewrite <- app_assoc; reflexivity).
    apply IH; [assumption|]. now apply grouped_step.
Qed.

Lemma groupByCandidate_grouped votes :
  votes_wf votes -> grouped votes (groupByCandidate votes).
Proof. intros H. apply (grouped_fold votes [] [] H grouped_nil). Qed.

(** Every record is counted for exactly one of the listed names. *)
Lemma Zsum_map_add {A} (f g : A -> Z) (l : list A) :
  Zsum (map (fun x => f x + g x) l) = Zsum (map f l) + Zsum (map g l).
Proof. induction l as [|x l IH]; simpl; lia. Qed.

Lemma Zsum_indicator (x : string) (k : Z) (names : list string) :
  NoDup names -> In x names ->
  Zsum (map (fun c => if String.eqb c x then k else 0) names) = k.
Proof.
  induction 1 as [|c names Hc Hnd IH]; simpl; intros Hin; [contradiction|].
  destruct (String.eqb_spec c x) as [E|E].
  - subst c. assert (H0 : Zsum (map (fun c => if String.eqb c x then k else 0) names) = 0).
    { clear IH Hin Hnd. induction names as [|d names IH]; simpl; [reflexivity|].
      destruct (String.eqb_spec d x) as [E|E].
      - exfalso. apply Hc. left. assumption.
      - rewrite IH; [reflexivity|]. intros F. apply Hc. now right. }
    lia.
  - destruct Hin as [Hin|Hin]; [contradiction|]. rewrite IH by assumption. lia.
Qed.

Lemma Zsum_countsFor_partition (names : list string) (votes : list Votes) :
  NoDup names ->
  (forall vote, In vote votes -> In (getCandidate vote) names) ->
  Zsum (map (fun c => Zsum (countsFor c votes)) names) = Zsum (map getVoteCount votes).
Proof.
  intros Hnd. induction votes as [|v votes IH]; intros Hall; simpl.
  - induction names as [|c names IHn]; simpl; [reflexivity|].
    inversion Hnd; subst. now rewrite IHn.
  - rewrite <- IH by (intros; apply Hall; now right).
    rewrite <- (Zsum_indicator (getCandidate v) (getVoteCount v) names Hnd)
      at 1 by (apply Hall; now left).
    rewrite <- Zsum_map_add. f_equal. apply map_ext. intros c.
    unfold countsFor. simpl. destruct (String.eqb c (getCandidate v)); reflexivity.
Qed.

Lemma wrap_Zsum_map {A} (f : A -> Z) (l : list A) :
  wrap (Zsum (map (fun x => wrap (f x)) l)) = wrap (Zsum (map f l)).
Proof.
  induction l as [|x l IH]; simpl; [reflexivity|].
  rewrite wrap_add_l, <- wrap_add_r, IH, wrap_add_r. reflexivity.
Qed.

Lemma count_le_countsFor votes vote :
  In vote votes ->
  Forall (fun vote => 0 <= getVoteCount vote) votes ->
  getVoteCount vote <= Zsum (countsFor (getCandidate vote) votes).
Proof.
  intros Hin Hpos. induction Hpos as [|v votes Hv Hvs IH]; [destruct Hin|].
  assert (H0 : 0 <= Zsum (countsFor (getCandidate vote) votes)).
  { apply Zsum_nonneg. unfold countsFor. rewrite Forall_map.
    rewrite Forall_forall in *. intros x Hx. apply Hvs.
    now apply filter_In in Hx. }
  unfold countsFor in *. cbn [filter]. destruct Hin as [->|Hin].
  - rewrite String.eqb_refl. simpl. lia.
  - specialize (IH Hin).
    destruct (String.eqb (getCandidate vote) (getCandidate v)); simpl; lia.
Qed.

Lemma Zsum_countsFor_bounds c votes :
  Forall (fun vote => 0 <= getVoteCount vote) votes ->
  Forall (fun x => 0 <= x) (countsFor c votes) /\
  Zsum (countsFor c votes) <= Zsum (map getVoteCount votes).
Proof.
  induction 1 as [|v votes Hv Hvs [IH1 IH2]]; simpl.
  - split; [constructor | reflexivity].
  - unfold countsFor in *. simpl.
    destruct (String.eqb c (getCandidate v)); simpl; split; try constructor; auto; lia.
Qed.

(* ================================================================== *)
(** ** The two sorting routines meet the contract *)

Lemma insert_summary_perm x l : Permutation (x :: l) (insert_summary x l).
Proof.
  induction l as [|y l IH]; simpl; [apply Permutation_refl|].
  destruct (summary_lt y x); [|apply Permutation_refl].
  eapply perm_trans; [apply perm_swap|]. now apply perm_skip.
Qed.

Lemma insert_summary_sorted x l :
  StronglySorted (fun a b => summary_lt b a = false) l ->
  StronglySorted (fun a b => summary_lt b a = false) (insert_summary x l).
Proof.
  induction 1 as [|y l Hs IH Hy]; simpl.
  - constructor; constructor.
  - destruct (summary_lt y x) eqn:E.
    + constructor; [assumption|].
      apply (Permutation_Forall (insert_summary_perm x l)).
      constructor; [|assumption].
      unfold summary_lt in *. apply Z.ltb_lt in E. apply Z.ltb_ge. lia.
    + constructor; [now constructor|].
      constructor; [assumption|].
      revert Hy. apply Forall_impl. intros z Hz.
      unfold summary_lt in *. apply Z.ltb_ge in E, Hz. apply Z.ltb_ge. lia.
Qed.

Lemma insertion_sort_contract : std_sort_contract insertion_sort.
Proof.
  split; intros l; unfold insertion_sort; induction l as [|x l IH]; simpl.
  - apply perm_nil.
  - eapply perm_trans; [apply perm_skip, IH | apply insert_summary_perm].
  - constructor.
  - now apply insert_summary_sorted.
Qed.

Lemma sample_votes_wf : votes_wf sample_votes.
Proof. repeat constructor; unfold INT_MIN, INT_MAX; simpl; lia. Qed.

(* ================================================================== *)
(** ** National results *)

Lemma showDataOverview_count votes : fst (showDataOverview votes) = List.length votes.
Proof. reflexivity. Qed.

Lemma showDataOverview_total votes :
  snd (showDataOverview votes) = int_sum (map getVoteCount votes).
Proof.
  unfold showDataOverview, int_sum. simpl. generalize 0.
  induction votes as [|v vs IH]; intros a; simpl; [reflexivity | apply IH].
Qed.

Section Aggregator.

Variable sort : list CandidateSummary -> list CandidateSummary.
Hypothesis sort_ok : std_sort_contract sort.

Lemma sorted_perm votes :
  Permutation (groupByCandidate votes) (getCandidateSummaries sort votes).
Proof. apply sort_ok. Qed.

Lemma summaries_grouped votes :
  votes_wf votes -> grouped votes (getCandidateSummaries sort votes).
Proof.
  intros Hwf. destruct (groupByCandidate_grouped votes Hwf) as [H1 H2 H3 H4].
  pose proof (sorted_perm votes) as Hp.
  split.
  - eapply Permutation_NoDup; [apply Permutation_map, Hp | assumption].
  - intros s Hs. apply H2. eapply Permutation_in; [symmetry; apply Hp | assumption].
  - intros s Hs. apply H3. eapply Permutation_in; [symmetry; apply Hp | assumption].
  - intros v Hv. eapply Permutation_in; [apply Permutation_map, Hp | now apply H4].
Qed.

(** In the program's own arithmetic: for every list of records whose counts
    are [int]s, the totals of the national results add up, as an [int] sum,
    to the total the overview reports; the results list every candidate of
    the input once; each candidate's total is the [int] sum of the counts of
    exactly the records that carry the candidate's name. *)
Lemma national_totals_wrapping (votes : list Votes) :
  votes_wf votes ->
  let results := getCandidateSummaries sort votes in
  int_sum (map totalVotes results) = snd (showDataOverview votes)
  /\ NoDup (map name results)
  /\ (forall vote, In vote votes -> In (getCandidate vote) (map name results))
  /\ (forall s, In s results ->
        totalVotes s = int_sum (countsFor (name s) votes)
        /\ exists vote, In vote votes /\ getCandidate vote = name s)
  /\ (Forall (fun vote => 0 <= getVoteCount vote) votes ->
      Zsum (map getVoteCount votes) <= INT_MAX ->
      Zsum (map totalVotes results) = Zsum (map getVoteCount votes)
      /\ snd (showDataOverview votes) = Zsum (map getVoteCount votes)
      /\ forall s, In s results -> totalVotes s = Zsum (countsFor (name s) votes)).
Proof.
  intros Hwf results.
  destruct (summaries_grouped votes Hwf) as [Hnd Htot Hnam Hall].
  fold results in Hnd, Htot, Hnam, Hall.
  pose proof (showDataOverview_total votes) as Hover.
  assert (Htotals : map totalVotes results =
                    map (fun c => wrap (Zsum (countsFor c votes))) (map name results)).
  { rewrite map_map. apply map_ext_in. intros s Hs.
    rewrite <- int_sum_wrap. now apply Htot. }
  split; [|split; [|split; [|split; [|intros H Hmax; split; [|split]]]]].
  - rewrite Hover, !int_sum_wrap, Htotals, wrap_Zsum_map.
    now rewrite Zsum_countsFor_partition.
  - assumption.
  - assumption.
  - intros s Hs. split; [now apply Htot | now apply Hnam].
  - rewrite <- (Zsum_countsFor_partition (map name results) votes Hnd Hall), Htotals.
    f_equal. apply map_ext. intros c. apply wrap_id.
    destruct (Zsum_countsFor_bounds c votes H) as [B1 B2].
    pose proof (Zsum_nonneg _ B1). unfold in_range, INT_MIN. lia.
  - rewrite Hover. apply int_sum_exact; [|assumption].
    clear -H. induction H; simpl; constructor; auto.
  - intros s Hs. rewrite (Htot s Hs).
    destruct (Zsum_countsFor_bounds (name s) votes H) as [B1 B2].
    apply int_sum_exact; [assumption | lia].
Qed.

(** C1 (as amended).  For every list of records with non-negative counts in
    which no candidate's counts add up to more than [INT_MAX], the totals
    of the national results add up to the sum of the counts of all
    records, every candidate of the input is listed once, and each
    candidate's total is exactly the sum of the counts of the records that
    carry the candidate's name; the overview total is that same sum when it
    fits an [int].  All sums are mathematical sums. *)
Theorem national_totals_without_overflow (votes : list Votes) :
  Forall (fun vote => 0 <= getVoteCount vote) votes ->
  (forall candidate, Zsum (countsFor candidate votes) <= INT_MAX) ->
  let results := getCandidateSummaries sort votes in
  Zsum (map totalVotes results) = Zsum (map getVoteCount votes)
  /\ NoDup (map name results)
  /\ (forall vote, In vote votes -> In (getCandidate vote) (map name results))
  /\ (forall s, In s results ->
        totalVotes s = Zsum (countsFor (name s) votes)
        /\ exists vote, In vote votes /\ getCandidate vote = name s)
  /\ (Zsum (map getVoteCount votes) <= INT_MAX ->
      snd (showDataOverview votes) = Zsum (map getVoteCount votes)).
Proof.
  intros Hpos Hmax results.
  assert (Hwf : votes_wf votes).
  { unfold votes_wf. rewrite Forall_forall in *. intros vote Hin.
    pose proof (Hpos vote Hin) as H0.
    pose proof (count_le_countsFor votes vote Hin
                  (proj2 (Forall_forall _ votes) Hpos)) as H1.
    specialize (Hmax (getCandidate vote)).
    unfold in_range, INT_MIN. lia. }
  destruct (summaries_grouped votes Hwf) as [Hnd Htot Hnam Hall].
  fold results in Hnd, Htot, Hnam, Hall.
  assert (Hexact : forall s, In s results ->
                     totalVotes s = Zsum (countsFor (name s) votes)).
  { intros s Hs. rewrite (Htot s Hs).
    apply int_sum_exact; [apply (Zsum_countsFor_bounds _ _ Hpos) | apply Hmax]. }
  split; [|split; [|split; [|split]]].
  - rewrite <- (Zsum_countsFor_partition (map name results) votes Hnd Hall).
    rewrite map_map. f_equal. apply map_ext_in. exact Hexact.
  - assumption.
  - assumption.
  - intros s Hs. split; [now apply Hexact | now apply Hnam].
  - intros Hsum. rewrite showDataOverview_total.
    apply int_sum_exact; [|assumption].
    clear -Hpos. induction Hpos; simpl; constructor; auto.
Qed.

End Aggregator.

Lemma national_totals_without_overflow_witness :
  Zsum (map totalVotes (getCandidateSummaries insertion_sort sample_votes))
  = Zsum (map getVoteCount sample_votes).
Proof.
  assert (Hpos : Forall (fun vote => 0 <= getVoteCount vote) sample_votes)
    by (repeat constructor; simpl; lia).
  refine (proj1 (national_totals_without_overflow insertion_sort
                   insertion_sort_contract sample_votes Hpos _)).
  intros candidate.
  pose proof (proj2 (Zsum_countsFor_bounds candidate sample_votes Hpos)) as H.
  simpl in H. unfold INT_MAX. lia.
Defined.

(** C1 as stated fails: the totals are [int]s.  Two records of candidate A
    with counts 2147483647 and 1 give A the total -2147483648, not
    2147483648, whatever the sort routine; the totals then add up to
    -2147483641 where the counts add up to 2147483655. *)
Lemma national_totals_overflow_counterexample :
  votes_wf wrapped_votes
  /\ getCandidateSummaries sort_summaries wrapped_votes
     = [ mkSummary "B" "PartyY" 7; mkSummary "A" "PartyX" (-2147483648) ]
  /\ Zsum (countsFor "A" wrapped_votes) = 2147483648
  /\ Zsum (map getVoteCount wrapped_votes) = 2147483655
  /\ (forall sort, std_sort_contract sort ->
        In (mkSummary "A" "PartyX" (-2147483648))
           (getCandidateSummaries sort wrapped_votes)
        /\ Zsum (map totalVotes (getCandidateSummaries sort wrapped_votes))
           = -2147483641).
Proof.
  split; [|split; [|split; [|split]]].
  - repeat constructor; unfold INT_MIN, INT_MAX; simpl; lia.
  - vm_compute. reflexivity.
  - reflexivity.
  - reflexivity.
  - intros sort [Hp _].
    pose proof (Hp (groupByCandidate wrapped_votes)) as H.
    fold (getCandidateSummaries sort wrapped_votes) in H.
    split.
    + apply (Permutation_in _ H). vm_compute. tauto.
    + rewrite <- (Zsum_Permutation _ _ (Permutation_map totalVotes H)).
      vm_compute. reflexivity.
Qed.

(* ================================================================== *)
(** ** Order of the results *)

Lemma firstSeen_fold votes : forall summaries,
  map name (fold_left tallyVote votes summaries) =
  fold_left (fun seen c => if in_dec string_dec c seen then seen else seen ++ [c])
    (map getCandidate votes) (map name summaries).
Proof.
  induction votes as [|v votes IH]; intros summaries; simpl; [reflexivity|].
  rewrite IH, tallyVote_names. reflexivity.
Qed.

(** The grouping loop lists the candidates in the order they are first met. *)
Lemma groupByCandidate_names votes :
  map name (groupByCandidate votes) = firstSeen (map getCandidate votes).
Proof. apply (firstSeen_fold votes []). Qed.

Lemma StronglySorted_weaken {A} (R R' : A -> A -> Prop) (l : list A) :
  (forall a b, R a b -> R' a b) -> StronglySorted R l -> StronglySorted R' l.
Proof.
  intros HR. induction 1 as [|x l Hs IH Hx]; constructor; [assumption|].
  revert Hx. apply Forall_impl. intros y. apply HR.
Qed.

(* ================================================================== *)
(** ** State results *)

Lemma groupInState_fold votes state : forall summaries,
  fold_left
    (fun stateSummaries vote =>
       if String.eqb (getState vote) state
       then tallyVote stateSummaries vote else stateSummaries)
    votes summaries
  = fold_left tallyVote (recordsOf state votes) summaries.
Proof.
  induction votes as [|v votes IH]; intros summaries; simpl; [reflexivity|].
  destruct (String.eqb (getState v) state); simpl; apply IH.
Qed.

Lemma stateSummaries_recordsOf
  (sort : list CandidateSummary -> list CandidateSummary)
  (votes : list Votes) (state : string) :
  stateSummaries sort votes state = getCandidateSummaries sort (recordsOf state votes).
Proof.
  unfold stateSummaries, getCandidateSummaries, groupByCandidateInState,
    groupByCandidate.
  now rewrite groupInState_fold.
Qed.

Lemma showStateResults_summaries
  (sort : list CandidateSummary -> list CandidateSummary)
  (votes : list Votes) (stateInput : string) :
  sortedSummaries (showStateResults sort votes stateInput)
  = getCandidateSummaries sort (recordsOf (toUpper stateInput) votes).
Proof.
  unfold showStateResults. cbn [sortedSummaries].
  apply stateSummaries_recordsOf.
Qed.

(** A printed row is a summary of the vector with the bar count of line
    226, which is not negative. *)
Lemma printChart_rows (summaries : list CandidateSummary) (row : CandidateSummary * Z) :
  In row (fst (printChart summaries)) ->
  In (fst row) summaries
  /\ snd row = bars (totalVotes (fst row))
  /\ 0 <= snd row.
Proof.
  induction summaries as [|s l IH]; cbn [printChart]; [intros []|].
  destruct (Z.ltb_spec (bars (totalVotes s)) 0) as [Hneg|Hpos]; [intros []|].
  destruct (printChart l) as [rows thrown]. cbn [fst] in *. intros [<-|Hin].
  - cbn [fst snd]. repeat split; [now left | assumption].
  - destruct (IH Hin) as (H1 & H2 & H3). repeat split; [now right | assumption..].
Qed.

(** The loop prints the rows in the order of the vector, up to the end or
    up to the first summary whose bar count is negative. *)
Lemma printChart_outcome (summaries : list CandidateSummary) :
  match snd (printChart summaries) with
  | None => map fst (fst (printChart summaries)) = summaries
  | Some s =>
      bars (totalVotes s) < 0
      /\ exists rest, summaries = map fst (fst (printChart summaries)) ++ s :: rest
  end.
Proof.
  induction summaries as [|s l IH]; cbn [printChart]; [reflexivity|].
  destruct (Z.ltb_spec (bars (totalVotes s)) 0) as [Hneg|Hpos].
  - cbn [fst snd map app]. split; [assumption | now exists l].
  - destruct (printChart l) as [rows [t|]]; cbn [fst snd map] in *.
    + destruct IH as [Ht [rest ->]]. split; [assumption | now exists rest].
    + now rewrite IH.
Qed.

(** C7.  For every jurisdiction [J], the summaries that the grouping loop
    of the state results builds and sorts are those of
    [getCandidateSummaries] on the records whose jurisdiction is [J]; the
    operation itself runs the loop with the upper-cased input. *)
Theorem state_results_refine_aggregate
  (sort : list CandidateSummary -> list CandidateSummary)
  (votes : list Votes) (J : string) :
  stateSummaries sort votes J = getCandidateSummaries sort (recordsOf J votes)
  /\ sortedSummaries (showStateResults sort votes J)
     = getCandidateSummaries sort (recordsOf (toUpper J) votes).
Proof.
  split; [apply stateSummaries_recordsOf | apply showStateResults_summaries].
Qed.

Lemma toupper_idem (c : ascii) : toupper (toupper c) = toupper c.
Proof.
  destruct c as [[] [] [] [] [] [] [] []]; reflexivity.
Qed.

Lemma toUpper_idem (s : string) : toUpper (toUpper s) = toUpper s.
Proof.
  induction s as [|c s IH]; simpl; [reflexivity|].
  now rewrite toupper_idem, IH.
Qed.

(** C3 (as amended).  The state results include exactly the records whose
    stored jurisdiction equals the upper-cased input, character for
    character: letter case is ignored in the input only.  Two inputs that
    differ in case give the same results, and when every stored
    jurisdiction is in upper case the included records are those that
    match the input case-insensitively. *)
Theorem state_results_filter
  (sort : list CandidateSummary -> list CandidateSummary)
  (votes : list Votes) (stateInput : string) :
  sortedSummaries (showStateResults sort votes stateInput)
  = getCandidateSummaries sort (recordsOf (toUpper stateInput) votes)
  /\ (forall vote, In vote (recordsOf (toUpper stateInput) votes) <->
                   In vote votes /\ getState vote = toUpper stateInput)
  /\ (forall otherInput, toUpper otherInput = toUpper stateInput ->
        showStateResults sort votes otherInput = showStateResults sort votes stateInput)
  /\ ((forall vote, In vote votes -> toUpper (getState vote) = getState vote) ->
      recordsOf (toUpper stateInput) votes = recordsOfAnyCase stateInput votes).
Proof.
  split; [|split; [|split]].
  - apply showStateResults_summaries.
  - intros vote. unfold recordsOf. rewrite filter_In.
    now rewrite String.eqb_eq.
  - intros otherInput E. unfold showStateResults. now rewrite E.
  - intros Hup. unfold recordsOf, recordsOfAnyCase. apply filter_ext_in.
    intros vote Hin. now rewrite Hup.
Qed.

(** C3 as stated fails: a record stored as ["Ohio"] equals the input
    ["ohio"] when case is ignored, yet it is not included. *)
Lemma state_filter_case_counterexample :
  recordsOfAnyCase "ohio" mixed_case_votes = mixed_case_votes
  /\ getCandidateSummaries insertion_sort (recordsOfAnyCase "ohio" mixed_case_votes)
     = [mkSummary "A" "PartyX" 100]
  /\ showStateResults insertion_sort mixed_case_votes "ohio"
     = mkStateResults [] [] None
  /\ showStateResults insertion_sort mixed_case_votes "OHIO"
     = mkStateResults [] [] None.
Proof. repeat split. Qed.

(* ================================================================== *)
(** ** The state table *)

Lemma STATES_length : List.length STATES = NUM_STATES.
Proof. reflexivity. Qed.

Lemma STATES_firstn : firstn NUM_STATES STATES = STATES.
Proof. reflexivity. Qed.

Lemma STATES_NoDup : NoDup STATES.
Proof.
  apply (NoDup_count_occ' string_dec). intros x Hx.
  repeat (destruct Hx as [<-|Hx]; [reflexivity|]). destruct Hx.
Qed.

Lemma stateCounts_snoc state votes vote :
  stateCounts state (votes ++ [vote]) =
  if String.eqb (getState vote) state
  then stateCounts state votes ++ [getVoteCount vote]
  else stateCounts state votes.
Proof.
  unfold stateCounts. rewrite filter_app, map_app. simpl.
  destruct (String.eqb (getState vote) state); simpl;
    [reflexivity | apply app_nil_r].
Qed.

Lemma candidateCounts_snoc state candidate votes vote :
  candidateCounts state candidate (votes ++ [vote]) =
  if andb (String.eqb (getState vote) state) (String.eqb (getCandidate vote) candidate)
  then candidateCounts state candidate votes ++ [getVoteCount vote]
  else candidateCounts state candidate votes.
Proof.
  unfold candidateCounts. rewrite filter_app, map_app. simpl.
  destruct (andb _ _); simpl; [reflexivity | apply app_nil_r].
Qed.

Lemma tallyOf_other seen vote candidate state :
  getState vote <> state ->
  tallyOf (seen ++ [vote]) candidate state = tallyOf seen candidate state.
Proof.
  intros H. unfold tallyOf. rewrite stateCounts_snoc, candidateCounts_snoc.
  destruct (String.eqb_spec (getState vote) state); [contradiction | reflexivity].
Qed.

(** One pass of the inner loop over a duplicate-free list of states takes
    the rows of [seen] to the rows of [seen ++ [vote]]. *)
Lemma addToState_tallyOf (states : list string) seen vote candidate :
  NoDup states ->
  addToState states (map (tallyOf seen candidate) states) vote candidate
  = map (tallyOf (seen ++ [vote]) candidate) states.
Proof.
  induction 1 as [|state states Hnot Hnd IH]; [reflexivity|].
  cbn [map addToState].
  destruct (String.eqb_spec (getState vote) state) as [E|E].
  - apply (f_equal2 cons).
    + unfold tallyOf. rewrite stateCounts_snoc, candidateCounts_snoc.
      rewrite (proj2 (String.eqb_eq _ _) E). cbn [fst snd andb].
      destruct (String.eqb (getCandidate vote) candidate);
        now rewrite ?int_sum_snoc.
    + apply map_ext_in. intros st Hst. symmetry. apply tallyOf_other.
      intros F. apply Hnot. congruence.
  - apply (f_equal2 cons); [symmetry; now apply tallyOf_other | apply IH].
Qed.

(** The table after the tally loop, row by row. *)
Lemma buildStateResults_tallyOf votes candidate :
  buildStateResults votes candidate = map (tallyOf votes candidate) STATES.
Proof.
  unfold buildStateResults, initStateResults. rewrite STATES_firstn.
  change (map (fun state => (state, (0, 0))) STATES)
    with (map (tallyOf [] candidate) STATES).
  assert (H : forall rest seen,
            fold_left (fun stateResults vote =>
                         addToState STATES stateResults vote candidate)
              rest (map (tallyOf seen candidate) STATES)
            = map (tallyOf (seen ++ rest) candidate) STATES).
  { induction rest as [|vote rest IH]; intros seen; cbn [fold_left].
    - now rewrite app_nil_r.
    - rewrite (addToState_tallyOf STATES seen vote candidate STATES_NoDup), IH.
      now rewrite <- app_assoc. }
  apply (H votes []).
Qed.

Lemma stateCounts_none state votes :
  (forall vote, In vote votes -> getState vote <> state) ->
  stateCounts state votes = [] /\ forall c, candidateCounts state c votes = [].
Proof.
  induction votes as [|v votes IH]; intros H; simpl; [split; reflexivity|].
  destruct IH as [IH1 IH2]; [intros; apply H; now right|].
  assert (E : String.eqb (getState v) state = false).
  { apply String.eqb_neq, H. now left. }
  unfold stateCounts, candidateCounts in *. simpl. rewrite E. simpl.
  split; [assumption | exact IH2].
Qed.

Lemma stateCounts_drop state votes1 vote votes2 :
  getState vote <> state ->
  stateCounts state (votes1 ++ vote :: votes2) = stateCounts state (votes1 ++ votes2)
  /\ forall c, candidateCounts state c (votes1 ++ vote :: votes2)
               = candidateCounts state c (votes1 ++ votes2).
Proof.
  intros H. apply String.eqb_neq in H.
  unfold stateCounts, candidateCounts. split; [|intros c];
    rewrite !filter_app; simpl; rewrite H; reflexivity.
Qed.

Lemma rows_table votes candidateInput :
  map fst (rows (showCandidateResults votes candidateInput))
  = buildStateResults votes (candidateName (showCandidateResults votes candidateInput)).
Proof.
  unfold showCandidateResults. cbn [rows candidateName].
  rewrite map_map. cbn [fst]. apply map_id.
Qed.

(** C6.  The table has one row per entry of the 51-state enumeration, in
    its order; a row whose state matches no record's state field is
    [(0, 0)]; a record whose state field is no entry of the enumeration
    changes no row (it is dropped, and nothing fails).  The rows printed by
    the candidate results are this table. *)
Theorem state_table_unmatched (votes : list Votes) (candidate : string) :
  map fst (buildStateResults votes candidate) = STATES
  /\ List.length (buildStateResults votes candidate) = 51%nat
  /\ (forall state, In state STATES ->
        (forall vote, In vote votes -> getState vote <> state) ->
        In (state, (0, 0)) (buildStateResults votes candidate))
  /\ (forall votes1 vote votes2,
        votes = votes1 ++ vote :: votes2 ->
        ~ In (getState vote) STATES ->
        buildStateResults votes candidate = buildStateResults (votes1 ++ votes2) candidate)
  /\ (forall candidateInput,
        map fst (rows (showCandidateResults votes candidateInput))
        = buildStateResults votes (candidateName (showCandidateResults votes candidateInput))).
Proof.
  rewrite buildStateResults_tallyOf.
  split; [|split; [|split; [|split]]].
  - rewrite map_map. rewrite <- (map_id STATES) at 2. now apply map_ext.
  - now rewrite length_map.
  - intros state Hstate Hno. apply in_map_iff. exists state.
    split; [|assumption]. unfold tallyOf.
    destruct (stateCounts_none state votes Hno) as [-> H2]. now rewrite H2.
  - intros votes1 vote votes2 -> Hout. rewrite buildStateResults_tallyOf.
    apply map_ext_in. intros state Hstate. unfold tallyOf.
    assert (Hne : getState vote <> state) by (intros F; apply Hout; congruence).
    destruct (stateCounts_drop state votes1 vote votes2 Hne) as [-> H2].
    now rewrite H2.
  - intros candidateInput. apply rows_table.
Qed.

Lemma state_table_unmatched_witness :
  In ("TEXAS", (0, 0)) (buildStateResults sample_votes "A")
  /\ buildStateResults (mixed_case_votes ++ sample_votes) "A"
     = buildStateResults sample_votes "A".
Proof.
  pose proof (state_table_unmatched sample_votes "A") as (_ & _ & H0 & _).
  pose proof (state_table_unmatched (mixed_case_votes ++ sample_votes) "A")
    as (_ & _ & _ & Hdrop & _).
  split.
  - apply H0.
    + vm_compute. tauto.
    + intros vote [<-|[<-|[<-|[]]]]; discriminate.
  - apply (Hdrop [] (mkVotes "Ohio" "Cuyahoga" "A" "PartyX" 100) sample_votes eq_refl).
    vm_compute. intuition discriminate.
Defined.

Lemma counts_bounds state candidate votes :
  Forall (fun vote => 0 <= getVoteCount vote) votes ->
  Forall (fun x => 0 <= x) (candidateCounts state candidate votes)
  /\ Forall (fun x => 0 <= x) (stateCounts state votes)
  /\ Zsum (candidateCounts state candidate votes) <= Zsum (stateCounts state votes).
Proof.
  induction 1 as [|v votes Hv Hvs (IH1 & IH2 & IH3)]; simpl.
  - repeat split; try constructor. reflexivity.
  - unfold candidateCounts, stateCounts in *. simpl.
    destruct (String.eqb (getState v) state),
             (String.eqb (getCandidate v) candidate); simpl;
      repeat split; try constructor; auto; lia.
Qed.

(** C10 (as amended).  When all counts are non-negative, every row of the
    candidate results whose state has a vote sum that fits an [int]
    satisfies [0 <= candidateVotes <= totalVotes]; the two numbers are then
    the sums of the counts of the state's records for the candidate and of
    all the state's records. *)
Theorem tally_bounds (votes : list Votes) (candidateInput : string)
  (result : StateResult) :
  Forall (fun vote => 0 <= getVoteCount vote) votes ->
  In result (map fst (rows (showCandidateResults votes candidateInput))) ->
  Zsum (stateCounts (fst result) votes) <= INT_MAX ->
  0 <= fst (snd result) <= snd (snd result)
  /\ fst (snd result)
     = Zsum (candidateCounts (fst result)
               (candidateName (showCandidateResults votes candidateInput)) votes)
  /\ snd (snd result) = Zsum (stateCounts (fst result) votes).
Proof.
  intros Hpos Hin Hmax.
  rewrite rows_table, buildStateResults_tallyOf in Hin.
  apply in_map_iff in Hin. destruct Hin as (state & <- & _).
  unfold tallyOf in *. cbn [fst snd] in *.
  destruct (counts_bounds state
              (candidateName (showCandidateResults votes candidateInput))
              votes Hpos) as (B1 & B2 & B3).
  rewrite !int_sum_exact by (assumption || lia).
  pose proof (Zsum_nonneg _ B1). lia.
Qed.

Lemma tally_bounds_witness :
  In ("OHIO", (150, 180)) (map fst (rows (showCandidateResults sample_votes "a")))
  /\ 0 <= 150 <= 180.
Proof.
  assert (Hin : In ("OHIO", (150, 180))
                  (map fst (rows (showCandidateResults sample_votes "a"))))
    by (vm_compute; tauto).
  split; [exact Hin|].
  apply (tally_bounds sample_votes "a" ("OHIO", (150, 180))).
  - repeat constructor; simpl; lia.
  - exact Hin.
  - vm_compute. discriminate.
Defined.

(** C10 as stated fails once a state's counts overflow: with counts
    [INT_MAX] for the candidate and [1] for another, the state's total wraps
    to [INT_MIN], below the candidate's votes. *)
Lemma tally_bounds_counterexample :
  ~ (forall votes candidateInput result,
       Forall (fun vote => 0 <= getVoteCount vote) votes ->
       In result (map fst (rows (showCandidateResults votes candidateInput))) ->
       0 <= fst (snd result) <= snd (snd result)).
Proof.
  intros H.
  specialize (H overflow_votes "a" ("OHIO", (2147483647, -2147483648))).
  cbn [fst snd] in H.
  assert (F : 0 <= 2147483647 <= -2147483648); [|lia].
  apply H.
  - repeat constructor; simpl; lia.
  - vm_compute. tauto.
Qed.

(* ================================================================== *)
(** ** Substring search *)

Lemma string_app_assoc (a b c : string) : ((a ++ b) ++ c = a ++ (b ++ c))%string.
Proof. induction a as [|x a IH]; simpl; [reflexivity | now rewrite IH]. Qed.

Lemma string_app_nil_r (a : string) : (a ++ "" = a)%string.
Proof. induction a as [|x a IH]; simpl; [reflexivity | now rewrite IH]. Qed.

Lemma prefix_iff (t s : string) :
  prefix t s = true <-> exists post, s = (t ++ post)%string.
Proof.
  revert s. induction t as [|a t IH]; intros s.
  - destruct s; simpl; (split; [intros _; eexists; reflexivity | reflexivity]).
  - destruct s as [|b s]; simpl.
    + split; [discriminate | intros [post H]; discriminate].
    + destruct (ascii_dec a b) as [->|Hab].
      * rewrite IH. split; intros [post H]; exists post; congruence.
      * split; [discriminate | intros [post H]; congruence].
Qed.

Lemma string_find_unfold (s t : string) :
  string_find s t =
  if prefix t s then Some 0%nat
  else match s with
       | EmptyString => None
       | String _ s' => option_map S (string_find s' t)
       end.
Proof. destruct s; reflexivity. Qed.

(** [s.find(t) != npos] exactly when [t] occurs in [s]. *)
Lemma contains_iff (s t : string) :
  contains s t = true <-> exists pre post, s = (pre ++ t ++ post)%string.
Proof.
  unfold contains. induction s as [|c s IH]; rewrite string_find_unfold.
  - destruct (prefix t "") eqn:E.
    + split; [intros _ | reflexivity].
      apply prefix_iff in E. destruct E as [post E]. now exists "", post.
    + split; [discriminate|]. intros (pre & post & H).
      destruct pre; [|discriminate]. simpl in H.
      assert (P : prefix t "" = true) by (apply prefix_iff; now exists post).
      congruence.
  - destruct (prefix t (String c s)) eqn:E.
    + split; [intros _ | reflexivity].
      apply prefix_iff in E. destruct E as [post E]. now exists "", post.
    + destruct (string_find s t) as [n|]; cbn [option_map] in *.
      * split; [intros _ | reflexivity].
        destruct (proj1 IH eq_refl) as (pre & post & ->).
        now exists (String c pre), post.
      * split; [discriminate|]. intros (pre & post & H).
        destruct pre as [|d pre]; simpl in H.
        -- assert (P : prefix t (String c s) = true)
             by (apply prefix_iff; now exists post).
           congruence.
        -- inversion H; subst.
           assert (F : false = true); [|discriminate].
           apply IH. now exists pre, post.
Qed.


Lemma contains_refl (s : string) : contains s s = true.
Proof. apply contains_iff. exists "", "". simpl. now rewrite string_app_nil_r. Qed.

Lemma contains_trans (a b c : string) :
  contains a b = true -> contains b c = true -> contains a c = true.
Proof.
  rewrite !contains_iff. intros (p1 & q1 & ->) (p2 & q2 & ->).
  exists (p1 ++ p2)%string, (q2 ++ q1)%string.
  now rewrite !string_app_assoc.
Qed.

(* ================================================================== *)
(** ** Candidate resolution and searches *)

(** A resolved, non-empty name contains the search term. *)
Lemma findCandidate_contains votes candidateSearch :
  findCandidate votes candidateSearch <> "" ->
  contains (toUpper (findCandidate votes candidateSearch)) candidateSearch = true.
Proof.
  induction votes as [|v votes IH]; simpl; [congruence|].
  destruct (contains (toUpper (getCandidate v)) candidateSearch) eqn:E; auto.
Qed.


Lemma findCandidate_again votes candidateSearch :
  findCandidate votes candidateSearch <> "" ->
  findCandidate votes (toUpper (findCandidate votes candidateSearch))
  = findCandidate votes candidateSearch.
Proof.
  induction votes as [|v votes IH]; simpl; [congruence|].
  destruct (contains (toUpper (getCandidate v)) candidateSearch) eqn:E; intros Hne.
  - simpl. now rewrite contains_refl.
  - simpl.
    destruct (contains (toUpper (getCandidate v))
                (toUpper (findCandidate votes candidateSearch))) eqn:E2.
    + pose proof (contains_trans _ _ _ E2 (findCandidate_contains _ _ Hne)).
      congruence.
    + now apply IH.
Qed.

(** C9.  Candidate resolution is idempotent: when a search term resolves
    to a non-empty name, searching with that name resolves to it again. *)
Theorem candidate_resolution_idempotent (votes : list Votes) (searchTerm : string) :
  candidateName (showCandidateResults votes searchTerm) <> "" ->
  candidateName
    (showCandidateResults votes (candidateName (showCandidateResults votes searchTerm)))
  = candidateName (showCandidateResults votes searchTerm).
Proof.
  unfold showCandidateResults. cbn [candidateName].
  apply findCandidate_again.
Qed.

Lemma candidate_resolution_idempotent_witness :
  candidateName (showCandidateResults sample_votes "a") = "A"
  /\ candidateName (showCandidateResults sample_votes "A") = "A".
Proof.
  split; [reflexivity|].
  apply (candidate_resolution_idempotent sample_votes "a"). discriminate.
Defined.

Lemma filter_none {A} (p : A -> bool) (l : list A) :
  (forall x, In x l -> p x = false) -> filter p l = [].
Proof.
  induction l as [|x l IH]; simpl; intros H; [reflexivity|].
  rewrite (H x) by now left. apply IH. intros; apply H; now right.
Qed.

Lemma filter_all {A} (p : A -> bool) (l : list A) :
  (forall x, In x l -> p x = true) -> filter p l = l.
Proof.
  induction l as [|x l IH]; simpl; intros H; [reflexivity|].
  rewrite (H x) by now left. f_equal. apply IH. intros; apply H; now right.
Qed.




(* ================================================================== *)
(** ** Order of [double] values *)

Ltac split_compare :=
  repeat match goal with
  | H : context [Pos.compare_cont Eq ?a ?b] |- _ =>
      change (Pos.compare_cont Eq a b) with (Pos.compare a b) in H
  | |- context [Pos.compare_cont Eq ?a ?b] =>
      change (Pos.compare_cont Eq a b) with (Pos.compare a b)
  | H : context [Z.compare ?a ?b] |- _ => destruct (Z.compare_spec a b)
  | |- context [Z.compare ?a ?b] => destruct (Z.compare_spec a b)
  | H : context [Pos.compare ?a ?b] |- _ => destruct (Pos.compare_spec a b)
  | |- context [Pos.compare ?a ?b] => destruct (Pos.compare_spec a b)
  end.

Lemma SFltb_trans a b c : SFltb a b = true -> SFltb b c = true -> SFltb a c = true.
Proof.
  unfold SFltb, SFcompare.
  destruct a as [[]|[]| |[] ma ea], b as [[]|[]| |[] mb eb], c as [[]|[]| |[] mc ec];
    try discriminate; try reflexivity; intros H1 H2;
    split_compare; simpl in *; try discriminate; try reflexivity; exfalso; lia.
Qed.

Lemma SFltb_leb_trans a b c :
  SFltb a b = true -> SFleb b c = true -> SFltb a c = true.
Proof.
  unfold SFltb, SFleb, SFcompare.
  destruct a as [[]|[]| |[] ma ea], b as [[]|[]| |[] mb eb], c as [[]|[]| |[] mc ec];
    try discriminate; try reflexivity; intros H1 H2;
    split_compare; simpl in *; try discriminate; try reflexivity; exfalso; lia.
Qed.

Lemma SFltb_irrefl a : SFltb a a = false.
Proof.
  unfold SFltb, SFcompare.
  destruct a as [[]|[]| |[] ma ea]; try reflexivity;
    change (Pos.compare_cont Eq ma ma) with (Pos.compare ma ma);
    rewrite Z.compare_refl, Pos.compare_refl; reflexivity.
Qed.

Lemma SFltb_not_leb a b : SFltb a b = true -> SFleb b a = false.
Proof.
  intros H. destruct (SFleb b a) eqn:E; [|reflexivity].
  pose proof (SFltb_leb_trans _ _ _ H E) as F. now rewrite SFltb_irrefl in F.
Qed.

Lemma SFltb_asym a b : SFltb a b = true -> SFltb b a = false.
Proof.
  intros H. destruct (SFltb b a) eqn:E; [|reflexivity].
  pose proof (SFltb_trans _ _ _ H E) as F. now rewrite SFltb_irrefl in F.
Qed.

(* ================================================================== *)
(** ** The best state *)

Lemma bestOf_snoc stateResults result best0 :
  fold_left bestStep (stateResults ++ [result]) best0
  = bestStep (fold_left bestStep stateResults best0) result.
Proof. now rewrite fold_left_app. Qed.

(** The loop of lines 265-283 started from [(best0, state0)]: either no row
    with votes beats [best0] and nothing changes, or the result is the
    first row, among those with votes, that no such row beats. *)
Lemma bestOf_fold (stateResults : list StateResult)
  (best0 : Double.double) (state0 : string) :
  (fold_left bestStep stateResults (best0, state0) = (best0, state0)
   /\ forall x, In x stateResults -> 0 < snd (snd x) ->
        Double.gt (percentageOf x) best0 = false)
  \/ (exists pre r post,
        stateResults = pre ++ r :: post
        /\ fold_left bestStep stateResults (best0, state0) = (percentageOf r, fst r)
        /\ 0 < snd (snd r)
        /\ Double.gt (percentageOf r) best0 = true
        /\ (forall x, In x pre -> 0 < snd (snd x) ->
              Double.ge (percentageOf x) (percentageOf r) = false)
        /\ (forall x, In x stateResults -> 0 < snd (snd x) ->
              Double.gt (percentageOf x) (percentageOf r) = false)).
Proof.
  induction stateResults as [|y l IH] using rev_ind.
  - left. split; [reflexivity | intros x []].
  - rewrite bestOf_snoc. unfold bestStep at 1 3.
    destruct (0 <? snd (snd y)) eqn:Ey.
    2:{ apply Z.ltb_ge in Ey.
        destruct IH as [[E H]|(pre & r & post & -> & E & Hr & Hgt & Hpre & Hall)].
        - left. split; [assumption|]. intros x Hx Hpos.
          apply in_app_or in Hx. destruct Hx as [Hx|[<-|[]]]; [auto | lia].
        - right. exists pre, r, (post ++ [y]).
          split; [now rewrite <- app_assoc|]. repeat split; auto.
          intros x Hx Hpos. apply in_app_or in Hx.
          destruct Hx as [Hx|[<-|[]]]; [auto | lia]. }
    apply Z.ltb_lt in Ey.
    destruct (Double.gt (percentageOf y) (fst (fold_left bestStep l (best0, state0))))
      eqn:Eg.
    + right. exists l, y, []. split; [reflexivity|]. split; [reflexivity|].
      split; [assumption|].
      destruct IH as [[E H]|(pre & r & post & -> & E & Hr & Hgt & Hpre & Hall)];
        rewrite E in Eg; cbn [fst] in Eg; unfold Double.gt, Double.ge in *.
      * split; [assumption|]. split.
        -- intros x Hx Hpos. destruct (SFleb (percentageOf y) (percentageOf x)) eqn:F;
             [|reflexivity].
           pose proof (SFltb_leb_trans _ _ _ Eg F) as G.
           now rewrite (H x Hx Hpos) in G.
        -- intros x Hx Hpos. apply in_app_or in Hx. destruct Hx as [Hx|[<-|[]]];
             [|apply SFltb_irrefl].
           destruct (SFltb (percentageOf y) (percentageOf x)) eqn:F; [|reflexivity].
           pose proof (SFltb_trans _ _ _ Eg F) as G.
           now rewrite (H x Hx Hpos) in G.
      * split; [now apply SFltb_trans with (percentageOf r)|]. split.
        -- intros x Hx Hpos. destruct (SFleb (percentageOf y) (percentageOf x)) eqn:F;
             [|reflexivity].
           pose proof (SFltb_leb_trans _ _ _ Eg F) as G.
           now rewrite (Hall x Hx Hpos) in G.
        -- intros x Hx Hpos. apply in_app_or in Hx. destruct Hx as [Hx|[<-|[]]];
             [|apply SFltb_irrefl].
           destruct (SFltb (percentageOf y) (percentageOf x)) eqn:F; [|reflexivity].
           pose proof (SFltb_trans _ _ _ Eg F) as G.
           now rewrite (Hall x Hx Hpos) in G.
    + destruct IH as [[E H]|(pre & r & post & -> & E & Hr & Hgt & Hpre & Hall)];
        rewrite E in Eg |- *; cbn [fst] in Eg.
      * left. split; [reflexivity|]. intros x Hx Hpos.
        apply in_app_or in Hx. destruct Hx as [Hx|[<-|[]]]; auto.
      * right. exists pre, r, (post ++ [y]).
        split; [now rewrite <- app_assoc|]. repeat split; auto.
        intros x Hx Hpos. apply in_app_or in Hx.
        destruct Hx as [Hx|[<-|[]]]; auto.
Qed.

Lemma percentageOf_no_votes (x : StateResult) :
  ~ 0 < snd (snd x) -> percentageOf x = Double.zero.
Proof.
  intros H. unfold percentageOf.
  destruct (Z.ltb_spec 0 (snd (snd x))); [contradiction | reflexivity].
Qed.

(** [bestOf], with the rows without votes (whose percentage is [0.0])
    taken into account. *)
Lemma bestOf_spec (stateResults : list StateResult) :
  (bestOf stateResults = (Double.zero, "")
   /\ forall x, In x stateResults -> Double.gt (percentageOf x) Double.zero = false)
  \/ (exists pre r post,
        stateResults = pre ++ r :: post
        /\ bestOf stateResults = (percentageOf r, fst r)
        /\ 0 < snd (snd r)
        /\ Double.gt (percentageOf r) Double.zero = true
        /\ (forall x, In x pre ->
              Double.ge (percentageOf x) (percentageOf r) = false)
        /\ (forall x, In x stateResults ->
              Double.gt (percentageOf x) (percentageOf r) = false)).
Proof.
  unfold bestOf.
  destruct (bestOf_fold stateResults Double.zero "")
    as [[E H]|(pre & r & post & Hl & E & Hr & Hgt & Hpre & Hall)].
  - left. split; [assumption|]. intros x Hx.
    destruct (Z.lt_decidable 0 (snd (snd x))) as [P|P]; [auto|].
    now rewrite percentageOf_no_votes.
  - right. exists pre, r, post. repeat split; auto.
    + intros x Hx. destruct (Z.lt_decidable 0 (snd (snd x))) as [P|P]; [auto|].
      rewrite (percentageOf_no_votes x P). now apply SFltb_not_leb.
    + intros x Hx. destruct (Z.lt_decidable 0 (snd (snd x))) as [P|P]; [auto|].
      rewrite (percentageOf_no_votes x P). now apply SFltb_asym.
Qed.

(** C4 (as amended).  Each row's percentage is the [double]
    [100.0 * candidateVotes / totalVotes] when [totalVotes > 0] and [0.0]
    otherwise.  When some row's percentage is greater than [0.0], the best
    state is the earliest row that no row exceeds: no row has a greater
    percentage and no earlier row has a percentage greater than or equal to
    it.  When no row's percentage is greater than [0.0], the best state is
    the empty string and the best percentage is [0.0]. *)
Theorem best_state_earliest_maximum (votes : list Votes) (candidateInput : string) :
  let res := showCandidateResults votes candidateInput in
  (forall row, In row (rows res) ->
     snd row =
     if 0 <? snd (snd (fst row))
     then Double.div
            (Double.mul (Double.of_int 100) (Double.of_int (fst (snd (fst row)))))
            (Double.of_int (snd (snd (fst row))))
     else Double.zero)
  /\ ((bestState res = "" /\ bestPercentage res = Double.zero
       /\ forall row, In row (rows res) -> Double.gt (snd row) Double.zero = false)
      \/ (exists pre row post,
            rows res = pre ++ row :: post
            /\ bestState res = fst (fst row)
            /\ bestPercentage res = snd row
            /\ 0 < snd (snd (fst row))
            /\ Double.gt (snd row) Double.zero = true
            /\ (forall x, In x pre -> Double.ge (snd x) (snd row) = false)
            /\ (forall x, In x (rows res) -> Double.gt (snd x) (snd row) = false))).
Proof.
  intros res. unfold res, showCandidateResults.
  cbn [rows bestState bestPercentage].
  set (stateResults := buildStateResults votes _).
  assert (Hrow : forall row,
            In row (map (fun result => (result, percentageOf result)) stateResults) ->
            In (fst row) stateResults /\ snd row = percentageOf (fst row)).
  { intros row Hin. apply in_map_iff in Hin. destruct Hin as (x & <- & Hx). auto. }
  split.
  - intros row Hin. now destruct (Hrow row Hin) as [_ ->].
  - destruct (bestOf_spec stateResults)
      as [[E H]|(pre & r & post & Hl & E & Hr & Hgt & Hpre & Hall)]; rewrite E.
    + left. repeat split. intros row Hin.
      destruct (Hrow row Hin) as [Hx ->]. auto.
    + right.
      exists (map (fun result => (result, percentageOf result)) pre),
             (r, percentageOf r),
             (map (fun result => (result, percentageOf result)) post).
      split; [now rewrite Hl, map_app|]. cbn [fst snd].
      split; [reflexivity|]. split; [reflexivity|].
      split; [assumption|]. split; [assumption|]. split.
      * intros x Hin. apply in_map_iff in Hin. destruct Hin as (y & <- & Hy).
        cbn [snd]. auto.
      * intros x Hin. destruct (Hrow x Hin) as [Hx ->]. auto.
Qed.

(** C4 as stated fails: the records below give [OHIO] a positive total, yet
    for a candidate without votes every percentage is [0.0] and the best
    state is the empty string, which is no entry of the enumeration. *)
Lemma best_state_counterexample :
  (exists row, In row (rows (showCandidateResults sample_votes "xyz123"))
               /\ 0 < snd (snd (fst row)))
  /\ bestState (showCandidateResults sample_votes "xyz123") = ""
  /\ ~ In (bestState (showCandidateResults sample_votes "xyz123"))
          (map (fun row => fst (fst row))
               (rows (showCandidateResults sample_votes "xyz123"))).
Proof.
  split; [|split].
  - exists (("OHIO", (0, 180)), Double.zero). split; [vm_compute; tauto | reflexivity].
  - reflexivity.
  - vm_compute. intuition discriminate.
Qed.

(* ================================================================== *)
(** ** The bar count: [round(totalVotes / 150000.0)] in binary64 *)

Lemma digits2_pos_size (q : positive) : digits2_pos q = Pos.size q.
Proof. induction q; simpl; congruence. Qed.

Lemma Zdigits2_log2 (q : positive) : Zdigits2 (Zpos q) = Z.log2 (Zpos q) + 1.
Proof.
  unfold Zdigits2. rewrite digits2_pos_size.
  destruct q; simpl; rewrite ?Pos.add_1_r; reflexivity.
Qed.

Lemma Zdigits2_unique (q : positive) (d : Z) :
  2 ^ (d - 1) <= Zpos q < 2 ^ d -> 1 <= d -> Zdigits2 (Zpos q) = d.
Proof.
  intros H Hd. rewrite Zdigits2_log2.
  rewrite (Z.log2_unique (Zpos q) (d - 1)); [lia | lia |].
  now replace (Z.succ (d - 1)) with d by lia.
Qed.

Lemma Zdigits2_bounds (q : positive) :
  2 ^ (Zdigits2 (Zpos q) - 1) <= Zpos q < 2 ^ Zdigits2 (Zpos q)
  /\ 1 <= Zdigits2 (Zpos q).
Proof.
  rewrite Zdigits2_log2.
  pose proof (Z.log2_spec (Zpos q) eq_refl) as H.
  pose proof (Z.log2_nonneg (Zpos q)).
  replace (Z.log2 (Zpos q) + 1 - 1) with (Z.log2 (Zpos q)) by lia.
  replace (Z.log2 (Zpos q) + 1) with (Z.succ (Z.log2 (Zpos q))) by lia.
  split; [assumption | lia].
Qed.

Lemma shr_1_nonneg (m : Z) (r s : bool) :
  0 <= m ->
  shr_1 (Build_shr_record m r s) = Build_shr_record (Z.div2 m) (Z.odd m) (r || s).
Proof. destruct m as [|[p|p|]|p]; simpl; intros H; try reflexivity; lia. Qed.

Lemma loc_of_shr_record_of_loc m l : loc_of_shr_record (shr_record_of_loc m l) = l.
Proof. destruct l as [|[]]; reflexivity. Qed.

Lemma shr_m_of_loc m l : shr_m (shr_record_of_loc m l) = m.
Proof. destruct l as [|[]]; reflexivity. Qed.

Lemma shr_fexp_53 (q : positive) (e : Z) (l : location) :
  Zdigits2 (Zpos q) = 53 -> -1074 <= e ->
  shr_fexp 53 1024 (Zpos q) e l = (shr_record_of_loc (Zpos q) l, e).
Proof.
  intros Hd He. unfold shr_fexp. rewrite Hd. unfold fexp, emin.
  replace (Z.max (53 + e - 53) (3 - 1024 - 53) - e) with 0 by lia.
  reflexivity.
Qed.

Lemma shr_fexp_54 (q : positive) (e : Z) (l : location) :
  Zdigits2 (Zpos q) = 54 -> -1075 <= e ->
  shr_fexp 53 1024 (Zpos q) e l = (shr_1 (shr_record_of_loc (Zpos q) l), e + 1).
Proof.
  intros Hd He. unfold shr_fexp. rewrite Hd. unfold fexp, emin.
  replace (Z.max (54 + e - 53) (3 - 1024 - 53) - e) with 1 by lia.
  reflexivity.
Qed.

Lemma binary_round_aux_unfold s mx ex lx :
  binary_round_aux 53 1024 s mx ex lx =
  finish s (shr_fexp 53 1024
              (round_nearest_even (shr_m (fst (shr_fexp 53 1024 mx ex lx)))
                 (loc_of_shr_record (fst (shr_fexp 53 1024 mx ex lx))))
              (snd (shr_fexp 53 1024 mx ex lx)) loc_Exact).
Proof.
  unfold binary_round_aux, finish.
  destruct (shr_fexp 53 1024 mx ex lx) as [mrs' e']. cbn [fst snd].
  destruct (shr_fexp 53 1024 _ e' loc_Exact) as [mrs'' e'']. reflexivity.
Qed.

Lemma finish_rounded (s : bool) (m' e : Z) :
  2 ^ 52 <= m' <= 2 ^ 53 -> -1074 <= e <= 970 ->
  exists m j,
    finish s (shr_fexp 53 1024 m' e loc_Exact) = S754_finite s m (e + j)
    /\ (j = 0 \/ j = 1) /\ Zpos m * 2 ^ j = m' /\ 2 ^ 52 <= Zpos m < 2 ^ 53.
Proof.
  intros Hm He. destruct m' as [|q|q]; try (simpl in Hm; lia).
  destruct (Z.eq_dec (Zpos q) (2 ^ 53)) as [E|E].
  - change (2 ^ 53) with (Zpos 9007199254740992) in E. injection E as ->.
    exists (4503599627370496)%positive, 1.
    rewrite shr_fexp_54 by (reflexivity || lia).
    unfold finish. cbn [shr_record_of_loc]. rewrite shr_1_nonneg by lia.
    cbn [shr_m]. change (Z.div2 9007199254740992) with 4503599627370496.
    destruct (Z.leb_spec (e + 1) (1024 - 53)); [|lia].
    repeat split; try reflexivity; auto; simpl; lia.
  - exists q, 0.
    rewrite shr_fexp_53 by (try apply Zdigits2_unique; simpl in *; lia).
    unfold finish. cbn [shr_record_of_loc shr_m].
    destruct (Z.leb_spec e (1024 - 53)); [|lia].
    rewrite Z.add_0_r. repeat split; auto; simpl in *; lia.
Qed.

Lemma binary_round_aux_bound (s : bool) (q : positive) (e : Z) (l : location)
  (r m2 : Z) :
  2 ^ 52 <= Zpos q < 2 ^ 54 -> -1074 <= e <= 960 ->
  0 <= r < m2 -> loc_fact l r m2 ->
  exists m j,
    binary_round_aux 53 1024 s (Zpos q) e l = S754_finite s m (e + j)
    /\ 0 <= j <= 2
    /\ Z.abs (2 * (Zpos m * 2 ^ j) * m2 - 2 * (Zpos q * m2 + r)) <= 2 ^ j * m2.
Proof.
  intros Hq He Hr Hl. rewrite binary_round_aux_unfold.
  destruct (Z.lt_ge_cases (Zpos q) (2 ^ 53)) as [Hlt|Hge].
  - rewrite shr_fexp_53 by (try apply Zdigits2_unique; simpl in *; lia).
    cbn [fst snd]. rewrite shr_m_of_loc, loc_of_shr_record_of_loc.
    assert (Hm' : 2 ^ 52 <= round_nearest_even (Zpos q) l <= 2 ^ 53
                  /\ Z.abs (2 * round_nearest_even (Zpos q) l * m2
                            - 2 * (Zpos q * m2 + r)) <= m2).
    { destruct l as [|[]]; cbn [round_nearest_even loc_fact] in *;
        try destruct (Z.even (Zpos q)); split; lia. }
    destruct Hm' as [Hb Herr].
    destruct (finish_rounded s (round_nearest_even (Zpos q) l) e Hb)
      as (m & j & -> & Hj & Hm & _); [lia|].
    exists m, j. split; [reflexivity|]. split; [lia|].
    rewrite Hm. destruct Hj as [-> | ->]; lia.
  - rewrite shr_fexp_54 by (try apply Zdigits2_unique; simpl in *; lia).
    cbn [fst snd].
    pose proof (Z.div2_odd (Zpos q)) as Hq2.
    set (h := Z.div2 (Zpos q)) in *.
    assert (Hrec : exists b, shr_1 (shr_record_of_loc (Zpos q) l)
                             = Build_shr_record h (Z.odd (Zpos q)) b
                             /\ (b = false -> r = 0) /\ (b = true -> 0 < r)).
    { destruct l as [|[]]; cbn [shr_record_of_loc loc_fact] in *;
        rewrite shr_1_nonneg by lia; eexists; (split; [reflexivity|]);
        cbn [orb]; split; intros; try discriminate; lia. }
    destruct Hrec as (b & -> & Hb0 & Hb1). cbn [shr_m].
    set (l' := loc_of_shr_record (Build_shr_record h (Z.odd (Zpos q)) b)).
    assert (Hm' : 2 ^ 52 <= round_nearest_even h l' <= 2 ^ 53
                  /\ Z.abs (2 * (round_nearest_even h l' * 2) * m2
                            - 2 * (Zpos q * m2 + r)) <= 2 * m2).
    { subst l'. destruct (Z.odd (Zpos q)), b; cbn [loc_of_shr_record round_nearest_even];
        try destruct (Z.even h); cbn [Z.b2z] in Hq2;
        try specialize (Hb0 eq_refl); try specialize (Hb1 eq_refl);
        split; lia. }
    destruct Hm' as [Hb Herr].
    destruct (finish_rounded s (round_nearest_even h l') (e + 1) Hb)
      as (m & j & -> & Hj & Hm & _); [lia|].
    exists m, (1 + j). split; [f_equal; lia|]. split; [lia|].
    rewrite <- Hm in Herr. destruct Hj as [-> | ->];
      [change (2 ^ (1 + 0)) with 2 | change (2 ^ (1 + 1)) with 4];
      change (2 ^ 0) with 1 in Herr; change (2 ^ 1) with 2 in Herr; lia.
Qed.

Lemma binary_round_aux_exact (s : bool) (q : positive) (e : Z) :
  2 ^ 52 <= Zpos q < 2 ^ 53 -> -1074 <= e <= 971 ->
  binary_round_aux 53 1024 s (Zpos q) e loc_Exact = S754_finite s q e.
Proof.
  intros Hq He. rewrite binary_round_aux_unfold.
  rewrite shr_fexp_53 by (try apply Zdigits2_unique; lia).
  cbn [fst snd shr_record_of_loc shr_m loc_of_shr_record round_nearest_even].
  rewrite shr_fexp_53 by (try apply Zdigits2_unique; lia).
  unfold finish. cbn [shr_record_of_loc shr_m].
  destruct (Z.leb_spec e (1024 - 53)); [reflexivity | lia].
Qed.

Lemma iter_xO_pow2 (p k : positive) : Zpos (Pos.iter xO p k) = Zpos p * 2 ^ Zpos k.
Proof.
  induction k as [|k IH] using Pos.peano_ind.
  - simpl. lia.
  - rewrite Pos.iter_succ, Pos2Z.inj_xO, IH, Pos2Z.inj_succ, Z.pow_succ_r by lia.
    ring.
Qed.

(** An integer of at most 53 bits converts exactly. *)
Lemma binary_round_int (s : bool) (p : positive) :
  Zdigits2 (Zpos p) <= 53 ->
  exists m1,
    binary_round 53 1024 s p 0 = S754_finite s m1 (Zdigits2 (Zpos p) - 53)
    /\ Zpos m1 = Zpos p * 2 ^ (53 - Zdigits2 (Zpos p))
    /\ 2 ^ 52 <= Zpos m1 < 2 ^ 53.
Proof.
  intros Hd. destruct (Zdigits2_bounds p) as [Hb Hd1].
  set (d := Zdigits2 (Zpos p)) in *.
  assert (Hscale : 2 ^ 52 <= Zpos p * 2 ^ (53 - d) < 2 ^ 53).
  { assert (Hpos : 0 < 2 ^ (53 - d)) by (apply Z.pow_pos_nonneg; lia).
    assert (E52 : 2 ^ 52 = 2 ^ (d - 1) * 2 ^ (53 - d))
      by (rewrite <- Z.pow_add_r by lia; f_equal; lia).
    assert (E53 : 2 ^ 53 = 2 ^ d * 2 ^ (53 - d))
      by (rewrite <- Z.pow_add_r by lia; f_equal; lia).
    rewrite E52, E53. split.
    - apply Z.mul_le_mono_nonneg_r; lia.
    - apply Z.mul_lt_mono_pos_r; lia. }
  unfold binary_round, shl_align.
  change (Zpos (digits2_pos p)) with d.
  unfold fexp, emin.
  replace (Z.max (d + 0 - 53) (3 - 1024 - 53) - 0) with (d - 53) by lia.
  replace (Z.max (d + 0 - 53) (3 - 1024 - 53)) with (d - 53) by lia.
  destruct (d - 53) as [|k|k] eqn:Ek; try lia.
  - exists p. replace (53 - d) with 0 in * by lia. rewrite Z.mul_1_r in *.
    rewrite binary_round_aux_exact by lia. repeat split; lia.
  - exists (Pos.iter xO p k).
    assert (Hk : Zpos (Pos.iter xO p k) = Zpos p * 2 ^ (53 - d)).
    { rewrite iter_xO_pow2. do 2 f_equal. lia. }
    rewrite binary_round_aux_exact by lia. repeat split; lia.
Qed.

Lemma to_int_normalize (s : bool) (n : Z) :
  0 <= n <= INT_MAX ->
  Double.to_int (binary_normalize 53 1024 (cond_Zopp s n) 0 s) = cond_Zopp s n.
Proof.
  intros Hn. destruct n as [|p|p]; try lia.
  - destruct s; reflexivity.
  - assert (Hbr : binary_normalize 53 1024 (cond_Zopp s (Zpos p)) 0 s
                  = binary_round 53 1024 s p 0) by (destruct s; reflexivity).
    rewrite Hbr. destruct (Zdigits2_bounds p) as [Hb Hd1].
    assert (Hd : Zdigits2 (Zpos p) <= 53).
    { destruct (Z.le_gt_cases (Zdigits2 (Zpos p)) 53) as [H|H]; [assumption|].
      exfalso. assert (2 ^ 53 <= 2 ^ (Zdigits2 (Zpos p) - 1))
        by (apply Z.pow_le_mono_r; lia).
      unfold INT_MAX in Hn. lia. }
    destruct (binary_round_int s p Hd) as (m1 & -> & Hm1 & _).
    unfold Double.to_int. set (d := Zdigits2 (Zpos p)) in *.
    assert (Hval : (if 0 <=? d - 53 then Zpos m1 * 2 ^ (d - 53)
                    else Zpos m1 / 2 ^ (- (d - 53))) = Zpos p).
    { destruct (Z.leb_spec 0 (d - 53)).
      - replace (d - 53) with 0 by lia. replace (53 - d) with 0 in Hm1 by lia.
        lia.
      - replace (- (d - 53)) with (53 - d) by lia. rewrite Hm1.
        apply Z.div_mul. apply Z.pow_nonzero; lia. }
    rewrite Hval.
    assert (Hr : (INT_MIN <=? cond_Zopp s (Zpos p)) && (cond_Zopp s (Zpos p) <=? INT_MAX)
                 = true).
    { apply andb_true_iff. unfold INT_MIN, INT_MAX in *.
      destruct s; cbn [cond_Zopp]; split; apply Z.leb_le; lia. }
    now rewrite Hr.
Qed.

Lemma new_location_fact (m2 r : Z) :
  Z.even m2 = true -> 0 <= r < m2 -> loc_fact (new_location m2 r) r m2.
Proof.
  intros Hev Hr. unfold new_location. rewrite Hev. unfold new_location_even.
  destruct (Z.eqb_spec r 0) as [->|Hne]; [reflexivity|].
  unfold loc_fact. destruct (Z.compare_spec (2 * r) m2); lia.
Qed.

(** The quotient by [150000.0] of a converted integer of [d <= 32] bits:
    a mantissa [m] at exponent [- k] within half a unit of [x / 150000]. *)
Lemma div_150000_bound (s : bool) (m1 : positive) (x d : Z) :
  1 <= d <= 32 -> 0 < x ->
  Zpos m1 = x * 2 ^ (53 - d) -> 2 ^ 52 <= Zpos m1 < 2 ^ 53 ->
  exists m k,
    Double.div (S754_finite s m1 (d - 53)) (Double.of_int 150000)
    = S754_finite s m (- k)
    /\ 37 <= k <= 70
    /\ Z.abs (2 * Zpos m * 150000 - 2 * x * 2 ^ k) <= 150000.
Proof.
  intros Hd Hx Hm1 Hb.
  change (Double.of_int 150000) with (S754_finite false 5153960755200000 (-35)).
  unfold Double.div, Double.prec, Double.emax, SFdiv, SFdiv_core_binary.
  rewrite (Zdigits2_unique m1 53) by lia.
  change (Zdigits2 (Zpos 5153960755200000)) with 53.
  unfold fexp, emin. rewrite xorb_false_r.
  replace (Z.min (Z.max (53 + (d - 53) - (53 + -35) - 53) (3 - 1024 - 53))
             (d - 53 - -35)) with (d - 71) by lia.
  replace (d - 53 - -35 - (d - 71)) with 53 by lia.
  cbv iota. rewrite Z.shiftl_mul_pow2 by lia.
  pose proof (Z_div_mod (Zpos m1 * 2 ^ 53) 5153960755200000 eq_refl) as Hdiv.
  destruct (Z.div_eucl (Zpos m1 * 2 ^ 53) 5153960755200000) as [q r].
  destruct Hdiv as [Hqr Hr].
  assert (Hq : 2 ^ 52 <= q < 2 ^ 54) by lia.
  destruct q as [|q|q]; try lia.
  destruct (binary_round_aux_bound s q (d - 71) (new_location 5153960755200000 r)
              r 5153960755200000 Hq)
    as (m & j & -> & Hj & Herr); [lia | lia | now apply new_location_fact |].
  exists m, (71 - d - j). split; [f_equal; lia|]. split; [lia|].
  assert (Hpow : 2 ^ (53 - d) * 2 ^ 53 = 2 ^ j * 2 ^ (71 - d - j) * 2 ^ 35).
  { rewrite <- !Z.pow_add_r by lia. f_equal. lia. }
  assert (Hj0 : 0 < 2 ^ j) by (apply Z.pow_pos_nonneg; lia).
  set (P := 2 ^ (71 - d - j)) in *. set (J := 2 ^ j) in *.
  set (A := 2 ^ (53 - d)) in *.
  change (2 ^ 53) with 9007199254740992 in *.
  change (2 ^ 35) with 34359738368 in *.
  assert (E : Zpos q * 5153960755200000 + r = x * (J * P) * 34359738368) by nia.
  rewrite E in Herr.
  replace (2 * (Zpos m * J) * 5153960755200000 - 2 * (x * (J * P) * 34359738368))
    with ((2 * Zpos m * 150000 - 2 * x * P) * (J * 34359738368)) in Herr by ring.
  replace (J * 5153960755200000) with (150000 * (J * 34359738368)) in Herr by ring.
  rewrite Z.abs_mul in Herr. rewrite (Z.abs_eq (J * 34359738368)) in Herr by lia.
  apply Z.mul_le_mono_pos_r in Herr; lia.
Qed.


(** A mantissa within half a unit of [x / 150000] rounds to the same
    integer as [x / 150000] does. *)
Lemma round_mantissa (m x k : Z) :
  0 < x -> 37 <= k ->
  Z.abs (2 * m * 150000 - 2 * x * 2 ^ k) <= 150000 ->
  (m + 2 ^ (k - 1)) / 2 ^ k = (2 * x + 150000) / 300000.
Proof.
  intros Hx Hk.
  assert (HP : 2 ^ k = 2 * 2 ^ (k - 1)).
  { rewrite <- Z.pow_succ_r by lia. f_equal. lia. }
  assert (HP2 : 2 ^ 36 <= 2 ^ (k - 1)) by (apply Z.pow_le_mono_r; lia).
  change (2 ^ 36) with 68719476736 in HP2.
  rewrite HP. generalize dependent (2 ^ (k - 1)). intros P2 _ HP2 Hb.
  pose proof (Z.div_mod (2 * x + 150000) 300000) as Hdm.
  pose proof (Z.mod_pos_bound (2 * x + 150000) 300000) as Hmod.
  set (n0 := (2 * x + 150000) / 300000) in *.
  set (rho := (2 * x + 150000) mod 300000) in *.
  clearbody n0 rho.
  assert (Hrho : 0 <= rho <= 299998) by lia.
  assert (Hrho1 : 0 <= rho * P2) by (apply Z.mul_nonneg_nonneg; lia).
  assert (Hrho2 : rho * P2 <= 299998 * P2)
    by (apply Z.mul_le_mono_nonneg_r; lia).
  assert (Hmul : (2 * x + 150000) * P2 = (300000 * n0 + rho) * P2)
    by (f_equal; lia).
  symmetry. apply (Z.div_unique _ _ _ (m + P2 - 2 * P2 * n0)); [left | ring].
  lia.
Qed.

Lemma bars_signed (s : bool) (p : positive) :
  Zpos p <= 2 ^ 31 ->
  Double.to_int
    (Double.round (Double.div (binary_round 53 1024 s p 0) (Double.of_int 150000)))
  = cond_Zopp s ((2 * Zpos p + 150000) / 300000).
Proof.
  intros Hp. destruct (Zdigits2_bounds p) as [Hb Hd1].
  assert (Hd : Zdigits2 (Zpos p) <= 32).
  { destruct (Z.le_gt_cases (Zdigits2 (Zpos p)) 32) as [H|H]; [assumption|].
    exfalso. assert (2 ^ 32 <= 2 ^ (Zdigits2 (Zpos p) - 1))
      by (apply Z.pow_le_mono_r; lia).
    lia. }
  destruct (binary_round_int s p) as (m1 & -> & Hm1 & Hm1b); [lia|].
  destruct (div_150000_bound s m1 (Zpos p) (Zdigits2 (Zpos p)))
    as (m & k & -> & Hk & Herr); try lia.
  unfold Double.round.
  destruct (Z.leb_spec 0 (- k)); [lia|].
  replace (- - k) with k by lia.
  rewrite (round_mantissa (Zpos m) (Zpos p) k) by lia.
  apply to_int_normalize. split.
  - apply Z.div_pos; lia.
  - apply Z.div_le_upper_bound; unfold INT_MAX; lia.
Qed.

Lemma bars_round_half_away (totalVotes : Z) :
  in_range totalVotes -> bars totalVotes = round_half_away totalVotes 150000.
Proof.
  unfold in_range, INT_MIN, INT_MAX. intros Hr. unfold bars, round_half_away.
  destruct totalVotes as [|p|p].
  - reflexivity.
  - change (Double.of_int (Zpos p)) with (binary_round 53 1024 false p 0).
    rewrite bars_signed by lia. reflexivity.
  - change (Double.of_int (Zneg p)) with (binary_round 53 1024 true p 0).
    rewrite bars_signed by lia. reflexivity.
Qed.

(** [round_half_away num den] is the integer nearest to [num / den], the
    halfway cases going away from zero. *)
Lemma round_half_away_nearest (num den : Z) :
  0 < den ->
  (2 * Z.abs (round_half_away num den) - 1) * den <= 2 * Z.abs num
  /\ 2 * Z.abs num < (2 * Z.abs (round_half_away num den) + 1) * den
  /\ (0 <= num -> 0 <= round_half_away num den)
  /\ (num <= 0 -> round_half_away num den <= 0).
Proof.
  intros Hden. unfold round_half_away.
  destruct (Z.leb_spec 0 num) as [Hn|Hn].
  - pose proof (Z.mul_div_le (2 * num + den) (2 * den)) as H1.
    pose proof (Z.mul_succ_div_gt (2 * num + den) (2 * den)) as H2.
    assert (H0 : 0 <= (2 * num + den) / (2 * den)) by (apply Z.div_pos; lia).
    set (q := (2 * num + den) / (2 * den)) in *. clearbody q.
    assert (Hq : num = 0 -> q <= 0).
    { intros ->. destruct (Z.le_gt_cases q 0) as [|Hq]; [assumption|].
      assert (2 * den * 1 <= 2 * den * q) by (apply Z.mul_le_mono_nonneg_l; lia).
      lia. }
    rewrite (Z.abs_eq q), (Z.abs_eq num) by lia. lia.
  - pose proof (Z.mul_div_le (2 * - num + den) (2 * den)) as H1.
    pose proof (Z.mul_succ_div_gt (2 * - num + den) (2 * den)) as H2.
    assert (H0 : 0 <= (2 * - num + den) / (2 * den)) by (apply Z.div_pos; lia).
    set (q := (2 * - num + den) / (2 * den)) in *. clearbody q.
    rewrite Z.abs_opp, (Z.abs_eq q), (Z.abs_neq num) by lia. lia.
Qed.

Lemma recordsOf_wf state votes : votes_wf votes -> votes_wf (recordsOf state votes).
Proof.
  unfold votes_wf, recordsOf. rewrite !Forall_forall. intros H v Hv.
  apply filter_In in Hv. now apply H.
Qed.

Lemma state_totals_in_range
  (sort : list CandidateSummary -> list CandidateSummary)
  (votes : list Votes) (stateInput : string) (summary : CandidateSummary) :
  std_sort_contract sort -> votes_wf votes ->
  In summary (sortedSummaries (showStateResults sort votes stateInput)) ->
  in_range (totalVotes summary).
Proof.
  intros Hsort Hwf Hs. rewrite showStateResults_summaries in Hs.
  destruct (summaries_grouped sort Hsort _ (recordsOf_wf (toUpper stateInput) votes Hwf))
    as [_ Htot _ _].
  rewrite (Htot summary Hs), int_sum_wrap. apply wrap_in_range.
Qed.

(** C8.  In the state results each candidate's bar count is
    [totalVotes / 150000] rounded to the nearest integer, halfway cases
    away from zero: the binary64 division, [round] and the conversion to
    [int] lose nothing against the exact quotient.  This holds of the
    value line 226 computes for every summary of the state, and so of the
    count of every row that is printed. *)
Theorem bar_count_round_half_away
  (sort : list CandidateSummary -> list CandidateSummary)
  (votes : list Votes) (stateInput : string) :
  std_sort_contract sort ->
  votes_wf votes ->
  let results := showStateResults sort votes stateInput in
  (forall summary, In summary (sortedSummaries results) ->
     let count := bars (totalVotes summary) in
     count = round_half_away (totalVotes summary) 150000
     /\ (2 * Z.abs count - 1) * 150000 <= 2 * Z.abs (totalVotes summary)
     /\ 2 * Z.abs (totalVotes summary) < (2 * Z.abs count + 1) * 150000
     /\ (0 <= totalVotes summary -> 0 <= count)
     /\ (totalVotes summary <= 0 -> count <= 0))
  /\ (forall row, In row (printedRows results) ->
        In (fst row) (sortedSummaries results)
        /\ snd row = round_half_away (totalVotes (fst row)) 150000
        /\ (2 * Z.abs (snd row) - 1) * 150000 <= 2 * Z.abs (totalVotes (fst row))
        /\ 2 * Z.abs (totalVotes (fst row)) < (2 * Z.abs (snd row) + 1) * 150000
        /\ (0 <= totalVotes (fst row) -> 0 <= snd row)
        /\ (totalVotes (fst row) <= 0 -> snd row <= 0)).
Proof.
  intros Hsort Hwf results.
  assert (Hall : forall summary, In summary (sortedSummaries results) ->
            bars (totalVotes summary) = round_half_away (totalVotes summary) 150000
            /\ (2 * Z.abs (bars (totalVotes summary)) - 1) * 150000
                <= 2 * Z.abs (totalVotes summary)
            /\ 2 * Z.abs (totalVotes summary)
                < (2 * Z.abs (bars (totalVotes summary)) + 1) * 150000
            /\ (0 <= totalVotes summary -> 0 <= bars (totalVotes summary))
            /\ (totalVotes summary <= 0 -> bars (totalVotes summary) <= 0)).
  { intros summary Hs.
    pose proof (state_totals_in_range sort votes stateInput summary Hsort Hwf Hs) as Hr.
    rewrite (bars_round_half_away _ Hr). split; [reflexivity|].
    apply round_half_away_nearest. lia. }
  split; [exact Hall|].
  intros row Hin. apply printChart_rows in Hin. destruct Hin as (Hs & Hb & _).
  split; [exact Hs|]. rewrite Hb. apply Hall. exact Hs.
Qed.

Lemma bar_count_round_half_away_witness :
  showStateResults insertion_sort half_bar_votes "ohio"
  = mkStateResults
      [ mkSummary "A" "PartyX" 75000; mkSummary "B" "PartyY" 74999 ]
      [ (mkSummary "A" "PartyX" 75000, 1); (mkSummary "B" "PartyY" 74999, 0) ]
      None
  /\ 1 = round_half_away 75000 150000
  /\ 0 = round_half_away 74999 150000.
Proof.
  assert (Hwf : votes_wf half_bar_votes)
    by (repeat constructor; unfold INT_MIN, INT_MAX; simpl; lia).
  pose proof (proj2 (bar_count_round_half_away insertion_sort half_bar_votes "ohio"
                       insertion_sort_contract Hwf)) as H.
  split; [vm_compute; reflexivity|]. split.
  - apply (H (mkSummary "A" "PartyX" 75000, 1)). vm_compute. tauto.
  - apply (H (mkSummary "B" "PartyY" 74999, 0)). vm_compute. tauto.
Defined.

(* ================================================================== *)
(** ** Ties under a stable sort *)

Lemma index_of_map {A B} (f : A -> B) (p : B -> bool) (l : list A) :
  index_of p (map f l) = index_of (fun x => p (f x)) l.
Proof.
  induction l as [|x l IH]; simpl; [reflexivity|]. now rewrite IH.
Qed.

Lemma index_of_Some {A} (p : A -> bool) (l : list A) (i : nat) :
  index_of p l = Some i -> (i < List.length l)%nat /\ exists x, In x l /\ p x = true.
Proof.
  revert i. induction l as [|x l IH]; simpl; intros i H; [discriminate|].
  destruct (p x) eqn:E.
  - inversion H; subst. split; [lia|]. exists x. auto.
  - destruct (index_of p l) as [k|]; [|discriminate]. inversion H; subst.
    destruct (IH k eq_refl) as (Hk & y & Hy & Hp). split; [lia|].
    exists y. auto.
Qed.

Lemma index_of_None {A} (p : A -> bool) (l : list A) :
  index_of p l = None <-> forall x, In x l -> p x = false.
Proof.
  induction l as [|x l IH]; simpl.
  - split; [intros _ y [] | reflexivity].
  - destruct (p x) eqn:E.
    + split; [discriminate|]. intros H. rewrite (H x) in E by now left. discriminate.
    + destruct (index_of p l) as [k|]; simpl.
      * split; [discriminate|]. intros H.
        assert (F : Some k = None) by (apply IH; intros; apply H; now right).
        discriminate.
      * split; [|reflexivity]. intros _ y [<-|Hy]; [assumption|].
        now apply (proj1 IH).
Qed.

Lemma index_of_app_l {A} (p : A -> bool) (l1 l2 : list A) (i : nat) :
  index_of p l1 = Some i -> index_of p (l1 ++ l2) = Some i.
Proof.
  revert i. induction l1 as [|x l1 IH]; simpl; intros i H; [discriminate|].
  destruct (p x); [assumption|].
  destruct (index_of p l1) as [k|]; [|discriminate].
  now rewrite (IH k eq_refl).
Qed.

Lemma index_of_app_r {A} (p : A -> bool) (l1 l2 : list A) :
  index_of p l1 = None ->
  index_of p (l1 ++ l2) = option_map (fun k => (List.length l1 + k)%nat) (index_of p l2).
Proof.
  induction l1 as [|x l1 IH]; simpl; intros H.
  - destruct (index_of p l2); reflexivity.
  - destruct (p x); [discriminate|].
    destruct (index_of p l1) as [k|]; [discriminate|].
    rewrite IH by reflexivity. destruct (index_of p l2); reflexivity.
Qed.

(** The loop of [firstSeen] keeps what it has and adds every new name. *)
Lemma firstSeen_fold_prefix (candidates : list string) : forall seen,
  exists extra,
    fold_left (fun seen c => if in_dec string_dec c seen then seen else seen ++ [c])
      candidates seen = seen ++ extra
    /\ forall c, In c candidates -> In c (seen ++ extra).
Proof.
  induction candidates as [|c cs IH]; intros seen; simpl.
  - exists []. split; [now rewrite app_nil_r | intros c []].
  - destruct (in_dec string_dec c seen) as [Hin|Hout].
    + destruct (IH seen) as (extra & -> & Hall). exists extra. split; [reflexivity|].
      intros c' [<-|Hc']; [apply in_or_app; now left | now apply Hall].
    + destruct (IH (seen ++ [c])) as (extra & -> & Hall).
      exists (c :: extra). rewrite <- app_assoc. split; [reflexivity|].
      intros c' [<-|Hc'].
      * apply in_or_app. right. now left.
      * specialize (Hall c' Hc'). now rewrite <- app_assoc in Hall.
Qed.

Lemma firstSeen_fold_order (ca cb : string) (candidates : list string) :
  forall seen i j,
    index_of (fun c => String.eqb c ca) candidates = Some i ->
    index_of (fun c => String.eqb c cb) candidates = Some j ->
    (i < j)%nat ->
    ~ In cb seen ->
    comes_before
      (index_of (fun c => String.eqb c ca)
         (fold_left (fun seen c => if in_dec string_dec c seen then seen else seen ++ [c])
            candidates seen))
      (index_of (fun c => String.eqb c cb)
         (fold_left (fun seen c => if in_dec string_dec c seen then seen else seen ++ [c])
            candidates seen))
    = true.
Proof.
  induction candidates as [|c cs IH]; intros seen i j Hi Hj Hlt Hout;
    [discriminate|].
  cbn [index_of] in Hi, Hj. cbn [fold_left].
  destruct (String.eqb_spec c cb) as [Ecb|Ecb].
  { inversion Hj; subst. lia. }
  set (seen' := if in_dec string_dec c seen then seen else seen ++ [c]).
  assert (Hout' : ~ In cb seen').
  { subst seen'. destruct (in_dec string_dec c seen); [assumption|].
    intros F. apply in_app_or in F. destruct F as [F|[F|[]]]; [auto | congruence]. }
  destruct (String.eqb_spec c ca) as [Eca|Eca].
  - subst c. clear IH Hi.
    destruct (index_of (fun c => String.eqb c cb) cs) as [j'|] eqn:Ej; [|discriminate].
    destruct (firstSeen_fold_prefix cs seen') as (extra & -> & Hall).
    assert (Hca : In ca seen').
    { subst seen'. destruct (in_dec string_dec ca seen); [assumption|].
      apply in_or_app. right. now left. }
    destruct (index_of (fun c => String.eqb c ca) seen') as [p|] eqn:Ep.
    2:{ rewrite index_of_None in Ep. specialize (Ep ca Hca).
        now rewrite String.eqb_refl in Ep. }
    rewrite (index_of_app_l _ _ _ _ Ep).
    rewrite index_of_app_r.
    2:{ apply index_of_None. intros x Hx. apply String.eqb_neq. congruence. }
    destruct (index_of (fun c => String.eqb c cb) extra) as [q|] eqn:Eq.
    + simpl. apply Nat.ltb_lt. apply index_of_Some in Ep. lia.
    + exfalso. rewrite index_of_None in Eq.
      destruct (index_of_Some _ _ _ Ej) as (_ & x & Hx & Hxb).
      apply String.eqb_eq in Hxb. subst x.
      specialize (Hall cb Hx). apply in_app_or in Hall.
      destruct Hall as [F|F]; [contradiction|].
      specialize (Eq cb F). now rewrite String.eqb_refl in Eq.
  - destruct (index_of (fun c => String.eqb c ca) cs) as [i'|] eqn:Ei; [|discriminate].
    destruct (index_of (fun c => String.eqb c cb) cs) as [j'|] eqn:Ej; [|discriminate].
    inversion Hi; inversion Hj; subst.
    apply (IH seen' i' j'); auto. lia.
Qed.

(** In the grouping loop's output the candidate first met earlier ranks
    earlier. *)
Lemma groupByCandidate_order votes ca cb i j :
  firstRecord votes ca = Some i -> firstRecord votes cb = Some j -> (i < j)%nat ->
  comes_before (rank (groupByCandidate votes) ca) (rank (groupByCandidate votes) cb)
  = true.
Proof.
  unfold firstRecord, rank. intros Hi Hj Hlt.
  rewrite <- (index_of_map name (fun c => String.eqb c ca)).
  rewrite <- (index_of_map name (fun c => String.eqb c cb)).
  rewrite groupByCandidate_names. unfold firstSeen.
  apply (firstSeen_fold_order ca cb (map getCandidate votes) [] i j); auto.
  - now rewrite index_of_map.
  - now rewrite index_of_map.
Qed.

Lemma rank_present_filter (p : CandidateSummary -> bool) (l : list CandidateSummary) c :
  (forall x, In x l -> name x = c -> p x = true) ->
  match rank (filter p l) c, rank l c with
  | Some _, Some _ | None, None => True
  | _, _ => False
  end.
Proof.
  unfold rank. induction l as [|x l IH]; intros Hp; simpl; [exact I|].
  assert (IH' := IH (fun y Hy => Hp y (or_intror Hy))). clear IH.
  destruct (String.eqb_spec (name x) c) as [E|E].
  - rewrite (Hp x (or_introl eq_refl) E). simpl.
    destruct (String.eqb_spec (name x) c); [exact I | contradiction].
  - destruct (p x); simpl.
    + destruct (String.eqb_spec (name x) c); [contradiction|].
      destruct (index_of _ (filter p l)), (index_of _ l); simpl; auto.
    + destruct (index_of _ (filter p l)), (index_of _ l); simpl; auto.
Qed.

(** Filtering keeps the relative rank of two names whose summaries all
    pass the filter. *)
Lemma rank_order_filter (p : CandidateSummary -> bool) (l : list CandidateSummary)
  (ca cb : string) :
  (forall x, In x l -> name x = ca \/ name x = cb -> p x = true) ->
  comes_before (rank (filter p l) ca) (rank (filter p l) cb)
  = comes_before (rank l ca) (rank l cb).
Proof.
  destruct (string_dec ca cb) as [->|Hne].
  { intros _. unfold comes_before.
    destruct (rank (filter p l) cb), (rank l cb);
      rewrite ?Nat.ltb_irrefl; reflexivity. }
  induction l as [|x l IH]; intros Hp; [reflexivity|].
  assert (IH' := IH (fun y Hy => Hp y (or_intror Hy))). clear IH.
  assert (Hb := rank_present_filter p l cb
                  (fun y Hy E => Hp y (or_intror Hy) (or_intror E))).
  unfold rank in *. cbn [filter index_of].
  destruct (String.eqb_spec (name x) ca) as [Ea|Ea].
  - rewrite (Hp x (or_introl eq_refl) (or_introl Ea)). cbn [index_of].
    destruct (String.eqb_spec (name x) ca); [|contradiction].
    destruct (String.eqb_spec (name x) cb); [congruence|].
    clear IH'.
    destruct (index_of (fun summary => String.eqb (name summary) cb) (filter p l)),
             (index_of (fun summary => String.eqb (name summary) cb) l);
      simpl in *; try reflexivity; contradiction.
  - destruct (String.eqb_spec (name x) cb) as [Eb|Eb].
    + rewrite (Hp x (or_introl eq_refl) (or_intror Eb)). cbn [index_of].
      destruct (String.eqb_spec (name x) ca); [contradiction|].
      destruct (String.eqb_spec (name x) cb); [|contradiction].
      destruct (index_of (fun summary => String.eqb (name summary) ca) (filter p l)),
               (index_of (fun summary => String.eqb (name summary) ca) l);
        reflexivity.
    + assert (Hskip : forall l',
                comes_before
                  (option_map S (index_of (fun s => String.eqb (name s) ca) l'))
                  (option_map S (index_of (fun s => String.eqb (name s) cb) l'))
                = comes_before (index_of (fun s => String.eqb (name s) ca) l')
                               (index_of (fun s => String.eqb (name s) cb) l')).
      { intros l'. destruct (index_of _ l'), (index_of _ l'); reflexivity. }
      destruct (p x); cbn [index_of].
      * destruct (String.eqb_spec (name x) ca); [contradiction|].
        destruct (String.eqb_spec (name x) cb); [contradiction|].
        now rewrite !Hskip.
      * now rewrite Hskip.
Qed.

Lemma NoDup_name_inj (l : list CandidateSummary) (a x : CandidateSummary) :
  NoDup (map name l) -> In a l -> In x l -> name x = name a -> x = a.
Proof.
  induction l as [|y l IH]; simpl; intros Hnd Ha Hx E; [contradiction|].
  inversion Hnd as [|? ? Hy Hnd']; subst.
  destruct Ha as [->|Ha], Hx as [->|Hx]; auto.
  - exfalso. apply Hy. rewrite <- E. now apply in_map.
  - exfalso. apply Hy. rewrite E. now apply in_map.
Qed.

Lemma insert_summary_filter x l k :
  filter (fun s => totalVotes s =? k) (insert_summary x l)
  = filter (fun s => totalVotes s =? k) (x :: l).
Proof.
  induction l as [|y l IH]; [reflexivity|].
  cbn [insert_summary]. destruct (summary_lt y x) eqn:E; [|reflexivity].
  cbn [filter] in *. rewrite IH.
  unfold summary_lt in E. apply Z.ltb_lt in E.
  destruct (Z.eqb_spec (totalVotes y) k), (Z.eqb_spec (totalVotes x) k);
    try reflexivity. lia.
Qed.

Lemma insertion_sort_stable : stable insertion_sort.
Proof.
  intros l k. unfold insertion_sort. induction l as [|x l IH]; [reflexivity|].
  cbn [fold_right]. rewrite insert_summary_filter. cbn [filter]. now rewrite IH.
Qed.

Lemma firstSeen_NoDup (candidates : list string) : NoDup (firstSeen candidates).
Proof.
  unfold firstSeen.
  assert (H : forall seen, NoDup seen ->
            NoDup (fold_left
                     (fun seen c => if in_dec string_dec c seen then seen else seen ++ [c])
                     candidates seen)).
  { induction candidates as [|c cs IH]; intros seen Hnd; [assumption|].
    cbn [fold_left]. apply IH. destruct (in_dec string_dec c seen); [assumption|].
    apply (Permutation_NoDup (Permutation_cons_append seen c)). now constructor. }
  apply H. constructor.
Qed.

(** A sort that keeps the summaries of every total in the order the grouping
    loop leaves them returns tied candidates in first-encountered order. *)
Lemma ties_kept
  (sort : list CandidateSummary -> list CandidateSummary) (votes : list Votes) :
  Permutation (groupByCandidate votes) (sort (groupByCandidate votes)) ->
  (forall k, filter (fun s => totalVotes s =? k) (sort (groupByCandidate votes))
             = filter (fun s => totalVotes s =? k) (groupByCandidate votes)) ->
  ties_first_seen votes (getCandidateSummaries sort votes).
Proof.
  intros Hp Hst a b i j p q Ha Hb Heq Hi Hj Hlt Hrp Hrq.
  unfold getCandidateSummaries in *.
  set (G := groupByCandidate votes) in *.
  assert (HndG : NoDup (map name G)).
  { subst G. rewrite groupByCandidate_names. apply firstSeen_NoDup. }
  assert (HndR : NoDup (map name (sort G))).
  { eapply Permutation_NoDup; [apply Permutation_map, Hp | assumption]. }
  assert (HaG : In a G) by (eapply Permutation_in; [symmetry; apply Hp | assumption]).
  assert (HbG : In b G) by (eapply Permutation_in; [symmetry; apply Hp | assumption]).
  assert (Hkey : forall l, NoDup (map name l) -> In a l -> In b l ->
            forall x, In x l -> name x = name a \/ name x = name b ->
                      (totalVotes x =? totalVotes a) = true).
  { intros l Hnd Hal Hbl x Hx [E|E]; apply Z.eqb_eq.
    - now rewrite (NoDup_name_inj l a x Hnd Hal Hx E).
    - rewrite (NoDup_name_inj l b x Hnd Hbl Hx E). now symmetry. }
  pose proof (groupByCandidate_order votes (name a) (name b) i j Hi Hj Hlt) as Hord.
  fold G in Hord.
  rewrite <- (rank_order_filter (fun s => totalVotes s =? totalVotes a) G)
    in Hord by (apply Hkey; assumption).
  rewrite <- (Hst (totalVotes a)) in Hord.
  rewrite (rank_order_filter (fun s => totalVotes s =? totalVotes a) (sort G))
    in Hord by (apply Hkey; assumption).
  rewrite Hrp, Hrq in Hord. now apply Nat.ltb_lt in Hord.
Qed.

(** C2 (as amended).  The summaries returned are sorted non-increasing by
    [totalVotes] and are a rearrangement of one summary per candidate, which
    the grouping loop hands to [std::sort] in first-encountered order.  The
    contract of [std::sort] fixes nothing more about candidates with equal
    totals; they come out in first-encountered order whenever the sort
    routine used is stable. *)
Theorem summaries_sorted_desc
  (sort : list CandidateSummary -> list CandidateSummary) (votes : list Votes) :
  std_sort_contract sort ->
  sorted_desc (getCandidateSummaries sort votes)
  /\ Permutation (groupByCandidate votes) (getCandidateSummaries sort votes)
  /\ map name (groupByCandidate votes) = firstSeen (map getCandidate votes)
  /\ (stable sort -> ties_first_seen votes (getCandidateSummaries sort votes)).
Proof.
  intros [Hp Hs]. split; [|split; [|split]].
  - unfold sorted_desc, getCandidateSummaries.
    apply StronglySorted_weaken with (R := fun a b => summary_lt b a = false);
      [|apply Hs].
    intros a b H. unfold summary_lt in H. now apply Z.ltb_ge in H.
  - apply Hp.
  - apply groupByCandidate_names.
  - intros Hst. apply ties_kept; [apply Hp | intros k; apply Hst].
Qed.

Lemma summaries_sorted_desc_witness :
  std_sort_contract insertion_sort
  /\ sorted_desc (getCandidateSummaries insertion_sort tied_votes)
  /\ ties_first_seen tied_votes (getCandidateSummaries insertion_sort tied_votes).
Proof.
  split; [exact insertion_sort_contract|].
  destruct (summaries_sorted_desc insertion_sort tied_votes insertion_sort_contract)
    as (H1 & _ & _ & H4).
  split; [exact H1 | exact (H4 insertion_sort_stable)].
Defined.

(** C2 as stated fails.  Seventeen candidates with equal totals, first met
    in the order C01 .. C17, are returned by [std::sort] of libstdc++ with
    C09 first and C01 tenth.  Above sixteen elements [__introsort_loop]
    partitions the vector: [__move_median_to_first] swaps the middle
    element (C09) to the front, then [__unguarded_partition], to which no
    element is less than the pivot, swaps the others pairwise from both
    ends; the insertion sort that follows moves no element past an equal
    one.  (Two tied candidates, as in [tied_votes], stay below the
    threshold of the partitioning and keep their order.) *)
Lemma ties_first_seen_counterexample :
  firstSeen (map getCandidate seventeen_tied)
  = [ "C01"; "C02"; "C03"; "C04"; "C05"; "C06"; "C07"; "C08"; "C09";
      "C10"; "C11"; "C12"; "C13"; "C14"; "C15"; "C16"; "C17" ]
  /\ map name (getCandidateSummaries sort_summaries seventeen_tied)
     = [ "C09"; "C17"; "C16"; "C15"; "C14"; "C13"; "C12"; "C11"; "C10";
         "C01"; "C08"; "C07"; "C06"; "C05"; "C04"; "C03"; "C02" ]
  /\ map totalVotes (getCandidateSummaries sort_summaries seventeen_tied)
     = repeat 10 17
  /\ ~ ties_first_seen seventeen_tied
        (getCandidateSummaries sort_summaries seventeen_tied).
Proof.
  split; [vm_compute; reflexivity|].
  split; [vm_compute; reflexivity|].
  split; [vm_compute; reflexivity|].
  intros Ht.
  specialize (Ht (mkSummary "C01" "PartyX" 10) (mkSummary "C09" "PartyX" 10)
                 0%nat 8%nat 9%nat 0%nat).
  assert (F : (9 < 0)%nat); [|lia].
  apply Ht; try (vm_compute; reflexivity); try lia.
  - vm_compute. tauto.
  - vm_compute. tauto.
Qed.

(* ================================================================== *)
(** ** [std::sort] of libstdc++ on at most sixteen summaries *)

Section SmallVectors.

Local Abbreviation nobody := (mkSummary "" "" 0).

Lemma get_middle (p r : list CandidateSummary) (x : CandidateSummary) :
  get CandidateSummary nobody (p ++ x :: r) (List.length p) = x.
Proof. apply nth_middle. Qed.

Lemma get_snoc (p r : list CandidateSummary) (y : CandidateSummary) :
  get CandidateSummary nobody ((p ++ [y]) ++ r) (List.length p) = y.
Proof. rewrite <- app_assoc. apply nth_middle. Qed.

Lemma set_nth_middle (p r : list CandidateSummary) (h x : CandidateSummary) (n : nat) :
  n = List.length p ->
  set_nth CandidateSummary (p ++ h :: r) n x = p ++ x :: r.
Proof.
  intros ->. induction p as [|y p IH]; cbn; [reflexivity | now rewrite IH].
Qed.

Lemma length_snoc (p : list CandidateSummary) (y : CandidateSummary) :
  List.length (p ++ [y]) = S (List.length p).
Proof. rewrite length_app. cbn. lia. Qed.

(** The loop of [__unguarded_linear_insert] with the hole at the end of
    [p]: the summaries [q] above the hole were moved up already. *)
Lemma linear_insert_loop_spec (p : list CandidateSummary) :
  forall (h val : CandidateSummary) (q : list CandidateSummary),
    linear_insert_loop CandidateSummary summary_lt nobody
      (p ++ h :: q) val (List.length p)
    = rev (insert_down val (rev p)) ++ q.
Proof.
  induction p as [|y p IH] using rev_ind; intros h val q; [reflexivity|].
  rewrite length_snoc, rev_unit. cbn [linear_insert_loop insert_down].
  rewrite get_snoc.
  rewrite !(set_nth_middle (p ++ [y]) q h _ (S (List.length p)))
    by (now rewrite length_snoc).
  destruct (summary_lt val y).
  - rewrite <- app_assoc. cbn [app]. rewrite IH. cbn [rev].
    now rewrite <- app_assoc.
  - cbn [rev]. rewrite rev_involutive. now rewrite <- !app_assoc.
Qed.

Lemma unguarded_linear_insert_spec (p r : list CandidateSummary) (val : CandidateSummary) :
  __unguarded_linear_insert CandidateSummary summary_lt nobody
    (p ++ val :: r) (List.length p)
  = rev (insert_down val (rev p)) ++ r.
Proof.
  unfold __unguarded_linear_insert. rewrite get_middle.
  apply linear_insert_loop_spec.
Qed.

(** [move_backward] of the part [p] by one position, over the summary
    that follows it. *)
Lemma move_backward_spec (p : list CandidateSummary) :
  forall (h : CandidateSummary) (r : list CandidateSummary),
    move_backward CandidateSummary nobody (p ++ h :: r) 0 (List.length p)
    = match p with
      | [] => h :: r
      | first :: _ => first :: p ++ r
      end.
Proof.
  induction p as [|y p IH] using rev_ind; intros h r; [reflexivity|].
  rewrite length_snoc. cbn [move_backward Nat.add].
  rewrite get_snoc.
  rewrite (set_nth_middle (p ++ [y]) r h _ (List.length p + 1))
    by (rewrite length_snoc; lia).
  rewrite <- app_assoc. cbn [app]. rewrite IH.
  destruct p as [|first p]; cbn [app]; [reflexivity|].
  now rewrite <- app_assoc.
Qed.

Lemma insert_down_length (val : CandidateSummary) (reversed : list CandidateSummary) :
  List.length (insert_down val reversed) = S (List.length reversed).
Proof.
  induction reversed as [|y q IH]; cbn [insert_down]; [reflexivity|].
  destruct (summary_lt val y); cbn [List.length]; now rewrite ?IH.
Qed.

Lemma insertion_step_length (sorted : list CandidateSummary) (val : CandidateSummary) :
  List.length (insertion_step sorted val) = S (List.length sorted).
Proof.
  destruct sorted as [|first p]; [reflexivity|]. cbn [insertion_step].
  destruct (summary_lt val first); [reflexivity|].
  now rewrite length_rev, insert_down_length, length_rev.
Qed.

(** The loop of [__insertion_sort] from the end of the part [sorted]. *)
Lemma insertion_loop_spec (rest : list CandidateSummary) :
  forall sorted : list CandidateSummary,
    sorted <> [] ->
    insertion_loop CandidateSummary summary_lt nobody (List.length rest)
      (sorted ++ rest) 0 (List.length sorted)
    = fold_left insertion_step rest sorted.
Proof.
  induction rest as [|val rest IH]; intros sorted Hne.
  - cbn. apply app_nil_r.
  - cbn [List.length insertion_loop fold_left].
    rewrite get_middle, Nat.sub_0_r.
    assert (Hstep :
      (if summary_lt val (get CandidateSummary nobody (sorted ++ val :: rest) 0)
       then set_nth CandidateSummary
              (move_backward CandidateSummary nobody (sorted ++ val :: rest) 0
                 (List.length sorted)) 0 val
       else __unguarded_linear_insert CandidateSummary summary_lt nobody
              (sorted ++ val :: rest) (List.length sorted))
      = insertion_step sorted val ++ rest).
    { rewrite move_backward_spec, unguarded_linear_insert_spec.
      destruct sorted as [|first p]; [contradiction|].
      cbn [app get nth insertion_step set_nth].
      destruct (summary_lt val first); reflexivity. }
    rewrite Hstep, <- (insertion_step_length sorted val). apply IH.
    intros E. pose proof (insertion_step_length sorted val) as H.
    rewrite E in H. discriminate.
Qed.

Lemma introsort_loop_small (depth_limit : nat) (l : list CandidateSummary)
  (first last : nat) :
  (last - first <= 16)%nat ->
  __introsort_loop CandidateSummary summary_lt nobody depth_limit l first last = l.
Proof.
  intros H. apply Nat.ltb_ge in H.
  destruct depth_limit; cbn [__introsort_loop]; unfold _S_threshold; now rewrite H.
Qed.

(** Up to sixteen summaries [std::sort] is the insertion loop alone. *)
Lemma sort_summaries_insertion (l : list CandidateSummary) :
  (List.length l <= 16)%nat ->
  sort_summaries l
  = match l with
    | [] => []
    | first :: rest => fold_left insertion_step rest [first]
    end.
Proof.
  intros Hlen. destruct l as [|first rest]; [reflexivity|].
  unfold sort_summaries, std_sort.
  rewrite introsort_loop_small by lia.
  unfold __final_insertion_sort, _S_threshold.
  rewrite (proj2 (Nat.ltb_ge _ _)) by lia.
  unfold __insertion_sort. cbn [List.length Nat.eqb Nat.add Nat.sub].
  rewrite Nat.sub_0_r.
  apply (insertion_loop_spec rest [first]). discriminate.
Qed.

Lemma insert_down_perm (val : CandidateSummary) (reversed : list CandidateSummary) :
  Permutation (val :: reversed) (insert_down val reversed).
Proof.
  induction reversed as [|y q IH]; cbn [insert_down]; [apply Permutation_refl|].
  destruct (summary_lt val y); [|apply Permutation_refl].
  eapply perm_trans; [apply perm_swap | apply perm_skip, IH].
Qed.

Lemma insert_down_sorted (val : CandidateSummary) (reversed : list CandidateSummary) :
  StronglySorted (fun a b => totalVotes a <= totalVotes b) reversed ->
  StronglySorted (fun a b => totalVotes a <= totalVotes b) (insert_down val reversed).
Proof.
  induction 1 as [|y q Hq IH Hy]; cbn [insert_down].
  - repeat constructor.
  - destruct (summary_lt val y) eqn:E; unfold summary_lt in E.
    + apply Z.ltb_lt in E. constructor; [assumption|].
      apply (Permutation_Forall (insert_down_perm val q)).
      constructor; [lia | assumption].
    + apply Z.ltb_ge in E. constructor; [now constructor|].
      constructor; [assumption|].
      revert Hy. apply Forall_impl. intros z Hz. lia.
Qed.

Lemma insert_down_filter (val : CandidateSummary) (reversed : list CandidateSummary) (k : Z) :
  filter (fun s => totalVotes s =? k) (insert_down val reversed)
  = filter (fun s => totalVotes s =? k) (val :: reversed).
Proof.
  induction reversed as [|y q IH]; [reflexivity|].
  cbn [insert_down]. destruct (summary_lt val y) eqn:E; [|reflexivity].
  cbn [filter] in *. rewrite IH.
  unfold summary_lt in E. apply Z.ltb_lt in E.
  destruct (Z.eqb_spec (totalVotes y) k), (Z.eqb_spec (totalVotes val) k);
    try reflexivity. lia.
Qed.

Lemma StronglySorted_snoc {A} (R : A -> A -> Prop) (l : list A) (x : A) :
  StronglySorted R l -> Forall (fun y => R y x) l -> StronglySorted R (l ++ [x]).
Proof.
  induction 1 as [|y l Hl IH Hy]; intros Hx; cbn [app].
  - repeat constructor.
  - inversion Hx; subst. constructor; [now apply IH|].
    apply Forall_app. split; [assumption | now constructor].
Qed.

Lemma StronglySorted_rev {A} (R : A -> A -> Prop) (l : list A) :
  StronglySorted R l -> StronglySorted (fun a b => R b a) (rev l).
Proof.
  induction 1 as [|x l Hl IH Hx]; cbn [rev]; [constructor|].
  apply StronglySorted_snoc; [assumption|].
  apply Forall_rev. assumption.
Qed.

Lemma filter_rev_eq {A} (f : A -> bool) (l : list A) :
  filter f (rev l) = rev (filter f l).
Proof.
  induction l as [|x l IH]; [reflexivity|].
  cbn [rev filter]. rewrite filter_app, IH. cbn [filter].
  destruct (f x); [reflexivity | apply app_nil_r].
Qed.

(** One iteration keeps the part sorted and puts [val] after the summaries
    of its own total. *)
Lemma insertion_step_spec (sorted : list CandidateSummary) (val : CandidateSummary) :
  sorted_desc sorted ->
  Permutation (sorted ++ [val]) (insertion_step sorted val)
  /\ sorted_desc (insertion_step sorted val)
  /\ forall k, filter (fun s => totalVotes s =? k) (insertion_step sorted val)
               = filter (fun s => totalVotes s =? k) (sorted ++ [val]).
Proof.
  unfold sorted_desc. intros Hs.
  destruct sorted as [|first p]; [repeat split; repeat constructor|].
  cbn [insertion_step]. destruct (summary_lt val first) eqn:E.
  - unfold summary_lt in E. apply Z.ltb_lt in E.
    assert (Hall : Forall (fun y => totalVotes y < totalVotes val) (first :: p)).
    { inversion Hs as [|? ? _ Hf]; subst. constructor; [assumption|].
      revert Hf. apply Forall_impl. intros z Hz. lia. }
    split; [|split].
    + apply Permutation_sym, Permutation_cons_append.
    + constructor; [assumption|].
      revert Hall. apply Forall_impl. intros z Hz. lia.
    + intros k. rewrite filter_app.
      remember (first :: p) as part eqn:Epart. cbn [filter].
      destruct (Z.eqb_spec (totalVotes val) k) as [<-|Hk];
        [|now rewrite app_nil_r].
      rewrite (filter_none (fun s => totalVotes s =? totalVotes val) part);
        [reflexivity|].
      intros z Hz. rewrite Forall_forall in Hall. specialize (Hall z Hz).
      apply Z.eqb_neq. lia.
  - split; [|split].
    + eapply perm_trans; [apply Permutation_rev|]. rewrite rev_unit.
      eapply perm_trans; [apply insert_down_perm | apply Permutation_rev].
    + apply (StronglySorted_rev (fun a b => totalVotes a <= totalVotes b)).
      apply insert_down_sorted.
      apply (StronglySorted_rev (fun a b => totalVotes b <= totalVotes a)).
      assumption.
    + intros k. rewrite filter_rev_eq, insert_down_filter.
      now rewrite <- rev_unit, filter_rev_eq, rev_involutive.
Qed.

Lemma insertion_fold_spec (rest : list CandidateSummary) :
  forall sorted : list CandidateSummary,
    sorted_desc sorted ->
    Permutation (sorted ++ rest) (fold_left insertion_step rest sorted)
    /\ sorted_desc (fold_left insertion_step rest sorted)
    /\ forall k, filter (fun s => totalVotes s =? k) (fold_left insertion_step rest sorted)
                 = filter (fun s => totalVotes s =? k) (sorted ++ rest).
Proof.
  induction rest as [|val rest IH]; intros sorted Hs; cbn [fold_left].
  - rewrite app_nil_r. repeat split; [apply Permutation_refl | assumption].
  - destruct (insertion_step_spec sorted val Hs) as (Hp & Hs' & Hf).
    destruct (IH _ Hs') as (IHp & IHs & IHf).
    split; [|split].
    + eapply perm_trans; [|apply IHp].
      change (sorted ++ val :: rest) with (sorted ++ [val] ++ rest).
      rewrite app_assoc. now apply Permutation_app_tail.
    + assumption.
    + intros k. rewrite IHf, filter_app, Hf.
      change (sorted ++ val :: rest) with (sorted ++ [val] ++ rest).
      now rewrite app_assoc, (filter_app _ (sorted ++ [val])).
Qed.

(** Up to sixteen summaries [std::sort] rearranges the vector into
    non-increasing order of totals and keeps the summaries of every total
    in their order. *)
Lemma sort_summaries_small (l : list CandidateSummary) :
  (List.length l <= 16)%nat ->
  Permutation l (sort_summaries l)
  /\ sorted_desc (sort_summaries l)
  /\ forall k, filter (fun s => totalVotes s =? k) (sort_summaries l)
               = filter (fun s => totalVotes s =? k) l.
Proof.
  intros Hlen. rewrite (sort_summaries_insertion l Hlen).
  destruct l as [|first rest].
  - repeat split; constructor.
  - apply (insertion_fold_spec rest [first]). repeat constructor.
Qed.

End SmallVectors.

(** X21.  On a vector of at most sixteen summaries, [std::sort] as libstdc++
    implements it is the insertion loop alone: the result is a
    rearrangement of the vector, no summary comes after one that it is
    [operator<] (the totals are non-increasing), and the summaries of every
    total keep the order they had in the vector, as with a stable sort. *)
Theorem std_sort_up_to_sixteen (l : list CandidateSummary) :
  (List.length l <= 16)%nat ->
  sort_summaries l
  = match l with
    | [] => []
    | first :: rest => fold_left insertion_step rest [first]
    end
  /\ Permutation l (sort_summaries l)
  /\ StronglySorted (fun a b => summary_lt b a = false) (sort_summaries l)
  /\ sorted_desc (sort_summaries l)
  /\ forall k, filter (fun s => totalVotes s =? k) (sort_summaries l)
               = filter (fun s => totalVotes s =? k) l.
Proof.
  intros Hlen. destruct (sort_summaries_small l Hlen) as (Hp & Hs & Hf).
  split; [now apply sort_summaries_insertion|].
  split; [assumption|]. split; [|split; assumption].
  revert Hs. apply StronglySorted_weaken. intros a b H.
  unfold summary_lt. now apply Z.ltb_ge.
Qed.

Lemma std_sort_up_to_sixteen_witness :
  sort_summaries
    [ mkSummary "B" "PartyY" 10; mkSummary "A" "PartyX" 30; mkSummary "C" "PartyZ" 10 ]
  = [ mkSummary "A" "PartyX" 30; mkSummary "B" "PartyY" 10; mkSummary "C" "PartyZ" 10 ]
  /\ sorted_desc
       (sort_summaries
          [ mkSummary "B" "PartyY" 10; mkSummary "A" "PartyX" 30;
            mkSummary "C" "PartyZ" 10 ]).
Proof.
  split; [vm_compute; reflexivity|].
  refine (proj1 (proj2 (proj2 (proj2 (std_sort_up_to_sixteen _ _))))).
  simpl. lia.
Defined.



(* ================================================================== *)
(** ** The examples of the specification *)

Example overview_example : showDataOverview sample_votes = (3%nat, 180).
Proof. reflexivity. Qed.

Example overview_empty : showDataOverview [] = (0%nat, 0).
Proof. reflexivity. Qed.

Example national_example :
  showNationalResults insertion_sort sample_votes
  = [ ("A", "PartyX", 150); ("B", "PartyY", 30) ].
Proof. reflexivity. Qed.

Example state_example :
  sortedSummaries (showStateResults insertion_sort sample_votes "Ohio")
  = getCandidateSummaries insertion_sort sample_votes
  /\ printedRows (showStateResults insertion_sort sample_votes "Ohio")
     = [ (mkSummary "A" "PartyX" 150, 0); (mkSummary "B" "PartyY" 30, 0) ]
  /\ lengthError (showStateResults insertion_sort sample_votes "Ohio") = None.
Proof. vm_compute. repeat split. Qed.

(** With a negative total in the state the chart is cut short: the row of
    A is printed, the bar of B cannot be built, the row of C is never
    reached. *)
Example state_length_error :
  showStateResults sort_summaries negative_votes "ohio"
  = mkStateResults
      [ mkSummary "A" "PartyX" 300000; mkSummary "B" "PartyY" (-75000);
        mkSummary "C" "PartyZ" (-80000) ]
      [ (mkSummary "A" "PartyX" 300000, 2) ]
      (Some (mkSummary "B" "PartyY" (-75000)))
  /\ showStateResults insertion_sort negative_votes "ohio"
     = showStateResults sort_summaries negative_votes "ohio".
Proof. vm_compute. repeat split. Qed.

(** The libstdc++ routine on the samples: equal to the insertion sort up to
    sixteen summaries. *)
Example sort_summaries_example :
  getCandidateSummaries sort_summaries sample_votes
  = [ mkSummary "A" "PartyX" 150; mkSummary "B" "PartyY" 30 ]
  /\ getCandidateSummaries sort_summaries tied_votes
     = [ mkSummary "A" "PartyX" 10; mkSummary "B" "PartyY" 10 ]
  /\ getCandidateSummaries sort_summaries tied_votes
     = getCandidateSummaries insertion_sort tied_votes.
Proof. vm_compute. repeat split. Qed.

Example candidate_example :
  candidateName (showCandidateResults sample_votes "a") = "A"
  /\ nth 34 (map fst (rows (showCandidateResults sample_votes "a"))) ("", (0, 0))
     = ("OHIO", (150, 180))
  /\ bestState (showCandidateResults sample_votes "a") = "OHIO"
  /\ bestPercentage (showCandidateResults sample_votes "a")
     = S754_finite false 5864062014805333 (-46).
Proof. vm_compute. repeat split. Qed.

Example county_example :
  let cook := mkVotes "ILLINOIS" "Cook" "A" "PartyX" 7 in
  showCountySearch [cook] "cook" = [cook]
  /\ showCountySearch [cook] "CO" = [cook]
  /\ showCountySearch [cook] "ok" = [cook]
  /\ showCountySearch [cook] "xyz123" = [].
Proof. repeat split. Qed.

Example bars_examples : bars 75000 = 1 /\ bars 74999 = 0 /\ bars 0 = 0.
Proof. vm_compute. repeat split. Qed.

(* ================================================================== *)
(** ** Reading the file: [getline] *)

Lemma split_at_found (delim : ascii) (field rest : string) :
  has_char delim field = false ->
  split_at delim (field ++ String delim rest)%string = (field, Some rest).
Proof.
  induction field as [|c field IH]; simpl; intros H.
  - now rewrite Ascii.eqb_refl.
  - apply orb_false_iff in H. destruct H as [Hc Hf].
    rewrite Hc, (IH Hf). reflexivity.
Qed.

Lemma split_at_none (delim : ascii) (s : string) :
  has_char delim s = false -> split_at delim s = (s, None).
Proof.
  induction s as [|c s IH]; simpl; intros H; [reflexivity|].
  apply orb_false_iff in H. destruct H as [Hc Hs].
  rewrite Hc, (IH Hs). reflexivity.
Qed.

Lemma split_at_shorter (delim : ascii) (s field rest : string) :
  split_at delim s = (field, Some rest) ->
  (String.length rest < String.length s)%nat.
Proof.
  revert field. induction s as [|c s IH]; simpl; intros field H; [discriminate|].
  destruct (Ascii.eqb c delim).
  - inversion H; subst. lia.
  - destruct (split_at delim s) as [f [r|]] eqn:E; inversion H; subst.
    specialize (IH f eq_refl). lia.
Qed.

Lemma getline_settled file str delim :
  settled file ->
  settled (fst (getline file str delim))
  /\ (String.length (buffer (fst (getline file str delim)))
      <= String.length (buffer file))%nat.
Proof.
  unfold settled, getline. intros H.
  destruct (eofbit file) eqn:Ee; cbn [orb fst eofbit failbit buffer].
  - split; [now left | lia].
  - destruct H as [H|H]; [discriminate|]. rewrite H. cbn [fst].
    destruct (split_at delim (buffer file)) as [field [rest|]] eqn:E;
      cbn [fst eofbit failbit buffer].
    + split; [now right|]. apply split_at_shorter in E. lia.
    + split; [now left | simpl; lia].
Qed.

Lemma getline_consumes file str delim :
  eofbit file = false -> failbit file = false ->
  eofbit (fst (getline file str delim)) = false ->
  (String.length (buffer (fst (getline file str delim)))
   < String.length (buffer file))%nat.
Proof.
  unfold getline. intros -> ->. cbn [orb].
  destruct (split_at delim (buffer file)) as [field [rest|]] eqn:E;
    cbn [fst eofbit buffer]; [|discriminate].
  intros _. now apply split_at_shorter in E.
Qed.

(** With a good stream and a field followed by its delimiter, [getline]
    returns the field and leaves what follows the delimiter. *)
Lemma getline_field (field rest str : string) (delim : ascii) :
  has_char delim field = false ->
  getline (mkStream (field ++ String delim rest)%string false false) str delim
  = (mkStream rest false false, field).
Proof.
  intros H. unfold getline. cbn [eofbit failbit buffer orb].
  now rewrite split_at_found.
Qed.

(* ================================================================== *)
(** ** Reading the file: the loop *)

Lemma readLoop_unfold fuel file vars votes :
  readLoop (S fuel) file vars votes =
  if eofbit file then Loaded votes
  else
    if eofbit (fst (getline file (f_state vars) ","))
    then Loaded votes
    else
      let file1 := fst (getline file (f_state vars) ",") in
      let file2 := fst (getline file1 (f_county vars) ",") in
      let file3 := fst (getline file2 (f_candidate vars) ",") in
      let file4 := fst (getline file3 (f_party vars) ",") in
      let file5 := fst (getline file4 (f_votesStr vars) "010") in
      let state := snd (getline file (f_state vars) ",") in
      let county := snd (getline file1 (f_county vars) ",") in
      let candidate := snd (getline file2 (f_candidate vars) ",") in
      let party := snd (getline file3 (f_party vars) ",") in
      let votesStr := snd (getline file4 (f_votesStr vars) "010") in
      match stoi votesStr with
      | inr e => Thrown e
      | inl voteCount =>
          readLoop fuel file5 (mkFields state county candidate party votesStr)
            (votes ++ [mkVotes state county candidate party voteCount])
      end.
Proof.
  cbn [readLoop]. destruct (eofbit file); [reflexivity|].
  destruct (getline file (f_state vars) ",") as [file1 state]. cbn [fst snd].
  destruct (eofbit file1); [reflexivity|].
  destruct (getline file1 (f_county vars) ",") as [file2 county]. cbn [fst snd].
  destruct (getline file2 (f_candidate vars) ",") as [file3 candidate]. cbn [fst snd].
  destruct (getline file3 (f_party vars) ",") as [file4 party]. cbn [fst snd].
  destruct (getline file4 (f_votesStr vars) "010") as [file5 votesStr]. reflexivity.
Qed.

(** On a settled stream the loop ends within one iteration more than there
    are characters left. *)
Lemma readLoop_finishes fuel : forall file vars votes,
  settled file ->
  (String.length (buffer file) < fuel)%nat ->
  readLoop fuel file vars votes <> Unfinished.
Proof.
  induction fuel as [|fuel IH]; intros file vars votes Hs Hlen; [lia|].
  rewrite readLoop_unfold.
  destruct (eofbit file) eqn:Ee; [discriminate|].
  destruct (eofbit (fst (getline file (f_state vars) ","))) eqn:E1; [discriminate|].
  cbv zeta. destruct (stoi _); [|discriminate].
  assert (Hf : failbit file = false) by (destruct Hs as [Hs|Hs]; congruence).
  pose proof (getline_consumes file (f_state vars) "," Ee Hf E1) as Hc.
  destruct (getline_settled file (f_state vars) "," Hs) as [S1 _].
  set (file1 := fst (getline file (f_state vars) ",")) in *.
  destruct (getline_settled file1 (f_county vars) "," S1) as [S2 L2].
  set (file2 := fst (getline file1 (f_county vars) ",")) in *.
  destruct (getline_settled file2 (f_candidate vars) "," S2) as [S3 L3].
  set (file3 := fst (getline file2 (f_candidate vars) ",")) in *.
  destruct (getline_settled file3 (f_party vars) "," S3) as [S4 L4].
  set (file4 := fst (getline file3 (f_party vars) ",")) in *.
  destruct (getline_settled file4 (f_votesStr vars) "010" S4) as [S5 L5].
  apply IH; [assumption | lia].
Qed.

(** More iterations than needed change nothing. *)
Lemma readLoop_more_fuel fuel : forall file vars votes extra,
  readLoop fuel file vars votes <> Unfinished ->
  readLoop (fuel + extra) file vars votes = readLoop fuel file vars votes.
Proof.
  induction fuel as [|fuel IH]; intros file vars votes extra H.
  - now contradiction H.
  - change (S fuel + extra)%nat with (S (fuel + extra)).
    rewrite !readLoop_unfold in *.
    destruct (eofbit file); [reflexivity|].
    destruct (eofbit (fst (getline file (f_state vars) ","))); [reflexivity|].
    cbv zeta in *. destruct (stoi _); [|reflexivity].
    now apply IH.
Qed.

Lemma readLoop_fuel_agree fuel1 fuel2 file vars votes :
  readLoop fuel1 file vars votes <> Unfinished ->
  readLoop fuel2 file vars votes <> Unfinished ->
  readLoop fuel1 file vars votes = readLoop fuel2 file vars votes.
Proof.
  intros H1 H2.
  rewrite <- (readLoop_more_fuel fuel1 file vars votes fuel2 H1).
  rewrite <- (readLoop_more_fuel fuel2 file vars votes fuel1 H2).
  now rewrite Nat.add_comm.
Qed.

(** X7.  The loader always comes to an end: whatever the file holds, the
    loop stops within one iteration more than the file has characters,
    returning records or leaving by an exception of [stoi].  A file that
    cannot be opened is not reported as such: the first [stoi] is given
    the empty string and throws [invalid_argument]. *)
Theorem readVotesFromFile_finishes (content : option string) :
  readVotesFromFile content <> Unfinished
  /\ readVotesFromFile None = Thrown invalid_argument.
Proof.
  split; [|reflexivity].
  destruct content as [text|]; [|discriminate].
  unfold readVotesFromFile. apply readLoop_finishes.
  - right. reflexivity.
  - simpl. lia.
Qed.

Lemma render_app (vote : Votes) (count tail : string) :
  (render vote count ++ tail)%string
  = (getState vote ++ String ","
       (getCounty vote ++ String ","
          (getCandidate vote ++ String ","
             (getParty vote ++ String "," (count ++ String "010" tail)))))%string.
Proof.
  unfold render. rewrite !string_app_assoc. reflexivity.
Qed.

(** One iteration on a complete line. *)
Lemma readLoop_line fuel vote count tail vars votes :
  comma_free vote -> has_char "010" count = false ->
  readLoop (S fuel) (mkStream (render vote count ++ tail)%string false false)
    vars votes
  = match stoi count with
    | inr e => Thrown e
    | inl voteCount =>
        readLoop fuel (mkStream tail false false) (fields_of vote count)
          (votes ++ [with_count vote voteCount])
    end.
Proof.
  intros (H1 & H2 & H3 & H4) H5.
  rewrite readLoop_unfold, render_app. cbn [eofbit].
  rewrite (getline_field _ _ _ _ H1). cbn [fst snd eofbit]. cbv zeta.
  rewrite (getline_field _ _ _ _ H2). cbn [fst snd].
  rewrite (getline_field _ _ _ _ H3). cbn [fst snd].
  rewrite (getline_field _ _ _ _ H4). cbn [fst snd].
  rewrite (getline_field _ _ _ _ H5). cbn [fst snd].
  reflexivity.
Qed.

Lemma last_fields_cons vars vote count lines :
  last_fields vars ((vote, count) :: lines)
  = last_fields (fields_of vote count) lines.
Proof.
  unfold last_fields. cbn [rev].
  destruct (rev lines) as [|[v c] l]; reflexivity.
Qed.

Lemma readLoop_lines lines : forall read fuel tail vars votes,
  reads_as lines read ->
  readLoop (List.length lines + fuel) (mkStream (render_all lines ++ tail)%string false false)
    vars votes
  = readLoop fuel (mkStream tail false false) (last_fields vars lines)
      (votes ++ read).
Proof.
  induction lines as [|[vote count] lines IH]; intros read fuel tail vars votes Hr;
    inversion Hr; subst.
  - cbn. now rewrite app_nil_r.
  - cbn [render_all List.length Nat.add]. rewrite string_app_assoc.
    rewrite readLoop_line by assumption.
    match goal with H : stoi count = _ |- _ => rewrite H end.
    rewrite (IH votes0) by assumption.
    rewrite last_fields_cons, <- app_assoc. reflexivity.
Qed.

(** At the end of the input, or before characters without a comma, the
    loop returns. *)
Lemma readLoop_tail fuel tail vars votes :
  has_char "," tail = false ->
  readLoop (S fuel) (mkStream tail false false) vars votes = Loaded votes.
Proof.
  intros H. rewrite readLoop_unfold. cbn [eofbit].
  unfold getline. cbn [eofbit failbit buffer orb].
  rewrite (split_at_none _ _ H). reflexivity.
Qed.

Lemma loaded_by_some_fuel content fuel result :
  readLoop fuel (open (Some content)) (mkFields "" "" "" "" "") [] = result ->
  result <> Unfinished ->
  readVotesFromFile (Some content) = result.
Proof.
  intros <- Hr. unfold readVotesFromFile.
  apply readLoop_fuel_agree; [|assumption].
  apply readLoop_finishes; [right; reflexivity | simpl; lia].
Qed.

(** Complete lines followed by text without a comma. *)
Lemma loaded_lines lines read tail :
  reads_as lines read ->
  has_char "," tail = false ->
  readVotesFromFile (Some (render_all lines ++ tail)%string) = Loaded read.
Proof.
  intros Hr Ht.
  apply (loaded_by_some_fuel _ (List.length lines + 1)); [|discriminate].
  cbn [open]. rewrite (readLoop_lines lines read) by assumption.
  now rewrite readLoop_tail.
Qed.

(** X2.  A file of complete lines, each with four comma-free text fields
    and a fifth field that [stoi] accepts, loads as one record per line, in
    order, whose count is what [stoi] makes of the fifth field: blanks
    before the number and any text after its digits (a carriage return,
    say) are ignored.  Text without a comma after the last line (blank
    lines, a stray word) is dropped. *)
Theorem readVotesFromFile_lines lines read tail :
  reads_as lines read ->
  has_char "," tail = false ->
  readVotesFromFile (Some (render_all lines ++ tail)%string) = Loaded read.
Proof. apply loaded_lines. Qed.

Lemma readVotesFromFile_lines_witness :
  readVotesFromFile
    (Some (render_all [(mkVotes "OHIO" "Cuyahoga" "A" "PartyX" 0,
                        String " " ("100" ++ String "013" ""))]
           ++ String "010" "")%string)
  = Loaded [mkVotes "OHIO" "Cuyahoga" "A" "PartyX" 100].
Proof.
  apply (readVotesFromFile_lines
           [(mkVotes "OHIO" "Cuyahoga" "A" "PartyX" 0,
             String " " ("100" ++ String "013" ""))%string]
           [with_count (mkVotes "OHIO" "Cuyahoga" "A" "PartyX" 0) 100]
           (String "010" "")).
  - constructor; [repeat split | reflexivity | reflexivity | constructor].
  - reflexivity.
Defined.

Lemma unterminated_shape (vote : Votes) (count : string) :
  unterminated vote count
  = (getState vote ++ String ","
       (getCounty vote ++ String ","
          (getCandidate vote ++ String "," (getParty vote ++ String "," count))))%string.
Proof. reflexivity. Qed.

(** X3.  A last line without its final newline is read like the others:
    the record is kept. *)
Theorem readVotesFromFile_unterminated lines read vote count voteCount :
  reads_as lines read ->
  comma_free vote -> has_char "010" count = false ->
  stoi count = inl voteCount ->
  readVotesFromFile (Some (render_all lines ++ unterminated vote count)%string)
  = Loaded (read ++ [with_count vote voteCount]).
Proof.
  intros Hr (H1 & H2 & H3 & H4) H5 Hs.
  apply (loaded_by_some_fuel _ (List.length lines + 2)); [|discriminate].
  cbn [open]. rewrite (readLoop_lines lines read) by assumption.
  rewrite readLoop_unfold, unterminated_shape. cbn [eofbit].
  rewrite (getline_field _ _ _ _ H1). cbn [fst snd eofbit]. cbv zeta.
  rewrite (getline_field _ _ _ _ H2). cbn [fst snd].
  rewrite (getline_field _ _ _ _ H3). cbn [fst snd].
  rewrite (getline_field _ _ _ _ H4). cbn [fst snd].
  unfold getline at 1 2. cbn [eofbit failbit buffer orb].
  rewrite (split_at_none _ _ H5). cbn [fst snd]. rewrite Hs.
  reflexivity.
Qed.

(** X4.  A line whose fifth field [stoi] rejects (no digit where a number
    is expected, or a number that is no [int]) ends the load with that
    exception, whatever was read before and whatever follows: no record is
    returned. *)
Theorem readVotesFromFile_bad_count lines read vote count e rest :
  reads_as lines read ->
  comma_free vote -> has_char "010" count = false ->
  stoi count = inr e ->
  readVotesFromFile (Some (render_all lines ++ render vote count ++ rest)%string)
  = Thrown e.
Proof.
  intros Hr Hv Hc Hs.
  apply (loaded_by_some_fuel _ (List.length lines + 1)); [|discriminate].
  cbn [open]. rewrite (readLoop_lines lines read) by assumption.
  rewrite readLoop_line by assumption. now rewrite Hs.
Qed.

(** X5.  A last line cut off in its second field is not dropped: it gives
    a record with its own state and county and with the candidate, the
    party and the count of the line before it, because the strings of the
    loop keep their values when a read fails.  As the only line of the
    file it makes [stoi] throw [invalid_argument]. *)
Theorem readVotesFromFile_truncated lines read vote count voteCount state county :
  reads_as lines read ->
  comma_free vote -> has_char "010" count = false ->
  stoi count = inl voteCount ->
  has_char "," state = false -> has_char "," county = false ->
  readVotesFromFile
    (Some (render_all lines ++ render vote count ++ state ++ "," ++ county)%string)
  = Loaded (read ++ [with_count vote voteCount;
                     mkVotes state county (getCandidate vote) (getParty vote)
                       voteCount])
  /\ readVotesFromFile (Some (state ++ "," ++ county)%string)
     = Thrown invalid_argument.
Proof.
  intros Hr Hv Hc Hs H1 H2.
  assert (Hstep : forall fuel vars votes,
            readLoop (S (S fuel))
              (mkStream (state ++ String "," county)%string false false) vars votes
            = match stoi (f_votesStr vars) with
              | inr e => Thrown e
              | inl n =>
                  Loaded (votes ++ [mkVotes state county (f_candidate vars)
                                      (f_party vars) n])
              end).
  { intros fuel vars votes. rewrite readLoop_unfold. cbn [eofbit].
    rewrite (getline_field _ _ _ _ H1). cbn [fst snd eofbit]. cbv zeta.
    unfold getline. cbn [eofbit failbit buffer orb].
    rewrite (split_at_none _ _ H2). cbn [fst snd eofbit failbit buffer orb].
    destruct (stoi (f_votesStr vars)); reflexivity. }
  split.
  - apply (loaded_by_some_fuel _ (List.length lines + 3)); [|discriminate].
    cbn [open]. rewrite (readLoop_lines lines read) by assumption.
    rewrite readLoop_line by assumption. rewrite Hs.
    change ("," ++ county)%string with (String "," county).
    rewrite Hstep. cbn [fields_of f_votesStr f_candidate f_party]. rewrite Hs.
    now rewrite <- app_assoc.
  - apply (loaded_by_some_fuel _ 2); [|discriminate].
    cbn [open]. change ("," ++ county)%string with (String "," county).
    now rewrite Hstep.
Qed.

(* ================================================================== *)
(** ** [stoi] *)

Lemma stoi_in_range (str : string) (n : Z) : stoi str = inl n -> in_range n.
Proof.
  unfold stoi.
  destruct (match skip_spaces str with
            | String "-" rest => (true, rest)
            | String "+" rest => (false, rest)
            | _ => (false, skip_spaces str)
            end) as [negative digits].
  destruct (read_digits digits 0 false) as [m|]; [|discriminate].
  destruct (andb _ _) eqn:E; [|discriminate].
  intros H. inversion H; subst. apply andb_true_iff in E.
  unfold in_range. destruct E as [E1 E2].
  apply Z.leb_le in E1, E2. lia.
Qed.

Lemma readLoop_wf fuel : forall file vars votes result,
  votes_wf votes ->
  readLoop fuel file vars votes = Loaded result -> votes_wf result.
Proof.
  induction fuel as [|fuel IH]; intros file vars votes result Hwf; [discriminate|].
  rewrite readLoop_unfold.
  destruct (eofbit file); [intros H; inversion H; now subst|].
  destruct (eofbit (fst (getline file (f_state vars) ",")));
    [intros H; inversion H; now subst|].
  cbv zeta. destruct (stoi _) as [n|e] eqn:Es; [|discriminate].
  apply IH. apply Forall_app. split; [assumption|].
  constructor; [|constructor]. cbn [getVoteCount]. now apply stoi_in_range in Es.
Qed.

(** X6.  Every record the loader returns holds a count within the range of
    [int]: a count outside it makes [stoi] throw instead. *)
Theorem readVotesFromFile_wf content votes :
  readVotesFromFile content = Loaded votes -> votes_wf votes.
Proof. apply readLoop_wf. constructor. Qed.

Lemma readVotesFromFile_wf_witness :
  readVotesFromFile (Some (encode sample_votes)) = Loaded sample_votes
  /\ votes_wf sample_votes.
Proof.
  assert (H : readVotesFromFile (Some (encode sample_votes)) = Loaded sample_votes)
    by (vm_compute; reflexivity).
  split; [exact H|].
  exact (readVotesFromFile_wf (Some (encode sample_votes)) sample_votes H).
Defined.

(* ================================================================== *)
(** ** Decimal texts *)

Lemma digit_cases (d : Z) :
  0 <= d <= 9 ->
  d = 0 \/ d = 1 \/ d = 2 \/ d = 3 \/ d = 4 \/ d = 5 \/ d = 6 \/ d = 7 \/ d = 8 \/ d = 9.
Proof. lia. Qed.

Ltac each_digit H :=
  apply digit_cases in H;
  repeat (destruct H as [H|H]; [subst|]); subst.

Lemma digit_of_char (d : Z) :
  0 <= d <= 9 -> digit_of (ascii_of_nat (48 + Z.to_nat d)) = Some d.
Proof. intros H. each_digit H; reflexivity. Qed.

Lemma digit_char_plain (d : Z) :
  0 <= d <= 9 ->
  let c := ascii_of_nat (48 + Z.to_nat d) in
  isspace c = false /\ Ascii.eqb c "," = false /\ Ascii.eqb c "010" = false
  /\ Ascii.eqb c "-" = false /\ Ascii.eqb c "+" = false.
Proof. intros H. each_digit H; repeat split. Qed.

Lemma read_show_digits fuel : forall n tail any,
  0 <= n < 10 ^ Z.of_nat (S fuel) ->
  read_digits (show_digits (S fuel) n tail) 0 any = read_digits tail n true.
Proof.
  induction fuel as [|fuel IH]; intros n tail any Hn.
  - change (10 ^ Z.of_nat 1) with 10 in Hn. cbn [show_digits].
    destruct (Z.ltb_spec n 10); [|lia].
    rewrite Z.mod_small by lia. cbn [read_digits].
    rewrite digit_of_char by lia. f_equal; lia.
  - cbn [show_digits]. destruct (Z.ltb_spec n 10) as [Hlt|Hge].
    + rewrite Z.mod_small by lia. cbn [read_digits].
      rewrite digit_of_char by lia. f_equal; lia.
    + change (show_digits fuel (n / 10 / 10) _) with
        (show_digits fuel (n / 10 / 10)
           (String (ascii_of_nat (48 + Z.to_nat (n / 10 mod 10)))
              (String (ascii_of_nat (48 + Z.to_nat (n mod 10))) tail))).
      change (if n / 10 <? 10 then ?a else ?b) with
        (show_digits (S fuel) (n / 10)
           (String (ascii_of_nat (48 + Z.to_nat (n mod 10))) tail)).
      rewrite IH.
      * cbn [read_digits]. rewrite digit_of_char by (pose proof (Z.mod_pos_bound n 10); lia).
        pose proof (Z.div_mod n 10). f_equal; lia.
      * split; [apply Z.div_pos; lia|].
        apply Z.div_lt_upper_bound; [lia|].
        rewrite Nat2Z.inj_succ, Z.pow_succ_r in Hn by lia. lia.
Qed.

Lemma show_digits_head fuel : forall n tail,
  exists d rest,
    0 <= d <= 9 /\ show_digits (S fuel) n tail
                   = String (ascii_of_nat (48 + Z.to_nat d)) rest.
Proof.
  induction fuel as [|fuel IH]; intros n tail.
  - exists (n mod 10), tail. split; [pose proof (Z.mod_pos_bound n 10); lia|].
    cbn [show_digits]. now destruct (n <? 10).
  - cbn [show_digits]. destruct (n <? 10).
    + exists (n mod 10), tail. split; [pose proof (Z.mod_pos_bound n 10); lia|].
      reflexivity.
    + apply (IH (n / 10)).
Qed.

Lemma show_digits_plain (c : ascii) fuel : forall n tail,
  (forall d, 0 <= d <= 9 -> Ascii.eqb (ascii_of_nat (48 + Z.to_nat d)) c = false) ->
  has_char c (show_digits fuel n tail) = has_char c tail.
Proof.
  induction fuel as [|fuel IH]; intros n tail Hc; [reflexivity|].
  cbn [show_digits].
  assert (Hd : Ascii.eqb (ascii_of_nat (48 + Z.to_nat (n mod 10))) c = false)
    by (apply Hc; pose proof (Z.mod_pos_bound n 10); lia).
  destruct (n <? 10).
  - cbn [has_char]. now rewrite Hd.
  - rewrite IH by assumption. cbn [has_char]. now rewrite Hd.
Qed.

Lemma show_int_plain (z : Z) :
  has_char "," (show_int z) = false /\ has_char "010" (show_int z) = false.
Proof.
  unfold show_int. destruct (z <? 0); cbn [has_char Ascii.eqb Bool.eqb orb];
    split; rewrite show_digits_plain; try reflexivity;
    intros d Hd; now apply digit_char_plain.
Qed.

(** [stoi] reads back an [int] written in decimal. *)
Lemma stoi_show_int (z : Z) : in_range z -> stoi (show_int z) = inl z.
Proof.
  unfold in_range, INT_MIN, INT_MAX. intros Hz.
  assert (Hpow : 10 ^ Z.of_nat 10 = 10000000000) by reflexivity.
  unfold show_int. destruct (Z.ltb_spec z 0) as [Hneg|Hpos].
  - unfold stoi. cbn [skip_spaces]. change (isspace "-") with false. cbv iota.
    rewrite read_show_digits by lia. cbn [read_digits].
    replace (- - z) with z by lia.
    unfold INT_MIN, INT_MAX.
    destruct (Z.leb_spec (-2147483648) z); [|lia].
    destruct (Z.leb_spec z 2147483647); [|lia]. reflexivity.
  - destruct (show_digits_head 9 z "") as (d & rest & Hd & Hshow).
    assert (Hread : read_digits (show_digits 10 z "") 0 false = Some z).
    { rewrite read_show_digits by lia. reflexivity. }
    rewrite Hshow in *.
    assert (Hstoi : stoi (String (ascii_of_nat (48 + Z.to_nat d)) rest)
                    = match read_digits (String (ascii_of_nat (48 + Z.to_nat d)) rest)
                              0 false with
                      | None => inr invalid_argument
                      | Some n =>
                          if andb (INT_MIN <=? n) (n <=? INT_MAX)
                          then inl n else inr out_of_range
                      end).
    { clear Hread Hshow. each_digit Hd; reflexivity. }
    rewrite Hstoi, Hread. unfold INT_MIN, INT_MAX.
    destruct (Z.leb_spec (-2147483648) z); [|lia].
    destruct (Z.leb_spec z 2147483647); [|lia]. reflexivity.
Qed.

Lemma with_count_same (vote : Votes) : with_count vote (getVoteCount vote) = vote.
Proof. now destruct vote. Qed.

Lemma encode_reads_as (votes : list Votes) :
  votes_wf votes -> Forall comma_free votes ->
  reads_as (map (fun vote => (vote, show_int (getVoteCount vote))) votes) votes.
Proof.
  intros Hwf Hc. induction votes as [|v votes IH]; [constructor|].
  inversion Hwf; inversion Hc; subst. cbn [map].
  rewrite <- (with_count_same v) at 3.
  constructor; auto.
  - apply show_int_plain.
  - now apply stoi_show_int.
Qed.

(** X1.  Round trip: records with [int] counts and without a comma in
    their text fields, written one per line with the count in decimal, are
    loaded back unchanged and in order, whether or not text without a comma
    (blank lines, for instance) follows the last line. *)
Theorem readVotesFromFile_encode (votes : list Votes) (tail : string) :
  votes_wf votes -> Forall comma_free votes ->
  has_char "," tail = false ->
  readVotesFromFile (Some (encode votes ++ tail)%string) = Loaded votes.
Proof.
  intros Hwf Hc Ht. unfold encode.
  apply loaded_lines; [now apply encode_reads_as | assumption].
Qed.

Lemma sample_votes_comma_free : Forall comma_free sample_votes.
Proof. repeat constructor. Qed.

Lemma readVotesFromFile_encode_witness :
  readVotesFromFile (Some (encode sample_votes ++ String "010" "")%string)
  = Loaded sample_votes.
Proof.
  apply (readVotesFromFile_encode sample_votes (String "010" "")
           sample_votes_wf sample_votes_comma_free).
  reflexivity.
Defined.

Lemma sample_reads_as :
  reads_as [(mkVotes "A" "B" "C" "D" 5, "5")] [mkVotes "A" "B" "C" "D" 5].
Proof.
  change [mkVotes "A" "B" "C" "D" 5] with [with_count (mkVotes "A" "B" "C" "D" 5) 5].
  constructor; [repeat split | reflexivity | reflexivity | constructor].
Qed.

Lemma readVotesFromFile_unterminated_witness :
  readVotesFromFile
    (Some (render_all [(mkVotes "A" "B" "C" "D" 5, "5")]
           ++ unterminated (mkVotes "E" "F" "G" "H" 0) "6")%string)
  = Loaded [mkVotes "A" "B" "C" "D" 5; mkVotes "E" "F" "G" "H" 6].
Proof.
  apply (readVotesFromFile_unterminated _ _ (mkVotes "E" "F" "G" "H" 0) "6" 6
           sample_reads_as); [repeat split | reflexivity | reflexivity].
Defined.

Lemma readVotesFromFile_bad_count_witness :
  readVotesFromFile
    (Some (render_all [(mkVotes "A" "B" "C" "D" 5, "5")]
           ++ render (mkVotes "E" "F" "G" "H" 0) "many" ++ "I,J,K,L,7")%string)
  = Thrown invalid_argument.
Proof.
  apply (readVotesFromFile_bad_count _ _ (mkVotes "E" "F" "G" "H" 0) "many"
           invalid_argument "I,J,K,L,7" sample_reads_as);
    [repeat split | reflexivity | reflexivity].
Defined.

Lemma readVotesFromFile_truncated_witness :
  readVotesFromFile (Some (render (mkVotes "A" "B" "C" "D" 5) "5" ++ "E" ++ "," ++ "F")%string)
  = Loaded [mkVotes "A" "B" "C" "D" 5; mkVotes "E" "F" "C" "D" 5].
Proof.
  apply (proj1 (readVotesFromFile_truncated [] [] (mkVotes "A" "B" "C" "D" 5) "5" 5
                  "E" "F" reads_nil
                  (conj eq_refl (conj eq_refl (conj eq_refl eq_refl)))
                  eq_refl eq_refl eq_refl eq_refl)).
Defined.

(* ================================================================== *)
(** ** More on the national results *)

(** X8.  [operator<] of [CandidateSummary] is a strict weak ordering, which is
    what [std::sort] requires of it: irreflexive, transitive, and with a
    transitive "neither is less" relation (equal totals). *)
Theorem summary_lt_strict_weak_order :
  (forall a, summary_lt a a = false)
  /\ (forall a b c,
        summary_lt a b = true -> summary_lt b c = true -> summary_lt a c = true)
  /\ (forall a b c,
        summary_lt a b = false -> summary_lt b a = false ->
        summary_lt b c = false -> summary_lt c b = false ->
        summary_lt a c = false /\ summary_lt c a = false)
  /\ (forall a b,
        (summary_lt a b = false /\ summary_lt b a = false)
        <-> totalVotes a = totalVotes b).
Proof.
  unfold summary_lt. split; [|split; [|split]].
  - intros a. apply Z.ltb_irrefl.
  - intros a b c. rewrite !Z.ltb_lt. lia.
  - intros a b c. rewrite !Z.ltb_ge. lia.
  - intros a b. rewrite !Z.ltb_ge. lia.
Qed.

Lemma tallyVote_labels summaries vote :
  map (fun s => (name s, party s)) (tallyVote summaries vote) =
  if in_dec string_dec (getCandidate vote) (map name summaries)
  then map (fun s => (name s, party s)) summaries
  else map (fun s => (name s, party s)) summaries
       ++ [(getCandidate vote, getParty vote)].
Proof.
  unfold tallyVote. destruct (addToSummary summaries vote) as [r|] eqn:E.
  - destruct (addToSummary_Some _ _ _ E) as (pre & s & post & -> & Hn & Hpre & ->).
    destruct (in_dec _ _ _) as [i|n].
    + rewrite !map_app. reflexivity.
    + exfalso. apply n. rewrite map_app. apply in_or_app. right. now left.
  - apply addToSummary_None in E. destruct (in_dec _ _ _) as [i|n]; [contradiction|].
    rewrite map_app. reflexivity.
Qed.

(** Where the name and the party of a summary come from: a summary the
    loop started with, or the first of the records with that name. *)
Lemma fold_tallyVote_labels votes : forall summaries s,
  In s (fold_left tallyVote votes summaries) ->
  In (name s, party s) (map (fun s => (name s, party s)) summaries)
  \/ (~ In (name s) (map name summaries)
      /\ exists pre vote post,
           votes = pre ++ vote :: post
           /\ (forall u, In u pre -> getCandidate u <> name s)
           /\ getCandidate vote = name s /\ getParty vote = party s).
Proof.
  induction votes as [|v votes IH]; intros summaries s Hin; cbn [fold_left] in Hin.
  - left. now apply (in_map (fun s => (name s, party s))).
  - pose proof (tallyVote_labels summaries v) as Hl.
    pose proof (tallyVote_names summaries v) as Hn.
    destruct (IH _ _ Hin) as [H|(Hout & pre & u & post & -> & Hpre & Hu & Hp)].
    + rewrite Hl in H. destruct (in_dec string_dec (getCandidate v) (map name summaries))
        as [i|n]; [now left|].
      apply in_app_or in H. destruct H as [H|[H|[]]]; [now left|].
      inversion H. right. split; [congruence|].
      exists [], v, votes. repeat split; auto; intros u [].
    + right. rewrite Hn in Hout.
      assert (Hv : getCandidate v <> name s /\ ~ In (name s) (map name summaries)).
      { destruct (in_dec string_dec (getCandidate v) (map name summaries)) as [i|n].
        - split; [|assumption]. intros F. apply Hout. now rewrite <- F.
        - split.
          + intros F. apply Hout. apply in_or_app. right. now left.
          + intros F. apply Hout. apply in_or_app. now left. }
      destruct Hv as [Hv Hs]. split; [assumption|].
      exists (v :: pre), u, post. repeat split; auto.
      intros w [<-|Hw]; auto.
Qed.

(** X9.  Every row of the national results carries the party of the first
    record, in input order, that has the row's candidate name; later
    records of the candidate with another party add to the total and leave
    the party as it is. *)
Theorem national_party_first_seen
  (sort : list CandidateSummary -> list CandidateSummary) (votes : list Votes)
  (candidate partyLabel : string) (total : Z) :
  std_sort_contract sort ->
  In (candidate, partyLabel, total) (showNationalResults sort votes) ->
  exists pre vote post,
    votes = pre ++ vote :: post
    /\ (forall u, In u pre -> getCandidate u <> candidate)
    /\ getCandidate vote = candidate /\ getParty vote = partyLabel.
Proof.
  intros [Hp _] Hin. unfold showNationalResults in Hin.
  apply in_map_iff in Hin. destruct Hin as (s & Hs & Hin). inversion Hs; subst.
  unfold getCandidateSummaries in Hin.
  apply (Permutation_in _ (Permutation_sym (Hp _))) in Hin.
  destruct (fold_tallyVote_labels votes [] s Hin) as [[]|[_ H]]. exact H.
Qed.

Lemma national_party_first_seen_witness :
  exists pre vote post,
    sample_votes = pre ++ vote :: post
    /\ (forall u, In u pre -> getCandidate u <> "B")
    /\ getCandidate vote = "B" /\ getParty vote = "PartyY".
Proof.
  apply (national_party_first_seen insertion_sort sample_votes "B" "PartyY" 30
           insertion_sort_contract).
  vm_compute. tauto.
Defined.




Lemma countsFor_Permutation c votes votes' :
  Permutation votes votes' -> Zsum (countsFor c votes) = Zsum (countsFor c votes').
Proof.
  unfold countsFor, Zsum.
  induction 1 as [|v l l' _ IH|v w l|l l' l'' _ IH1 _ IH2];
    cbn [filter]; try reflexivity.
  - destruct (String.eqb c (getCandidate v)); cbn [map fold_right]; lia.
  - destruct (String.eqb c (getCandidate v)), (String.eqb c (getCandidate w));
      cbn [map fold_right]; lia.
  - lia.
Qed.

(** X11.  The order of the records does not matter to the totals: two inputs
    with the same records in another order give the same overview and, for
    every candidate, the same national total. *)
Theorem totals_order_independent
  (sort : list CandidateSummary -> list CandidateSummary)
  (votes votes' : list Votes) :
  std_sort_contract sort ->
  votes_wf votes ->
  Permutation votes votes' ->
  showDataOverview votes = showDataOverview votes'
  /\ forall s, In s (getCandidateSummaries sort votes) ->
       exists s', In s' (getCandidateSummaries sort votes')
                  /\ name s' = name s /\ totalVotes s' = totalVotes s.
Proof.
  intros Hsort Hwf Hperm.
  assert (Hwf' : votes_wf votes') by (apply (Permutation_Forall Hperm), Hwf).
  split.
  - apply injective_projections.
    + cbn [fst showDataOverview]. now apply Permutation_length.
    + rewrite !showDataOverview_total, !int_sum_wrap. f_equal.
      apply Zsum_Permutation. now apply Permutation_map.
  - intros s Hs.
    destruct (summaries_grouped sort Hsort votes Hwf) as [_ Htot Hnam _].
    destruct (summaries_grouped sort Hsort votes' Hwf') as [_ Htot' _ Hall'].
    destruct (Hnam s Hs) as (v & Hv & Hc).
    assert (Hin : In (name s) (map name (getCandidateSummaries sort votes'))).
    { rewrite <- Hc. apply Hall'. now apply (Permutation_in _ Hperm). }
    apply in_map_iff in Hin. destruct Hin as (s' & Hname & Hs').
    exists s'. split; [assumption|]. split; [assumption|].
    rewrite (Htot s Hs), (Htot' s' Hs'), Hname, !int_sum_wrap. f_equal.
    symmetry. now apply countsFor_Permutation.
Qed.

Lemma totals_order_independent_witness :
  showDataOverview sample_votes = showDataOverview (rev sample_votes).
Proof.
  exact (proj1 (totals_order_independent insertion_sort sample_votes (rev sample_votes)
                  insertion_sort_contract sample_votes_wf
                  (Permutation_rev sample_votes))).
Defined.

(** The totals of the summaries add up to the total of the records, as
    [int] sums. *)
Lemma summaries_total_sum
  (sort : list CandidateSummary -> list CandidateSummary) (votes : list Votes) :
  std_sort_contract sort -> votes_wf votes ->
  int_sum (map totalVotes (getCandidateSummaries sort votes))
  = int_sum (map getVoteCount votes).
Proof.
  intros Hsort Hwf.
  destruct (summaries_grouped sort Hsort votes Hwf) as [Hnd Htot _ Hall].
  assert (Htotals : map totalVotes (getCandidateSummaries sort votes) =
                    map (fun c => wrap (Zsum (countsFor c votes)))
                        (map name (getCandidateSummaries sort votes))).
  { rewrite map_map. apply map_ext_in. intros s Hs.
    rewrite <- int_sum_wrap. now apply Htot. }
  rewrite !int_sum_wrap, Htotals, wrap_Zsum_map.
  now rewrite Zsum_countsFor_partition.
Qed.

(* ================================================================== *)
(** ** More on the state results *)

(** X12.  A state that no record is stored under gives an empty chart, not
    an error: this is what a misspelt state, or a state stored in another
    letter case, gets. *)
Theorem state_results_unknown_state
  (sort : list CandidateSummary -> list CandidateSummary)
  (votes : list Votes) (stateInput : string) :
  std_sort_contract sort ->
  (forall vote, In vote votes -> getState vote <> toUpper stateInput) ->
  showStateResults sort votes stateInput = mkStateResults [] [] None.
Proof.
  intros [Hp _] Hno. unfold showStateResults.
  rewrite stateSummaries_recordsOf. unfold recordsOf.
  rewrite filter_none by (intros v Hv; apply String.eqb_neq; now apply Hno).
  unfold getCandidateSummaries. change (groupByCandidate []) with (@nil CandidateSummary).
  now rewrite (Permutation_nil (Hp [])).
Qed.

Lemma state_results_unknown_state_witness :
  showStateResults insertion_sort sample_votes "texas" = mkStateResults [] [] None
  /\ showStateResults insertion_sort mixed_case_votes "ohio"
     = mkStateResults [] [] None.
Proof.
  split.
  - apply (state_results_unknown_state insertion_sort sample_votes "texas"
             insertion_sort_contract).
    intros vote [<-|[<-|[<-|[]]]]; discriminate.
  - apply (state_results_unknown_state insertion_sort mixed_case_votes "ohio"
             insertion_sort_contract).
    intros vote [<-|[]]; discriminate.
Defined.

Lemma round_half_away_monotone (a b den : Z) :
  0 < den -> a <= b -> round_half_away a den <= round_half_away b den.
Proof.
  intros Hden Hab. unfold round_half_away.
  destruct (Z.leb_spec 0 a), (Z.leb_spec 0 b); try lia.
  - apply Z.div_le_mono; lia.
  - assert (0 <= (2 * - a + den) / (2 * den)) by (apply Z.div_pos; lia).
    assert (0 <= (2 * b + den) / (2 * den)) by (apply Z.div_pos; lia).
    lia.
  - assert ((2 * - b + den) / (2 * den) <= (2 * - a + den) / (2 * den))
      by (apply Z.div_le_mono; lia).
    lia.
Qed.

Lemma round_half_away_bounds (t : Z) :
  in_range t ->
  -14317 <= round_half_away t 150000 <= 14317
  /\ (0 <= t -> 0 <= round_half_away t 150000).
Proof.
  unfold in_range, INT_MIN, INT_MAX. intros Ht.
  pose proof (round_half_away_monotone (-2147483648) t 150000 eq_refl (proj1 Ht)) as H1.
  pose proof (round_half_away_monotone t 2147483647 150000 eq_refl (proj2 Ht)) as H2.
  change (round_half_away (-2147483648) 150000) with (-14317) in H1.
  change (round_half_away 2147483647 150000) with 14317 in H2.
  split; [lia|]. intros H0.
  pose proof (round_half_away_monotone 0 t 150000 eq_refl H0) as H3.
  change (round_half_away 0 150000) with 0 in H3. lia.
Qed.

Lemma state_rows_in_range
  (sort : list CandidateSummary -> list CandidateSummary)
  (votes : list Votes) (state : string) :
  std_sort_contract sort -> votes_wf votes ->
  Forall (fun s => in_range (totalVotes s)) (stateSummaries sort votes state).
Proof.
  intros Hsort Hwf. rewrite stateSummaries_recordsOf. apply Forall_forall. intros s Hs.
  destruct (summaries_grouped sort Hsort _ (recordsOf_wf state votes Hwf))
    as [_ Htot _ _].
  rewrite (Htot s Hs), int_sum_wrap. apply wrap_in_range.
Qed.

Lemma StronglySorted_app_l {A} (R : A -> A -> Prop) (l1 l2 : list A) :
  StronglySorted R (l1 ++ l2) -> StronglySorted R l1.
Proof.
  induction l1 as [|x l1 IH]; cbn [app]; intros H; [constructor|].
  inversion H as [|? ? Hs Hx]; subst. constructor; [now apply IH|].
  apply Forall_app in Hx. apply Hx.
Qed.

(** The bar is negative, and cannot be built, from a total of -75000 down. *)
Lemma bars_negative (t : Z) : in_range t -> (bars t < 0 <-> t <= -75000).
Proof.
  intros Hr. rewrite (bars_round_half_away _ Hr). unfold round_half_away.
  destruct (Z.leb_spec 0 t) as [H0|H0].
  - assert (0 <= (2 * t + 150000) / (2 * 150000)) by (apply Z.div_pos; lia).
    lia.
  - pose proof (Z.mul_div_le (2 * - t + 150000) (2 * 150000)) as H1.
    pose proof (Z.mul_succ_div_gt (2 * - t + 150000) (2 * 150000)) as H2.
    set (q := (2 * - t + 150000) / (2 * 150000)) in *. clearbody q. lia.
Qed.

(** The counts of the printed rows are the beginning of the counts that
    line 226 gives down the vector. *)
Lemma printChart_prefix (summaries : list CandidateSummary) :
  exists rest,
    map (fun s => bars (totalVotes s)) summaries
    = map snd (fst (printChart summaries)) ++ rest.
Proof.
  induction summaries as [|s l [rest IH]]; cbn [printChart map];
    [now exists []|].
  destruct (bars (totalVotes s) <? 0).
  - cbn [fst map app]. now eexists.
  - destruct (printChart l) as [rows thrown]. cbn [fst snd map app] in *.
    exists rest. now rewrite IH.
Qed.

Lemma bars_sorted (summaries : list CandidateSummary) :
  Forall (fun s => in_range (totalVotes s)) summaries ->
  StronglySorted (fun a b => summary_lt b a = false) summaries ->
  StronglySorted (fun upper lower => lower <= upper)
    (map (fun s => bars (totalVotes s)) summaries).
Proof.
  intros Hr Hs. induction Hs as [|s l Hs IH Hall]; cbn [map]; constructor.
  - apply IH. now inversion Hr.
  - inversion Hr as [|? ? Hs0 Hl]; subst. rewrite Forall_map.
    rewrite Forall_forall in *. intros x Hx.
    rewrite !bars_round_half_away by auto.
    apply round_half_away_monotone; [lia|].
    specialize (Hall x Hx). unfold summary_lt in Hall. now apply Z.ltb_ge in Hall.
Qed.

(** X13.  Down the chart of a state the bars never get longer, and a
    printed bar has between 0 and 14317 strokes.  The chart is complete,
    one row per summary in sorted order, exactly when every total of the
    state is above -75000; this is so when the totals are not negative, as
    they are when the counts are not negative and no candidate's counts in
    the state add up to more than [INT_MAX].  Otherwise the function is
    left by [std::length_error] at the first summary, in sorted order,
    whose total is -75000 or less: the rows before it are printed, its own
    and the later ones are not. *)
Theorem bar_chart_non_increasing
  (sort : list CandidateSummary -> list CandidateSummary)
  (votes : list Votes) (stateInput : string) :
  std_sort_contract sort -> votes_wf votes ->
  let results := showStateResults sort votes stateInput in
  StronglySorted (fun upper lower => lower <= upper) (map snd (printedRows results))
  /\ (forall row, In row (printedRows results) -> 0 <= snd row <= 14317)
  /\ match lengthError results with
     | None =>
         map fst (printedRows results) = sortedSummaries results
         /\ Forall (fun s => -75000 < totalVotes s) (sortedSummaries results)
     | Some s =>
         totalVotes s <= -75000
         /\ Forall (fun row => -75000 < totalVotes (fst row)) (printedRows results)
         /\ exists rest,
              sortedSummaries results = map fst (printedRows results) ++ s :: rest
     end
  /\ (Forall (fun s => 0 <= totalVotes s) (sortedSummaries results) ->
      lengthError results = None)
  /\ (Forall (fun vote => 0 <= getVoteCount vote) votes ->
      (forall candidate,
         Zsum (countsFor candidate (recordsOf (toUpper stateInput) votes)) <= INT_MAX) ->
      lengthError results = None).
Proof.
  intros Hsort Hwf results.
  pose proof (state_rows_in_range sort votes (toUpper stateInput) Hsort Hwf) as Hr.
  assert (Hs : StronglySorted (fun a b => summary_lt b a = false)
                 (stateSummaries sort votes (toUpper stateInput)))
    by apply Hsort.
  pose proof (stateSummaries_recordsOf sort votes (toUpper stateInput)) as Hrec.
  change (sortedSummaries results) with (stateSummaries sort votes (toUpper stateInput)).
  change (printedRows results)
    with (fst (printChart (stateSummaries sort votes (toUpper stateInput)))).
  change (lengthError results)
    with (snd (printChart (stateSummaries sort votes (toUpper stateInput)))).
  clearbody results. clear results.
  set (l := stateSummaries sort votes (toUpper stateInput)) in *.
  pose proof (printChart_outcome l) as Hout.
  assert (Hrows : forall row, In row (fst (printChart l)) ->
            in_range (totalVotes (fst row)) /\ 0 <= bars (totalVotes (fst row))
            /\ snd row = bars (totalVotes (fst row))).
  { intros row Hin. apply printChart_rows in Hin. destruct Hin as (H1 & H2 & H3).
    rewrite Forall_forall in Hr. split; [now apply Hr | split; [lia | assumption]]. }
  assert (Habove : forall row, In row (fst (printChart l)) ->
            -75000 < totalVotes (fst row)).
  { intros row Hin. destruct (Hrows row Hin) as (H1 & H2 & _).
    pose proof (bars_negative _ H1). lia. }
  assert (Hnone : Forall (fun s => 0 <= totalVotes s) l -> snd (printChart l) = None).
  { intros Hpos. destruct (snd (printChart l)) as [s|]; [|reflexivity].
    destruct Hout as [Hneg [rest Hl]].
    assert (Hin : In s l) by (rewrite Hl; apply in_or_app; right; now left).
    rewrite Forall_forall in Hr, Hpos.
    pose proof (proj1 (bars_negative _ (Hr s Hin)) Hneg).
    pose proof (Hpos s Hin). lia. }
  split; [|split; [|split; [|split]]].
  - destruct (printChart_prefix l) as [rest Hpre].
    apply (StronglySorted_app_l _ _ rest). rewrite <- Hpre.
    now apply bars_sorted.
  - intros row Hin. destruct (Hrows row Hin) as (H1 & H2 & H3).
    rewrite H3. split; [assumption|].
    rewrite (bars_round_half_away _ H1).
    apply (round_half_away_bounds _ H1).
  - destruct (snd (printChart l)) as [s|].
    + destruct Hout as [Hneg [rest Hl]].
      assert (Hin : In s l) by (rewrite Hl; apply in_or_app; right; now left).
      rewrite Forall_forall in Hr.
      split; [apply (bars_negative _ (Hr s Hin)), Hneg|].
      split; [now apply Forall_forall | now exists rest].
    + split; [assumption|]. apply Forall_forall. intros s Hin.
      rewrite <- Hout in Hin. apply in_map_iff in Hin.
      destruct Hin as (row & <- & Hin). now apply Habove.
  - exact Hnone.
  - intros Hpos Hmax. apply Hnone. apply Forall_forall. intros s Hin.
    rewrite Hrec in Hin.
    assert (Hpos' : Forall (fun vote => 0 <= getVoteCount vote)
                      (recordsOf (toUpper stateInput) votes)).
    { unfold recordsOf. rewrite Forall_forall in *. intros v Hv.
      apply Hpos. now apply filter_In in Hv. }
    destruct (summaries_grouped sort Hsort _ (recordsOf_wf (toUpper stateInput) votes Hwf))
      as [_ Htot _ _].
    rewrite (Htot s Hin).
    destruct (Zsum_countsFor_bounds (name s) _ Hpos') as [B1 _].
    rewrite (int_sum_exact _ B1 (Hmax (name s))). now apply Zsum_nonneg.
Qed.

Lemma bar_chart_non_increasing_witness :
  printedRows (showStateResults insertion_sort half_bar_votes "ohio")
  = [ (mkSummary "A" "PartyX" 75000, 1); (mkSummary "B" "PartyY" 74999, 0) ]
  /\ StronglySorted (fun upper lower => lower <= upper)
       (map snd (printedRows (showStateResults insertion_sort half_bar_votes "ohio")))
  /\ lengthError (showStateResults insertion_sort half_bar_votes "ohio") = None.
Proof.
  assert (Hwf : votes_wf half_bar_votes)
    by (repeat constructor; unfold INT_MIN, INT_MAX; simpl; lia).
  destruct (bar_chart_non_increasing insertion_sort half_bar_votes "ohio"
              insertion_sort_contract Hwf) as (H1 & _ & _ & H4 & _).
  split; [vm_compute; reflexivity|]. split; [exact H1|].
  apply H4. apply Forall_forall. intros s Hs. vm_compute in Hs.
  destruct Hs as [<-|[<-|[]]]; simpl; lia.
Defined.

(* ================================================================== *)
(** ** More on the state table *)

(** X14.  Each row of the candidate results holds, for its state, the [int]
    sum of the counts of the records stored under exactly that state, and
    the [int] sum of those among them whose candidate field is exactly the
    resolved name. *)
Theorem state_table_rows (votes : list Votes) (candidateInput : string) :
  map fst (rows (showCandidateResults votes candidateInput))
  = map (fun state =>
           (state,
            (int_sum (candidateCounts state
                        (candidateName (showCandidateResults votes candidateInput))
                        votes),
             int_sum (stateCounts state votes))))
        STATES.
Proof. rewrite rows_table. apply buildStateResults_tallyOf. Qed.

Lemma Zsum_indicator_any (x : string) (k : Z) (names : list string) :
  NoDup names ->
  Zsum (map (fun c => if String.eqb x c then k else 0) names)
  = if existsb (String.eqb x) names then k else 0.
Proof.
  induction 1 as [|c names Hc Hnd IH]; [reflexivity|].
  cbn [map Zsum fold_right existsb]. fold (Zsum (map (fun c => if String.eqb x c then k else 0) names)).
  rewrite IH. destruct (String.eqb_spec x c) as [->|Hne]; [|reflexivity].
  cbn [orb]. destruct (existsb (String.eqb c) names) eqn:E; [|lia].
  exfalso. apply existsb_exists in E. destruct E as (d & Hd & E).
  apply String.eqb_eq in E. subst d. contradiction.
Qed.

(** Over duplicate-free names, the per-state sums of a weight add up to
    its sum over the records whose state is one of the names. *)
Lemma Zsum_by_state (w : Votes -> Z) (names : list string) (votes : list Votes) :
  NoDup names ->
  Zsum (map (fun state =>
               Zsum (map w (filter (fun v => String.eqb (getState v) state) votes)))
            names)
  = Zsum (map w (filter (fun v => existsb (String.eqb (getState v)) names) votes)).
Proof.
  intros Hnd. induction votes as [|v votes IH].
  - cbn [filter map]. induction names as [|c names IHn]; [reflexivity|].
    inversion Hnd; subst. cbn [map Zsum fold_right] in *.
    fold (Zsum (map (fun _ : string => 0) names)) in *. now rewrite IHn.
  - cbn [filter].
    transitivity
      (Zsum (map (fun state => (if String.eqb (getState v) state then w v else 0)
                               + Zsum (map w (filter (fun u => String.eqb (getState u) state)
                                                votes)))
                 names)).
    { f_equal. apply map_ext. intros state.
      destruct (String.eqb (getState v) state); reflexivity. }
    rewrite Zsum_map_add, IH, Zsum_indicator_any by assumption.
    destruct (existsb (String.eqb (getState v)) names); reflexivity.
Qed.

Lemma Zsum_filter_andb (p q : Votes -> bool) (votes : list Votes) :
  Zsum (map getVoteCount (filter (fun v => andb (p v) (q v)) votes))
  = Zsum (map (fun v => if q v then getVoteCount v else 0) (filter p votes)).
Proof.
  unfold Zsum. induction votes as [|v votes IH]; [reflexivity|].
  cbn [filter]. destruct (p v) eqn:Ep, (q v) eqn:Eq;
    cbn [andb map fold_right]; rewrite ?Eq; lia.
Qed.

(** X15.  The rows conserve the votes: the total votes of the 51 rows add up
    to the counts of the records whose state is in the enumeration, and the
    candidate votes to those of them that carry the candidate's name.  When
    every record's state is in the enumeration these are the overview's
    total and the candidate's national total.  (All sums are [int] sums.) *)
Theorem state_table_conservation (votes : list Votes) (candidate : string) :
  int_sum (map (fun row => snd (snd row)) (buildStateResults votes candidate))
  = int_sum (map getVoteCount (filter recognised votes))
  /\ int_sum (map (fun row => fst (snd row)) (buildStateResults votes candidate))
     = int_sum (map getVoteCount
                  (filter (fun vote => andb (recognised vote)
                                            (String.eqb (getCandidate vote) candidate))
                     votes))
  /\ ((forall vote, In vote votes -> In (getState vote) STATES) ->
      int_sum (map (fun row => snd (snd row)) (buildStateResults votes candidate))
      = snd (showDataOverview votes)
      /\ int_sum (map (fun row => fst (snd row)) (buildStateResults votes candidate))
         = int_sum (countsFor candidate votes)).
Proof.
  rewrite buildStateResults_tallyOf, !map_map. unfold tallyOf. cbn [fst snd].
  assert (Htot : int_sum (map (fun state => int_sum (stateCounts state votes)) STATES)
                 = int_sum (map getVoteCount (filter recognised votes))).
  { rewrite !int_sum_wrap.
    rewrite (map_ext _ (fun state => wrap (Zsum (stateCounts state votes))))
      by (intros; apply int_sum_wrap).
    rewrite wrap_Zsum_map. f_equal. unfold stateCounts.
    apply (Zsum_by_state getVoteCount STATES votes STATES_NoDup). }
  assert (Hcand : int_sum (map (fun state =>
                                  int_sum (candidateCounts state candidate votes)) STATES)
                  = int_sum (map getVoteCount
                               (filter (fun vote =>
                                          andb (recognised vote)
                                               (String.eqb (getCandidate vote) candidate))
                                  votes))).
  { rewrite !int_sum_wrap.
    rewrite (map_ext _ (fun state => wrap (Zsum (candidateCounts state candidate votes))))
      by (intros; apply int_sum_wrap).
    rewrite wrap_Zsum_map. f_equal. unfold candidateCounts.
    rewrite (map_ext _ (fun state =>
               Zsum (map (fun v => if String.eqb (getCandidate v) candidate
                                   then getVoteCount v else 0)
                       (filter (fun v => String.eqb (getState v) state) votes))))
      by (intros; apply Zsum_filter_andb).
    rewrite (Zsum_by_state _ STATES votes STATES_NoDup).
    symmetry. apply Zsum_filter_andb. }
  split; [assumption|]. split; [assumption|].
  intros Hall.
  assert (Hrec : forall vote, In vote votes -> recognised vote = true).
  { intros vote Hv. apply existsb_exists. exists (getState vote).
    split; [now apply Hall | apply String.eqb_refl]. }
  split.
  - rewrite Htot, showDataOverview_total. now rewrite filter_all.
  - rewrite Hcand. unfold countsFor. do 2 f_equal. apply filter_ext_in.
    intros vote Hv. rewrite (Hrec vote Hv). cbn [andb]. apply String.eqb_sym.
Qed.

Lemma state_table_conservation_witness :
  int_sum (map (fun row => snd (snd row)) (buildStateResults sample_votes "A")) = 180
  /\ int_sum (map (fun row => fst (snd row)) (buildStateResults sample_votes "A")) = 150.
Proof.
  destruct (state_table_conservation sample_votes "A") as (_ & _ & H).
  destruct H as [H1 H2].
  - intros vote [<-|[<-|[<-|[]]]]; vm_compute; tauto.
  - split; [exact H1 | exact H2].
Defined.

(** X16.  The chart of a state agrees with the state's row of the candidate
    results: for an input that upper-cases to an entry of the enumeration,
    the totals of the chart add up (as an [int] sum) to the total votes of
    that entry's row, whoever the candidate is. *)
Theorem state_chart_matches_table
  (sort : list CandidateSummary -> list CandidateSummary)
  (votes : list Votes) (stateInput candidate : string) :
  std_sort_contract sort -> votes_wf votes ->
  In (toUpper stateInput) STATES ->
  exists candidateVotes,
    In (toUpper stateInput,
        (candidateVotes,
         int_sum (map totalVotes
                    (sortedSummaries (showStateResults sort votes stateInput)))))
       (buildStateResults votes candidate).
Proof.
  intros Hsort Hwf Hin.
  exists (int_sum (candidateCounts (toUpper stateInput) candidate votes)).
  rewrite buildStateResults_tallyOf. apply in_map_iff.
  exists (toUpper stateInput). split; [|assumption].
  unfold tallyOf. do 2 f_equal.
  rewrite showStateResults_summaries.
  rewrite summaries_total_sum by (auto using recordsOf_wf). reflexivity.
Qed.

Lemma state_chart_matches_table_witness :
  exists candidateVotes,
    In ("OHIO", (candidateVotes, 180)) (buildStateResults sample_votes "A").
Proof.
  apply (state_chart_matches_table insertion_sort sample_votes "ohio" "A"
           insertion_sort_contract sample_votes_wf).
  vm_compute. tauto.
Defined.

(* ================================================================== *)
(** ** More on [toUpper] and the searches *)

Lemma toUpper_app (a b : string) :
  toUpper (a ++ b)%string = (toUpper a ++ toUpper b)%string.
Proof. induction a as [|c a IH]; simpl; [reflexivity | now rewrite IH]. Qed.

(** X17.  [toUpper] keeps the length of the string, distributes over
    concatenation, leaves no character that [::toupper] would still change
    (no lower-case letter), and is idempotent. *)
Theorem toUpper_properties (s t : string) :
  String.length (toUpper s) = String.length s
  /\ toUpper (s ++ t)%string = (toUpper s ++ toUpper t)%string
  /\ toUpper (toUpper s) = toUpper s
  /\ (forall c, has_char c (toUpper s) = true -> toupper c = c).
Proof.
  split; [|split; [|split]].
  - induction s as [|c s IH]; simpl; [reflexivity | now rewrite IH].
  - apply toUpper_app.
  - apply toUpper_idem.
  - induction s as [|d s IH]; simpl; intros c H; [discriminate|].
    apply orb_true_iff in H. destruct H as [H|H]; [|now apply IH].
    apply Ascii.eqb_eq in H. subst c. apply toupper_idem.
Qed.

(** X18.  The county search lists a record exactly when the record's county,
    upper-cased, has the upper-cased search term as a run of consecutive
    characters somewhere in it; the records come in input order, one per
    matching record. *)
Theorem county_search_matches (votes : list Votes) (countyInput : string)
  (vote : Votes) :
  (In vote (showCountySearch votes countyInput) <->
   In vote votes
   /\ exists pre post,
        toUpper (getCounty vote) = (pre ++ toUpper countyInput ++ post)%string)
  /\ (forall before after,
        votes = before ++ after ->
        showCountySearch votes countyInput
        = showCountySearch before countyInput ++ showCountySearch after countyInput).
Proof.
  split.
  - unfold showCountySearch. rewrite filter_In, contains_iff. reflexivity.
  - intros before after ->. unfold showCountySearch. apply filter_app.
Qed.

Lemma filter_filter {A} (p q : A -> bool) (l : list A) :
  filter q (filter p l) = filter (fun x => andb (p x) (q x)) l.
Proof.
  induction l as [|x l IH]; [reflexivity|].
  cbn [filter]. destruct (p x) eqn:Ep; cbn [andb filter]; [|assumption].
  destruct (q x); now rewrite IH.
Qed.

(** X19.  Refining a county search: when the second term contains the first
    (letter case ignored), searching the results of the first search for
    the second term gives what searching all records for it gives.  In
    particular a search repeated on its own results returns them all. *)
Theorem county_search_refines (votes : list Votes) (first second : string) :
  contains (toUpper second) (toUpper first) = true ->
  showCountySearch (showCountySearch votes first) second
  = showCountySearch votes second
  /\ showCountySearch (showCountySearch votes first) first
     = showCountySearch votes first.
Proof.
  intros Hsub.
  assert (H : forall t u, contains (toUpper u) (toUpper t) = true ->
            showCountySearch (showCountySearch votes t) u = showCountySearch votes u).
  { intros t u Htu. unfold showCountySearch. rewrite filter_filter.
    apply filter_ext. intros v.
    destruct (contains (toUpper (getCounty v)) (toUpper u)) eqn:E.
    - now rewrite (contains_trans _ _ _ E Htu).
    - apply andb_false_r. }
  split; [now apply H | apply H, contains_refl].
Qed.

Lemma county_search_refines_witness :
  showCountySearch (showCountySearch sample_votes "c") "cuy"
  = showCountySearch sample_votes "cuy".
Proof.
  apply (county_search_refines sample_votes "c" "cuy"). reflexivity.
Defined.

(** X20.  How the candidate is resolved: the resolved name is the candidate
    field, as stored, of the first record whose upper-cased candidate
    contains the upper-cased search term; it is empty when no record
    matches.  Two search terms that differ only in letter case give the
    same results. *)
Theorem candidate_resolution_first_match (votes : list Votes) (searchTerm : string) :
  ((exists pre vote post,
      votes = pre ++ vote :: post
      /\ (forall u, In u pre ->
            contains (toUpper (getCandidate u)) (toUpper searchTerm) = false)
      /\ contains (toUpper (getCandidate vote)) (toUpper searchTerm) = true
      /\ candidateName (showCandidateResults votes searchTerm) = getCandidate vote)
   \/ ((forall u, In u votes ->
          contains (toUpper (getCandidate u)) (toUpper searchTerm) = false)
       /\ candidateName (showCandidateResults votes searchTerm) = ""))
  /\ (forall other, toUpper other = toUpper searchTerm ->
        showCandidateResults votes other = showCandidateResults votes searchTerm).
Proof.
  split.
  - unfold showCandidateResults. cbn [candidateName].
    induction votes as [|v votes IH]; cbn [findCandidate].
    + right. split; [intros u []|reflexivity].
    + destruct (contains (toUpper (getCandidate v)) (toUpper searchTerm)) eqn:E.
      * left. exists [], v, votes. repeat split; auto. intros u [].
      * destruct IH as [(pre & u & post & -> & Hpre & Hu & Hn)|[Hno Hn]].
        -- left. exists (v :: pre), u, post. repeat split; auto.
           intros w [<-|Hw]; auto.
        -- right. split; [|assumption]. intros w [<-|Hw]; auto.
  - intros other E. unfold showCandidateResults. now rewrite E.
Qed.
